(** * Czech citizenship exam extractor: the structural parser, the image
      binder, the serializer and the image validator

    A shallow embedding of [pdf_to_json.py] and [validate_images.py].

    Python strings are sequences of Unicode code points, so a string is a
    list of code points ([N]); [len] is [length].  The PDF library and the
    file system stay outside: the parser starts from the list
    [lines_with_pages] of (line, page) pairs and from the per-page image
    lists that [parse_pdf] hands to the binder; the validator starts from
    the loaded JSON value and the set of file names of the directory. *)

From Stdlib Require Import NArith String Ascii DecimalString DecimalN.
From stdpp Require Import gmap list.

Open Scope N_scope.

Abbreviation char := N (only parsing).
Abbreviation str := (list N) (only parsing).

(** ASCII literals; the accented letters are written as code points. *)
Definition lit (s : string) : str := N_of_ascii <$> list_ascii_of_string s.

(** ** Whitespace: [str.isspace], [str.strip] and the regex class [\s]

    CPython decides both with the same predicate, true on exactly these
    code points. *)
Definition isspace (c : char) : bool :=
  ((9 <=? c) && (c <=? 13)) || ((28 <=? c) && (c <=? 32))
  || (c =? 133) || (c =? 160) || (c =? 5760)
  || ((8192 <=? c) && (c <=? 8202))
  || (c =? 8232) || (c =? 8233) || (c =? 8239) || (c =? 8287) || (c =? 12288).

Definition SPACE : char := 32.
Definition NEWLINE : char := 10.

Fixpoint lstrip (s : str) : str :=
  match s with
  | c :: s' => if isspace c then lstrip s' else s
  | [] => []
  end.

Definition rstrip (s : str) : str := reverse (lstrip (reverse s)).

(** [s.strip()] *)
Definition strip (s : str) : str := rstrip (lstrip s).

(** [re.sub(r'\s+', ' ', s)]: every maximal run of whitespace becomes one
    space.  A whitespace character followed by whitespace is dropped and
    the last one of its run is emitted as the space. *)
Fixpoint sub_spaces (s : str) : str :=
  match s with
  | [] => []
  | c :: s' =>
      if isspace c then
        match s' with
        | c' :: _ => if isspace c' then sub_spaces s' else SPACE :: sub_spaces s'
        | [] => [SPACE]
        end
      else c :: sub_spaces s'
  end.

(** [clean_text] *)
Definition clean_text (text : str) : str := strip (sub_spaces text).

(** ** Character data of the Python runtime

    [\d], [int], [str.isalpha], [str.isupper] and [str.lower] read the
    Unicode database of the interpreter.  The development is parametric in
    these tables.  [czech] below agrees with the database on ASCII and on
    the thirty accented letters of the Czech alphabet and takes every
    other code point for neither a letter nor a digit; the sample inputs
    are written in its characters. *)
Class Unicode := {
  decimal : char → option N;   (* the value of a decimal digit: [\d], [int] *)
  isalpha : char → bool;
  isupper : char → bool;
  islower : char → bool;
  istitle : char → bool;
  lower : str → str;           (* [str.lower] *)
}.

Definition czech_upper : str :=
  [193; 268; 270; 201; 282; 205; 327; 211; 344; 352; 356; 218; 366; 221; 381].
Definition czech_lower : str :=
  [225; 269; 271; 233; 283; 237; 328; 243; 345; 353; 357; 250; 367; 253; 382].

Definition elem (c : char) (s : str) : bool := existsb (N.eqb c) s.

Definition czech_lower_char (c : char) : char :=
  if (65 <=? c) && (c <=? 90) then c + 32
  else if elem c [193; 201; 205; 211; 218; 221] then c + 32
  else if elem c czech_upper then c + 1
  else c.

Definition czech : Unicode := {|
  decimal c := if (48 <=? c) && (c <=? 57) then Some (c - 48) else None;
  isalpha c := ((65 <=? c) && (c <=? 90)) || ((97 <=? c) && (c <=? 122))
               || elem c czech_upper || elem c czech_lower;
  isupper c := ((65 <=? c) && (c <=? 90)) || elem c czech_upper;
  islower c := ((97 <=? c) && (c <=? 122)) || elem c czech_lower;
  istitle c := false;
  lower s := czech_lower_char <$> s;
|}.

(** Test for truth of a Python string or list: it is not empty. *)
Definition nonempty {A} (l : list A) : bool :=
  match l with [] => false | _ :: _ => true end.

Fixpoint span (p : char → bool) (s : str) : str * str :=
  match s with
  | c :: s' => if p c then let '(a, b) := span p s' in (c :: a, b) else ([], s)
  | [] => ([], [])
  end.

(** [s.startswith(p)] *)
Fixpoint startswith (p s : str) : bool :=
  match p, s with
  | [], _ => true
  | a :: p', b :: s' => (a =? b) && startswith p' s'
  | _ :: _, [] => false
  end.

(** [p in s] *)
Fixpoint contains (p s : str) : bool :=
  startswith p s || match s with [] => false | _ :: s' => contains p s' end.

(** What a [.] of a regex matches from the start of [s]: all up to the
    first newline. *)
Fixpoint until_newline (s : str) : str :=
  match s with
  | c :: s' => if c =? NEWLINE then [] else c :: until_newline s'
  | [] => []
  end.

Definition is_A_to_D (c : char) : bool := (65 <=? c) && (c <=? 68).

(** Marker phrases and headers of the source document. *)
Definition SPRAVNE_RESENI : str :=
  lit "SPR" ++ [193] ++ lit "VN" ++ [201] ++ lit " " ++ [344] ++ lit "E" ++ [352]
  ++ lit "EN" ++ [205].
Definition TESTOVE_ULOHY : str := lit "TESTOV" ++ [201] ++ lit " " ++ [218] ++ lit "LOHY".
Definition OBCANSKY_ZAKLAD : str :=
  lit "OB" ++ [268] ++ lit "ANSK" ++ [221] ++ lit " Z" ++ [193] ++ lit "KLAD".
Definition POKRACOVANI : str := lit "(Pokra" ++ [269] ++ lit "ov" ++ [225] ++ lit "n" ++ [237] ++ lit ")".
Definition DATUM_AKTUALIZACE : str := lit "Datum aktualizace".
Definition DATUM_AKTUALIZACE_ULOHY : str :=
  lit "Datum aktualizace testov" ++ [233] ++ lit " " ++ [250] ++ lit "lohy:".

Section regex.
Context {U : Unicode}.

Definition isdigit (c : char) : bool :=
  match decimal c with Some _ => true | None => false end.

(** [int(ds)] on a run of decimal digits.  (The interpreter's optional
    limit on the length of a numeral is not modelled.) *)
Definition int (ds : str) : N :=
  foldl (λ n c, 10 * n + default 0 (decimal c)) 0 ds.

(** [s.isupper()] with CPython's shortcut for one character. *)
Definition str_isupper (s : str) : bool :=
  match s with
  | [c] => isupper c
  | _ => forallb (λ c, negb (islower c || istitle c)) s && existsb isupper s
  end.

(** The matchers take the longest run for [\d+] and [\s+]: no decimal
    digit is a dot, whitespace or a letter, and no whitespace starts a
    title, so a shorter run never gives a match the longest does not. *)

(** [re.match(r'^\d+$', line)] *)
Definition match_page_number (line : str) : bool :=
  let '(ds, r) := span isdigit line in
  nonempty ds && (bool_decide (r = []) || bool_decide (r = [NEWLINE])).

Definition title_first (c : char) : bool :=
  ((65 <=? c) && (c <=? 90)) || elem c czech_upper.
Definition title_rest (c : char) : bool :=
  title_first c || isspace c || (c =? 44) || ((48 <=? c) && (c <=? 57)) || (c =? 46).

(** The section header regex; the result is [group(1)], [group(2)]. *)
Definition match_section (line : str) : option (str * str) :=
  let '(ds, r) := span isdigit line in
  match ds, r with
  | _ :: _, dot :: r1 =>
      if dot =? 46 then
        let '(ws, r2) := span isspace r1 in
        match ws, r2 with
        | _ :: _, u :: r3 =>
            if title_first u && nonempty r3 && forallb title_rest r3
            then Some (ds, r2) else None
        | _, _ => None
        end
      else None
  | _, _ => None
  end.

(** [re.match(r'^(\d+)\.\s*(.* )', line)] *)
Definition match_question (line : str) : option (str * str) :=
  let '(ds, r) := span isdigit line in
  match ds, r with
  | _ :: _, dot :: r1 =>
      if dot =? 46 then Some (ds, until_newline (lstrip r1)) else None
  | _, _ => None
  end.

(** [re.match(r'^\d+\.\s', line)], and the same with [\s+] *)
Definition match_numbered (line : str) : bool :=
  let '(ds, r) := span isdigit line in
  match ds, r with
  | _ :: _, dot :: w :: _ => (dot =? 46) && isspace w
  | _, _ => false
  end.

(** [re.match(r'^[A-D]\)', line)] *)
Definition match_option_start (line : str) : bool :=
  match line with
  | l :: p :: _ => is_A_to_D l && (p =? 41)
  | _ => false
  end.

(** [re.match(r'^([A-D])\)\s*(.* )', line)] *)
Definition match_option (line : str) : option (str * str) :=
  match line with
  | l :: p :: r =>
      if is_A_to_D l && (p =? 41) then Some ([l], until_newline (lstrip r)) else None
  | _ => None
  end.

(** [.+] from the start of [s] *)
Definition dot_plus (s : str) : option str :=
  match until_newline s with [] => None | g => Some g end.

(** [\s*(.+)]: the longest run of whitespace after which [.+] matches. *)
Fixpoint spaces_dot_plus (s : str) : option str :=
  match s with
  | c :: s' =>
      if isspace c then
        match spaces_dot_plus s' with
        | Some g => Some g
        | None => dot_plus s
        end
      else dot_plus s
  | [] => None
  end.

Fixpoint strip_prefix (p s : str) : option str :=
  match p, s with
  | [], _ => Some s
  | a :: p', b :: s' => if a =? b then strip_prefix p' s' else None
  | _ :: _, [] => None
  end.

(** The date regex; the result is [group(1)]. *)
Definition match_date (line : str) : option str :=
  r ← strip_prefix DATUM_AKTUALIZACE_ULOHY line; spaces_dot_plus r.

(** [re.findall(r'(\d+)([A-D])', line)]: at each position the digits and
    the letter are matched or the scan moves one character on; after a
    match it resumes behind the letter ([skip] characters further). *)
Definition answer_at (s : str) : option (str * str) :=
  let '(ds, r) := span isdigit s in
  match ds, r with
  | _ :: _, l :: _ => if is_A_to_D l then Some (ds, [l]) else None
  | _, _ => None
  end.

Fixpoint findall_answers (skip : nat) (s : str) : list (str * str) :=
  match s with
  | [] => []
  | _ :: s' =>
      match skip with
      | S k => findall_answers k s'
      | O =>
          match answer_at s with
          | Some (num, letter) => (num, letter) :: findall_answers (length num) s'
          | None => findall_answers 0 s'
          end
      end
  end.

(** [parse_answers_line] *)
Definition parse_answers_line (line : str) : gmap N str :=
  foldl (λ answers '(num, letter), <[int num := letter]> answers) ∅
        (findall_answers 0 line).

End regex.

(** ** Data model *)

Record Option := {
  opt_label : str;
  opt_text : str;
  opt_image : option str;
}.

Record Question := {
  q_id : N;
  q_text : str;
  q_options : list Option;
  q_correct : str;
  q_image : option str;
  q_date : option str;
  q_page : N;
}.

Record Section := {
  sec_id : N;
  sec_name : str;
  sec_questions : list Question;
}.

Record QuizData := {
  source_file : str;
  sections : list Section;
}.

(** [Option(label=label, text=text)] and [Question(id=id, text=text, page=page)] *)
Definition new_option (label text : str) : Option :=
  {| opt_label := label; opt_text := text; opt_image := None |}.

Definition new_question (id : N) (text : str) (page : N) : Question :=
  {| q_id := id; q_text := text; q_options := []; q_correct := [];
     q_image := None; q_date := None; q_page := page |}.

Definition new_section (id : N) (name : str) : Section :=
  {| sec_id := id; sec_name := name; sec_questions := [] |}.

(** [question.options.append(opt)] *)
Definition add_option (q : Question) (opt : Option) : Question :=
  {| q_id := q_id q; q_text := q_text q; q_options := q_options q ++ [opt];
     q_correct := q_correct q; q_image := q_image q; q_date := q_date q;
     q_page := q_page q |}.

Definition set_date (q : Question) (d : str) : Question :=
  {| q_id := q_id q; q_text := q_text q; q_options := q_options q;
     q_correct := q_correct q; q_image := q_image q; q_date := Some d;
     q_page := q_page q |}.

Definition set_correct (q : Question) (letter : str) : Question :=
  {| q_id := q_id q; q_text := q_text q; q_options := q_options q;
     q_correct := letter; q_image := q_image q; q_date := q_date q;
     q_page := q_page q |}.

(** [section.questions.append(q)] *)
Definition add_question (sec : Section) (q : Question) : Section :=
  {| sec_id := sec_id sec; sec_name := sec_name sec;
     sec_questions := sec_questions sec ++ [q] |}.

(** ** The line scan of [parse_pdf] *)

Record state := {
  quiz_sections : list Section;          (* [quiz_data.sections] *)
  current_section : option Section;
  current_question : option Question;
  current_answers : gmap N str;
}.

Definition initial : state :=
  {| quiz_sections := []; current_section := None; current_question := None;
     current_answers := ∅ |}.

(** What a branch of the loop body does: [continue] with the cursor moved
    [1 + skip] lines on, or fall through to the next test. *)
Inductive outcome :=
  | Continue (st : state) (skip : nat)
  | Fall (st : state).

(** The loop over a section's questions that writes the answer letters:
    [if q.id in current_answers: q.correct = current_answers[q.id]] *)
Definition apply_answer (answers : gmap N str) (q : Question) : Question :=
  match answers !! q_id q with
  | Some letter => set_correct q letter
  | None => q
  end.

Definition apply_answers (answers : gmap N str) (sec : Section) : Section :=
  {| sec_id := sec_id sec; sec_name := sec_name sec;
     sec_questions := apply_answer answers <$> sec_questions sec |}.

(** [if current_section and current_question and current_question.options:
       current_section.questions.append(current_question)]; the result
    tells whether the question was appended. *)
Definition commit_question (st : state) : option Section * bool :=
  match current_section st, current_question st with
  | Some sec, Some q =>
      if nonempty (q_options q) then (Some (add_question sec q), true)
      else (Some sec, false)
  | cs, _ => (cs, false)
  end.

Section parser.
Context {U : Unicode}.

(** A continuation line ends at an option, a date line, a numbered
    line, the answer key or an empty line. *)
Definition stops (next_line : str) : bool :=
  match_option_start next_line
  || startswith DATUM_AKTUALIZACE next_line
  || match_numbered next_line
  || contains SPRAVNE_RESENI next_line
  || negb (nonempty next_line).

(** The inner loop of a question start: the text and [j - (i + 1)]. *)
Fixpoint collect_question (q_text : str) (rest : list (str * N)) : str * nat :=
  match rest with
  | [] => (q_text, 0%nat)
  | (l, _) :: rest' =>
      let next_line := strip l in
      if stops next_line then (q_text, 0%nat)
      else
        let '(t, n) :=
          collect_question
            (if nonempty q_text then q_text ++ lit " " ++ next_line else next_line)
            rest' in
        (t, S n)
  end.

(** The inner loop of an option. *)
Fixpoint collect_option (opt_text : str) (rest : list (str * N)) : str * nat :=
  match rest with
  | [] => (opt_text, 0%nat)
  | (l, _) :: rest' =>
      let next_line := strip l in
      if stops next_line then (opt_text, 0%nat)
      else
        let '(t, n) := collect_option (opt_text ++ lit " " ++ next_line) rest' in
        (t, S n)
  end.

Definition on_section_header (st : state) (line : str) : outcome :=
  match match_section line with
  | Some (num, section_text) =>
      if forallb (λ c, str_isupper [c] || negb (isalpha c)) section_text then
        let '(cs, _) := commit_question st in
        let saved :=
          match cs with
          | Some sec =>
              if nonempty (sec_questions sec)
              then quiz_sections st ++ [apply_answers (current_answers st) sec]
              else quiz_sections st
          | None => quiz_sections st
          end in
        Continue {| quiz_sections := saved;
                    current_section := Some (new_section (int num) (strip section_text));
                    current_question := None;
                    current_answers := ∅ |} 0
      else Fall st
  | None => Fall st
  end.

Definition on_answers (st : state) (line : str) : outcome :=
  if contains (SPRAVNE_RESENI ++ lit ":") line || contains SPRAVNE_RESENI line then
    let '(cs, committed) := commit_question st in
    Continue {| quiz_sections := quiz_sections st;
                current_section := cs;
                current_question := if committed then None else current_question st;
                current_answers := parse_answers_line line |} 0
  else Fall st.

Definition on_question (st : state) (line : str) (page_num : N)
    (rest : list (str * N)) : outcome :=
  match match_question line with
  | Some (num, text) =>
      let sec := default (new_section 0 POKRACOVANI) (current_section st) in
      let q_num := int num in
      if negb (str_isupper line) && ((q_num <=? 10) || contains (lit "?") line) then
        let sec' :=
          match current_question st with
          | Some q => if nonempty (q_options q) then add_question sec q else sec
          | None => sec
          end in
        let '(q_text, n) := collect_question text rest in
        Continue {| quiz_sections := quiz_sections st;
                    current_section := Some sec';
                    current_question := Some (new_question q_num (clean_text q_text) page_num);
                    current_answers := current_answers st |} n
      else
        Fall {| quiz_sections := quiz_sections st;
                current_section := Some sec;
                current_question := current_question st;
                current_answers := current_answers st |}
  | None => Fall st
  end.

Definition on_option (st : state) (line : str) (rest : list (str * N)) : outcome :=
  match match_option line, current_question st with
  | Some (label, text), Some q =>
      let '(opt_text, n) := collect_option text rest in
      Continue {| quiz_sections := quiz_sections st;
                  current_section := current_section st;
                  current_question :=
                    Some (add_option q (new_option label (clean_text opt_text)));
                  current_answers := current_answers st |} n
  | _, _ => Fall st
  end.

Definition on_date (st : state) (line : str) : outcome :=
  match match_date line, current_question st with
  | Some d, Some q =>
      Continue {| quiz_sections := quiz_sections st;
                  current_section := current_section st;
                  current_question := Some (set_date q (strip d));
                  current_answers := current_answers st |} 0
  | _, _ => Fall st
  end.

(** One turn of the [while] loop at the line [raw] of page [page_num],
    with the lines [rest] after it: the new state and how many of [rest]
    the turn has consumed as well. *)
Definition step (st : state) (raw : str) (page_num : N)
    (rest : list (str * N)) : state * nat :=
  let line := strip raw in
  if negb (nonempty line) || match_page_number line then (st, 0%nat)
  else if bool_decide (line = TESTOVE_ULOHY) || bool_decide (line = OBCANSKY_ZAKLAD)
  then (st, 0%nat)
  else
    match on_section_header st line with
    | Continue st' n => (st', n)
    | Fall st =>
    match on_answers st line with
    | Continue st' n => (st', n)
    | Fall st =>
    match on_question st line page_num rest with
    | Continue st' n => (st', n)
    | Fall st =>
    match on_option st line rest with
    | Continue st' n => (st', n)
    | Fall st =>
    match on_date st line with
    | Continue st' n => (st', n)
    | Fall st => (st, 0%nat)
    end end end end end.

(** The [while i < len(lines_with_pages)] loop; [skip] lines are passed
    over after a turn that has set [i = j]. *)
Fixpoint scan (skip : nat) (st : state) (lines : list (str * N)) : state :=
  match lines with
  | [] => st
  | (raw, page_num) :: rest =>
      match skip with
      | S k => scan k st rest
      | O => let '(st', n) := step st raw page_num rest in scan n st' rest
      end
  end.

(** After the loop: "Don't forget the last section". *)
Definition finish (st : state) : list Section :=
  match current_section st with
  | Some sec =>
      if nonempty (sec_questions sec) then
        let sec' :=
          match current_question st with
          | Some q => if nonempty (q_options q) then add_question sec q else sec
          | None => sec
          end in
        quiz_sections st ++ [apply_answers (current_answers st) sec']
      else quiz_sections st
  | None => quiz_sections st
  end.

(** The text pass of [parse_pdf]: the document before the binder runs. *)
Definition parse_lines (name : str) (lines_with_pages : list (str * N)) : QuizData :=
  {| source_file := name; sections := finish (scan 0 initial lines_with_pages) |}.

End parser.

(** ** The image binder: [assign_images_to_questions] *)

(** An image record; the binder reads its file name only. *)
Record Image := {
  filename : str;
  img_page : N;
}.

(** Known false positives. *)
Definition EXCLUDE_IMAGE : gset (N * N) := {[ (17, 8) ]}.

Definition IMAGE_KEYWORDS : list str :=
  [ lit "obr" ++ [225] ++ lit "zku"; lit "obr" ++ [225] ++ lit "zek";
    lit "obr" ++ [225] ++ lit "zk" ++ [367];
    lit "na obr" ++ [225] ++ lit "zku"; lit "na map" ++ [283];
    lit "bankovce";
    lit "tato socha"; lit "t" ++ [233] ++ lit "to sochy";
    lit "tato panovnice";
    lit "tato budova"; lit "t" ++ [233] ++ lit "to budovy"; lit "tato stavba";
    lit "tato hora" ].

Definition set_option_image (opt : Option) (path : str) : Option :=
  {| opt_label := opt_label opt; opt_text := opt_text opt; opt_image := Some path |}.

Definition set_options (q : Question) (opts : list Option) : Question :=
  {| q_id := q_id q; q_text := q_text q; q_options := opts;
     q_correct := q_correct q; q_image := q_image q; q_date := q_date q;
     q_page := q_page q |}.

Definition set_image (q : Question) (path : str) : Question :=
  {| q_id := q_id q; q_text := q_text q; q_options := q_options q;
     q_correct := q_correct q; q_image := Some path; q_date := q_date q;
     q_page := q_page q |}.

Section binder.
Context {U : Unicode}.
Variable images_by_page : gmap N (list Image).
Variable images_dir : str.

(** [any(kw in question.text.lower() for kw in IMAGE_KEYWORDS)] *)
Definition mentions_image (q : Question) : bool :=
  existsb (λ kw, contains kw (lower (q_text q))) IMAGE_KEYWORDS.

(** The candidate images of a question: those of its page, or of the
    next page when its page has none and its text mentions an image. *)
Definition page_images (q : Question) : list Image :=
  let own := default [] (images_by_page !! q_page q) in
  if negb (nonempty own) && mentions_image q
  then default [] (images_by_page !! (q_page q + 1))
  else own.

(** [f"{images_dir}/{img['filename']}"] *)
Definition image_path (img : Image) : str := images_dir ++ lit "/" ++ filename img.

(** [for idx, opt in enumerate(question.options):
       if idx < len(page_images): opt.image = ...page_images[idx]...] *)
Definition assign_options (opts : list Option) (imgs : list Image) : list Option :=
  imap (λ idx opt,
          match imgs !! idx with
          | Some img => set_option_image opt (image_path img)
          | None => opt
          end) opts.

(** The body of the inner loop, for a question of the section [section_id]. *)
Definition assign_question (section_id : N) (q : Question) : Question :=
  if bool_decide ((section_id, q_id q) ∈ EXCLUDE_IMAGE) then q
  else
    let imgs := page_images q in
    if negb (nonempty imgs) then q
    else
      let short_options :=
        forallb (λ opt, bool_decide (length (opt_text opt) < 50)%nat) (q_options q) in
      let has_four_options := bool_decide (length (q_options q) = 4%nat) in
      let has_four_plus_images := bool_decide (4 ≤ length imgs)%nat in
      if short_options && has_four_options && has_four_plus_images && mentions_image q
      then set_options q (assign_options (q_options q) imgs)
      else if bool_decide (1 ≤ length imgs)%nat && mentions_image q then
        match imgs with
        | img :: _ => set_image q (image_path img)
        | [] => q
        end
      else q.

Definition assign_section (sec : Section) : Section :=
  {| sec_id := sec_id sec; sec_name := sec_name sec;
     sec_questions := assign_question (sec_id sec) <$> sec_questions sec |}.

Definition assign_images_to_questions (quiz : QuizData) : QuizData :=
  {| source_file := source_file quiz;
     sections := assign_section <$> sections quiz |}.

(** [parse_pdf] from the text lines and the curated images on. *)
Definition parse_pdf (name : str) (lines_with_pages : list (str * N)) : QuizData :=
  assign_images_to_questions (parse_lines name lines_with_pages).

End binder.

(** ** The serializer: [convert_to_dict] *)

(** JSON values, as [json.dump] writes and [json.load] reads them; an
    object keeps its entries in order.  Numbers other than integers do
    not occur in a document of the serializer and are left out. *)
#[local] Set Warnings "-register-all".
Inductive json :=
  | JNull
  | JBool (b : bool)
  | JInt (n : Z)
  | JStr (s : str)
  | JList (l : list json)
  | JObj (entries : list (str * json)).

(** [**({key: v} if v else {})] for an optional string *)
Definition optional_entry (key : str) (v : option str) : list (str * json) :=
  match v with
  | Some s => if nonempty s then [(key, JStr s)] else []
  | None => []
  end.

Definition option_to_dict (opt : Option) : json :=
  JObj ([ (lit "label", JStr (opt_label opt));
          (lit "text", JStr (opt_text opt)) ]
        ++ optional_entry (lit "image") (opt_image opt)).

Definition question_to_dict (q : Question) : json :=
  JObj ([ (lit "id", JInt (Z.of_N (q_id q)));
          (lit "text", JStr (q_text q));
          (lit "options", JList (option_to_dict <$> q_options q));
          (lit "correct", JStr (q_correct q)) ]
        ++ optional_entry (lit "image") (q_image q)
        ++ optional_entry (lit "date") (q_date q)).

Definition section_to_dict (sec : Section) : json :=
  JObj [ (lit "id", JInt (Z.of_N (sec_id sec)));
         (lit "name", JStr (sec_name sec));
         (lit "questions", JList (question_to_dict <$> sec_questions sec)) ].

Definition convert_to_dict (quiz : QuizData) : json :=
  JObj [ (lit "source_file", JStr (source_file quiz));
         (lit "sections", JList (section_to_dict <$> sections quiz)) ].

(** Reading a JSON value: the entry of a key, the keys, an element. *)
Fixpoint assoc (key : str) (entries : list (str * json)) : option json :=
  match entries with
  | (k, v) :: rest => if bool_decide (k = key) then Some v else assoc key rest
  | [] => None
  end.

Definition entry (key : str) (j : json) : option json :=
  match j with JObj entries => assoc key entries | _ => None end.

Definition keys (j : json) : list str :=
  match j with JObj entries => fst <$> entries | _ => [] end.

Definition item (i : nat) (j : json) : option json :=
  match j with JList l => l !! i | _ => None end.

(** ** The validator: [validate_images.py]

    An operation of Python that raises (a method or a key that the value
    does not have) gives [None]; [main] then ends with the exit code [1]
    of an exception that nothing catches. *)

(** [bool(v)] *)
Definition truthy (v : json) : bool :=
  match v with
  | JNull => false
  | JBool b => b
  | JInt n => negb (n =? 0)%Z
  | JStr s => nonempty s
  | JList l => nonempty l
  | JObj entries => nonempty entries
  end.

(** [d.get(key, dflt)]; [d.get(key)] has the default [None], here [JNull]. *)
Definition dict_get (d : json) (key : str) (dflt : json) : option json :=
  match d with
  | JObj entries => Some (default dflt (assoc key entries))
  | _ => None
  end.

(** [d[key]] *)
Definition subscript (d : json) (key : str) : option json :=
  match d with
  | JObj entries => assoc key entries
  | _ => None
  end.

(** [for x in v]: the elements of a list, the characters of a string, the
    keys of a dictionary. *)
Definition iterate (v : json) : option (list json) :=
  match v with
  | JList l => Some l
  | JStr s => Some ((λ c, JStr [c]) <$> s)
  | JObj entries => Some ((λ kv, JStr kv.1) <$> entries)
  | _ => None
  end.

(** [s.split("/")] and [s.split("/")[-1]] *)
Fixpoint split_slash (s : str) : list str :=
  match s with
  | [] => [[]]
  | c :: s' =>
      if c =? 47 then [] :: split_slash s'
      else
        match split_slash s' with
        | seg :: segs => (c :: seg) :: segs
        | [] => [[c]]
        end
  end.

Definition last_segment (v : json) : option str :=
  match v with
  | JStr s => last (split_slash s)
  | _ => None
  end.

(** [if d.get("image"): images.add(d["image"].split("/")[-1])]: what the
    statement adds. *)
Definition referenced_image (d : json) : option (gset str) :=
  v ← dict_get d (lit "image") JNull;
  if truthy v then
    v' ← subscript d (lit "image");
    name ← last_segment v';
    Some {[ name ]}
  else Some ∅.

Definition referenced_of_question (q : json) : option (gset str) :=
  own ← referenced_image q;
  opts ← dict_get q (lit "options") (JList []) ≫= iterate;
  of_opts ← mapM referenced_image opts;
  Some (own ∪ ⋃ of_opts).

Definition referenced_of_section (section : json) : option (gset str) :=
  qs ← dict_get section (lit "questions") (JList []) ≫= iterate;
  of_qs ← mapM referenced_of_question qs;
  Some (⋃ of_qs).

(** [get_referenced_images] *)
Definition get_referenced_images (data : json) : option (gset str) :=
  secs ← dict_get data (lit "sections") (JList []) ≫= iterate;
  of_secs ← mapM referenced_of_section secs;
  Some (⋃ of_secs).

(** An entry of the list [get_questions_with_images] returns. *)
Record summary := {
  sum_section : json;
  sum_question : json;
  sum_text : str;
  sum_q_image : option str;
  sum_opt_images : list json;
}.

(** [[opt["label"] for opt in ... if opt.get("image")]] *)
Fixpoint labels_with_image (opts : list json) : option (list json) :=
  match opts with
  | [] => Some []
  | opt :: rest =>
      v ← dict_get opt (lit "image") JNull;
      if truthy v then
        l ← subscript opt (lit "label");
        ls ← labels_with_image rest;
        Some (l :: ls)
      else labels_with_image rest
  end.

(** [q["text"][:50] + "..."] *)
Definition text_head (v : json) : option str :=
  match v with
  | JStr s => Some (take 50 s ++ lit "...")
  | _ => None
  end.

Definition summary_of_question (section q : json) : option (list summary) :=
  v ← dict_get q (lit "image") JNull;
  opts ← dict_get q (lit "options") (JList []) ≫= iterate;
  opt_imgs ← labels_with_image opts;
  if truthy v || nonempty opt_imgs then
    sid ← subscript section (lit "id");
    qid ← subscript q (lit "id");
    text ← subscript q (lit "text") ≫= text_head;
    q_img ← (if truthy v then Some <$> last_segment v else Some None);
    Some [ {| sum_section := sid; sum_question := qid; sum_text := text;
              sum_q_image := q_img; sum_opt_images := opt_imgs |} ]
  else Some [].

Definition summaries_of_section (section : json) : option (list summary) :=
  qs ← dict_get section (lit "questions") (JList []) ≫= iterate;
  ss ← mapM (summary_of_question section) qs;
  Some (concat ss).

(** [get_questions_with_images] *)
Definition get_questions_with_images (data : json) : option (list summary) :=
  secs ← dict_get data (lit "sections") (JList []) ≫= iterate;
  ss ← mapM summaries_of_section secs;
  Some (concat ss).

(** The listing of a summary in [main] joins the option labels when there
    is no question image; [",".join] wants strings. *)
Definition is_string (v : json) : bool :=
  match v with JStr _ => true | _ => false end.

Definition printable (s : summary) : bool :=
  match sum_q_image s with
  | Some name => nonempty name || forallb is_string (sum_opt_images s)
  | None => forallb is_string (sum_opt_images s)
  end.

Inductive status :=
  | ABORTED                (* no status line: an error exit or an exception *)
  | FAILED
  | WARNING (orphans : nat)
  | OK.

Record outcome_of_main := {
  exit_code : Z;
  final_status : status;
}.

(** [orphaned] and [missing] *)
Definition orphaned (dir_images json_images : gset str) : gset str :=
  dir_images ∖ json_images.
Definition missing (dir_images json_images : gset str) : gset str :=
  json_images ∖ dir_images.

(** [main], given the loaded JSON file and the names of the files of the
    images directory; [None] stands for a file or a directory that is not
    found or not readable. *)
Definition main (json_file : option json) (images_dir : option (gset str))
    : outcome_of_main :=
  match images_dir, json_file with
  | Some dir_images, Some data =>
      match get_referenced_images data with
      | Some json_images =>
          match get_questions_with_images data with
          | Some questions =>
              if forallb printable questions then
                if bool_decide (missing dir_images json_images ≠ ∅)
                then {| exit_code := 1; final_status := FAILED |}
                else if bool_decide (5 < size (orphaned dir_images json_images))%nat
                then {| exit_code := 0;
                        final_status := WARNING (size (orphaned dir_images json_images)) |}
                else {| exit_code := 0; final_status := OK |}
              else {| exit_code := 1; final_status := ABORTED |}
          | None => {| exit_code := 1; final_status := ABORTED |}
          end
      | None => {| exit_code := 1; final_status := ABORTED |}
      end
  | _, _ => {| exit_code := 1; final_status := ABORTED |}
  end.

(** ** The pages of the document: [extract_images_from_page],
       [cleanup_tiny_images] and the rest of [parse_pdf]

    What the PDF library reads from the file is given: for every page its
    text and, for every image embedded in it, the format extension and
    the number of bytes of the image, or the fact that its extraction
    raises.  The images directory is a map from the names of its files to
    their sizes in bytes.  A file is written whole or not at all. *)

(** [str(n)] *)
Definition decimal_str (n : N) : str := lit (NilEmpty.string_of_uint (N.to_uint n)).

(** [f"{n:02d}"]: zeros in front up to two characters. *)
Definition format_02d (n : N) : str :=
  let s := decimal_str n in replicate (2 - length s) 48 ++ s.

(** [f"page{page_num:02d}_img{img_idx:02d}.{image_ext}"] *)
Definition image_filename (page_num img_idx : N) (image_ext : str) : str :=
  lit "page" ++ format_02d page_num ++ lit "_img" ++ format_02d img_idx
  ++ lit "." ++ image_ext.

Inductive embedded :=
  | Decoded (image_ext : str) (size : N)
  | Undecodable.

Record Page := {
  page_text : str;
  page_image_list : list embedded;
}.

(** The loop of [extract_images_from_page], from the image [img_idx] on. *)
Fixpoint extract_images (page_num img_idx : N) (image_list : list embedded)
    (output_dir : gmap str N) : list Image * gmap str N :=
  match image_list with
  | [] => ([], output_dir)
  | Decoded image_ext size :: rest =>
      let name := image_filename page_num img_idx image_ext in
      let '(images, dir) :=
        extract_images page_num (img_idx + 1) rest (<[name := size]> output_dir) in
      ({| filename := name; img_page := page_num |} :: images, dir)
  | Undecodable :: rest => extract_images page_num (img_idx + 1) rest output_dir
  end.

(** [extract_images_from_page]: the images are counted from 1. *)
Definition extract_images_from_page (page : Page) (output_dir : gmap str N)
    (page_num : N) : list Image * gmap str N :=
  extract_images page_num 1 (page_image_list page) output_dir.

(** [cleanup_tiny_images]: the directory after the loop and the count. *)
Definition cleanup_tiny_images (images_dir : gmap str N) (min_size : N)
    : gmap str N * nat :=
  map_fold (λ name size '(dir, deleted),
              if size <? min_size then (delete name dir, S deleted) else (dir, deleted))
           (images_dir, 0%nat) images_dir.

(** The first pass of [parse_pdf], from the page [page_num] on:
    [all_images] and the directory. *)
Fixpoint extract_pages (page_num : N) (doc : list Page) (images_dir : gmap str N)
    : list Image * gmap str N :=
  match doc with
  | [] => ([], images_dir)
  | page :: rest =>
      let '(page_images, dir1) := extract_images_from_page page images_dir page_num in
      let '(more, dir2) := extract_pages (page_num + 1) rest dir1 in
      (page_images ++ more, dir2)
  end.

(** [s.split('\n')] *)
Fixpoint split_newline (s : str) : list str :=
  match s with
  | [] => [[]]
  | c :: s' =>
      if c =? NEWLINE then [] :: split_newline s'
      else
        match split_newline s' with
        | line :: lines => (c :: line) :: lines
        | [] => [[c]]
        end
  end.

(** [lines_with_pages], from the page [page_num] on. *)
Fixpoint lines_of_pages (page_num : N) (doc : list Page) : list (str * N) :=
  match doc with
  | [] => []
  | page :: rest =>
      ((λ line, (line, page_num)) <$> split_newline (page_text page))
      ++ lines_of_pages (page_num + 1) rest
  end.

(** The loop that groups [all_images] by page. *)
Definition group_by_page (all_images : list Image) : gmap N (list Image) :=
  foldl (λ images_by_page img,
           <[img_page img := default [] (images_by_page !! img_page img) ++ [img]]>
             images_by_page)
        ∅ all_images.

Section whole_parse.
Context {U : Unicode}.

(** The order [list.sort] gives the images of a page.  Its key is made of
    the coordinates of the image, floating point numbers that are not
    part of [Image]. *)
Variable sort_page : list Image → list Image.

(** [parse_pdf] from the pages on: the document and the images directory.
    [name] is the name of the PDF file and [images_dir_name] that of the
    images directory. *)
Definition parse_pdf_pages (name images_dir_name : str) (doc : list Page)
    (images_dir : gmap str N) : QuizData * gmap str N :=
  let '(all_images, dir1) := extract_pages 1 doc images_dir in
  let '(dir2, deleted) := cleanup_tiny_images dir1 200 in
  let all_images :=
    if bool_decide (deleted ≠ 0%nat)
    then filter (λ img, is_Some (dir2 !! filename img)) all_images
    else all_images in
  let lines_with_pages := lines_of_pages 1 doc in
  let images_by_page := sort_page <$> group_by_page all_images in
  (parse_pdf images_by_page images_dir_name name lines_with_pages, dir2).

(** [process_pdf]: the JSON value that is written, and the images
    directory. *)
Definition process_pdf (name images_dir_name : str) (doc : list Page)
    (images_dir : gmap str N) : json * gmap str N :=
  let '(quiz_data, dir) := parse_pdf_pages name images_dir_name doc images_dir in
  (convert_to_dict quiz_data, dir).

End whole_parse.

(** ** The download: [download_pdf] and [main] of download_pdf.py

    What the HTTP library does is given.  Either the request raises an
    [httpx.HTTPError] before a byte of the body is read (no connection,
    or a status that [raise_for_status] refuses), or the body arrives in
    chunks, after which the stream ends or raises an [httpx.HTTPError].
    The header [content-length], when present, is a number.  A file is a
    list of bytes; the output path holds a file or nothing. *)

Module download.

Inductive stream_end := Exhausted | Broken.

Inductive response :=
  | Refused
  | Body (content_length : option N) (chunks : list (list N)) (ending : stream_end).

(** The loop over the chunks: the file, [downloaded] and the percentages
    printed, in the order of the prints. *)
Fixpoint write_chunks (total downloaded : N) (file : list N) (chunks : list (list N))
    : list N * N * list N :=
  match chunks with
  | [] => (file, downloaded, [])
  | chunk :: rest =>
      let file := file ++ chunk in
      let downloaded := downloaded + N.of_nat (length chunk) in
      let '(file', downloaded', printed) := write_chunks total downloaded file rest in
      (file', downloaded',
       if negb (total =? 0) then N.div (downloaded * 100) total :: printed else printed)
  end.

Record downloaded_state := {
  output_file : option (list N);
  success : bool;
  progress : list N;
}.

(** [download_pdf], given the answer to the request and what the output
    path holds. *)
Definition download_pdf (answer : response) (output_path : option (list N))
    : downloaded_state :=
  match answer with
  | Refused => {| output_file := output_path; success := false; progress := [] |}
  | Body content_length chunks ending =>
      let total := default 0 content_length in
      let '(file, _, printed) := write_chunks total 0 [] chunks in
      {| output_file := Some file;
         success := match ending with Exhausted => true | Broken => false end;
         progress := printed |}
  end.

(** [main]: what the output path holds afterwards, and the exit code. *)
Definition main (output_path : option (list N)) (answer : response)
    : option (list N) * Z :=
  match output_path with
  | Some _ => (output_path, 0%Z)
  | None =>
      let result := download_pdf answer output_path in
      (output_file result, if success result then 0%Z else 1%Z)
  end.

End download.

(** * Vocabulary of the properties *)

(** Every question of a section satisfies [P]; every question of a
    document does. *)
Definition questions_satisfy (P : Question → Prop) (sec : Section) : Prop :=
  Forall P (sec_questions sec).

Definition all_questions (P : Question → Prop) (quiz : QuizData) : Prop :=
  Forall (questions_satisfy P) (sections quiz).

(** The shape of an invariant of the line scan: [committed] holds of the
    questions in a section's list, [opened] of the current question,
    [pending] of the pending answers. *)
Record scan_invariant (committed opened : Question → Prop)
    (pending : gmap N str → Prop) (st : state) : Prop := {
  inv_saved : Forall (questions_satisfy committed) (quiz_sections st);
  inv_section : ∀ sec, current_section st = Some sec → questions_satisfy committed sec;
  inv_question : ∀ q, current_question st = Some q → opened q;
  inv_answers : pending (current_answers st);
}.

(** What [clean_text] establishes. *)
Definition no_leading_space (s : str) : Prop :=
  match s with c :: _ => isspace c = false | [] => True end.

Definition no_trailing_space (s : str) : Prop := no_leading_space (reverse s).

Fixpoint no_double_space (s : str) : Prop :=
  match s with
  | c :: s' =>
      match s' with
      | c' :: _ => ¬ (isspace c = true ∧ isspace c' = true)
      | [] => True
      end ∧ no_double_space s'
  | [] => True
  end.

Definition normalized (s : str) : Prop :=
  no_leading_space s ∧ no_trailing_space s ∧ no_double_space s.

(** Every whitespace character is a single space between two others. *)
Fixpoint single_spaced (s : str) : Prop :=
  match s with
  | c :: s' =>
      (isspace c = true →
       c = SPACE ∧ match s' with c' :: _ => isspace c' = false | [] => True end)
      ∧ single_spaced s'
  | [] => True
  end.

(** The properties of a question the claims speak of. *)
Definition has_options (q : Question) : Prop := q_options q ≠ [].

Definition text_normalized (q : Question) : Prop :=
  normalized (q_text q) ∧ Forall (λ opt, normalized (opt_text opt)) (q_options q).

Definition correct_is_a_label (q : Question) : Prop :=
  q_correct q = [] ∨ q_correct q ∈ (opt_label <$> q_options q).

Definition LETTERS : list str := [lit "A"; lit "B"; lit "C"; lit "D"].

Definition correct_is_a_letter (q : Question) : Prop :=
  q_correct q = [] ∨ q_correct q ∈ LETTERS.

(** The letters of a pending answer map are among A to D. *)
Definition letters_only (answers : gmap N str) : Prop :=
  ∀ id letter, answers !! id = Some letter → letter ∈ LETTERS.

Definition no_images (q : Question) : Prop :=
  q_image q = None ∧ Forall (λ opt, opt_image opt = None) (q_options q).

(** The image paths a question holds: its own, then those of its options. *)
Definition assigned_of_question (q : Question) : list str :=
  option_list (q_image q) ++ omap opt_image (q_options q).





(** An optional field that holds a string other than the empty one. *)
Definition filled (v : option str) : Prop := ∃ s, v = Some s ∧ s ≠ [].

Definition is_filled (v : option str) : bool :=
  match v with Some s => nonempty s | None => false end.

(** The mapping of question [j] of section [i] in a serialized document,
    and that of option [k] of a serialized question. *)
Definition question_at (i j : nat) (doc : json) : option json :=
  secs ← entry (lit "sections") doc;
  sec ← item i secs;
  qs ← entry (lit "questions") sec;
  item j qs.

Definition option_at (k : nat) (qd : json) : option json :=
  opts ← entry (lit "options") qd; item k opts.

(** The file names a document refers to: the last segment of every image
    path that is a string other than the empty one. *)
Definition image_name (v : option str) : gset str :=
  match v with
  | Some s => if nonempty s then {[ default [] (last (split_slash s)) ]} else ∅
  | None => ∅
  end.

Definition names_of_question (q : Question) : gset str :=
  image_name (q_image q) ∪ ⋃ ((λ opt, image_name (opt_image opt)) <$> q_options q).

Definition names_of_section (sec : Section) : gset str :=
  ⋃ (names_of_question <$> sec_questions sec).

Definition names_of_quiz (quiz : QuizData) : gset str :=
  ⋃ (names_of_section <$> sections quiz).

(** * Sample inputs *)

Definition answer_key (tokens : string) : str := SPRAVNE_RESENI ++ lit tokens.

(** A question with the single option A and the answer key [1D]. *)
Definition lines_key_outside_options : list (str * N) :=
  [ (lit "1. Kdo?", 1); (lit "A) x", 1); (answer_key ": 1D", 1) ].

(** A question with one option that the end of the text leaves open. *)
Definition lines_single_open_question : list (str * N) :=
  [ (lit "1. Kdo?", 1); (lit "A) x", 1) ].

(** The state of the scan after the lines of [lines_single_open_question]. *)
Definition state_open_question : state :=
  {| quiz_sections := [];
     current_section := Some (new_section 0 POKRACOVANI);
     current_question :=
       Some (add_option (new_question 1 (lit "Kdo?") 1) (new_option (lit "A") (lit "x")));
     current_answers := ∅ |}.

(** Two questions of page 1 that both mention the picture, and the one
    image of that page. *)
Definition lines_two_pictures : list (str * N) :=
  [ (lit "1. Co je na obr" ++ [225] ++ lit "zku?", 1); (lit "A) x", 1);
    (lit "2. Kdo je na obr" ++ [225] ++ lit "zku?", 1); (lit "A) y", 1);
    (answer_key ": 1A, 2A", 1) ].

Definition images_one_on_page_1 : gmap N (list Image) :=
  {[ 1 := [ {| filename := lit "page01_img01.png"; img_page := 1 |} ] ]}.

(** Question 8 of section 17, whose text matches a keyword, on a page
    with an image. *)
Definition question_17_8 : Question :=
  {| q_id := 8; q_text := lit "Jak se jmenuje tato hora?";
     q_options := [ new_option (lit "A") (lit "x") ];
     q_correct := lit "A"; q_image := None; q_date := None; q_page := 1 |}.

(** A question of page 2 with four short options that mentions the
    picture, and the four images of that page. *)
Definition question_grid : Question :=
  {| q_id := 3; q_text := lit "Kdo je na obr" ++ [225] ++ lit "zku?";
     q_options := [ new_option (lit "A") (lit "a"); new_option (lit "B") (lit "b");
                    new_option (lit "C") (lit "c"); new_option (lit "D") (lit "d") ];
     q_correct := lit "B"; q_image := None; q_date := None; q_page := 2 |}.

Definition images_four_on_page_2 : gmap N (list Image) :=
  {[ 2 := [ {| filename := lit "page02_img01.png"; img_page := 2 |};
            {| filename := lit "page02_img02.png"; img_page := 2 |};
            {| filename := lit "page02_img03.png"; img_page := 2 |};
            {| filename := lit "page02_img04.png"; img_page := 2 |} ] ]}.

Definition quiz_grid : QuizData :=
  {| source_file := lit "a.pdf";
     sections := [ {| sec_id := 1; sec_name := lit "HISTORIE";
                      sec_questions := [ question_grid ] |} ] |}.

(** A question with an image and no date; its second option has an image. *)
Definition question_with_image : Question :=
  {| q_id := 5; q_text := lit "Co je na obr" ++ [225] ++ lit "zku?";
     q_options := [ new_option (lit "A") (lit "hrad");
                    set_option_image (new_option (lit "B") (lit "most"))
                      (lit "a_images/page03_img02.png") ];
     q_correct := lit "A"; q_image := Some (lit "a_images/page03_img01.png");
     q_date := Some []; q_page := 3 |}.

Definition quiz_with_image : QuizData :=
  {| source_file := lit "a.pdf";
     sections := [ {| sec_id := 2; sec_name := lit "PAMATKY";
                      sec_questions := [ question_with_image ] |} ] |}.

(** The files of a directory that holds the image of [quiz_with_image]'s
    second option and not that of the question. *)
Definition dir_without_question_image : gset str :=
  {[ lit "page03_img02.png"; lit "page01_img01.png" ]}.

(** A document as a file may hold it that the serializer has not written:
    the label of the option with the image is the number 5.  The image is
    in [dir_without_question_image]. *)
Definition json_number_label : json :=
  JObj [ (lit "source_file", JStr (lit "a.pdf"));
         (lit "sections",
          JList [ JObj [ (lit "id", JInt 1);
                         (lit "name", JStr (lit "HRADY"));
                         (lit "questions",
                          JList [ JObj [ (lit "id", JInt 1);
                                         (lit "text", JStr (lit "Kde?"));
                                         (lit "options",
                                          JList [ JObj [ (lit "label", JInt 5);
                                                         (lit "text", JStr (lit "hrad"));
                                                         (lit "image",
                                                          JStr (lit "a_images/page03_img02.png")) ] ]);
                                         (lit "correct", JStr (lit "A")) ] ]) ] ]) ].

(** * Vocabulary of the further properties *)

(** The characters of a string other than whitespace, in order. *)
Definition visible (s : str) : str := filter (λ c, isspace c = false) s.

(** The shape of a stronger invariant of the line scan, which also
    follows the section in progress: [titled] holds of it, [committed] of
    its questions, [opened] of the current question, [saved] of the
    sections of the document. *)
Record scan_facts (titled saved : Section → Prop) (committed opened : Question → Prop)
    (st : state) : Prop := {
  facts_saved : Forall saved (quiz_sections st);
  facts_section : ∀ sec, current_section st = Some sec →
                  titled sec ∧ Forall committed (sec_questions sec);
  facts_question : ∀ q, current_question st = Some q → opened q;
}.

(** The title of a section: the placeholder, or what the header regex
    lets through. *)
Definition section_titled {U : Unicode} (sec : Section) : Prop :=
  (sec_id sec = 0 ∧ sec_name sec = POKRACOVANI)
  ∨ ∃ u rest, sec_name sec = u :: rest
              ∧ title_first u = true
              ∧ Forall (λ c, title_rest c = true) rest
              ∧ no_trailing_space (sec_name sec).

Definition labels_are_letters (q : Question) : Prop :=
  Forall (λ opt, opt_label opt ∈ LETTERS) (q_options q).

Definition date_is_trimmed (q : Question) : Prop :=
  match q_date q with
  | Some d => d ≠ [] ∧ no_leading_space d ∧ no_trailing_space d
  | None => True
  end.

(** A document with its images taken away. *)
Definition erase_option (opt : Option) : Option :=
  {| opt_label := opt_label opt; opt_text := opt_text opt; opt_image := None |}.

Definition erase_question (q : Question) : Question :=
  {| q_id := q_id q; q_text := q_text q; q_options := erase_option <$> q_options q;
     q_correct := q_correct q; q_image := None; q_date := q_date q;
     q_page := q_page q |}.

Definition erase_section (sec : Section) : Section :=
  {| sec_id := sec_id sec; sec_name := sec_name sec;
     sec_questions := erase_question <$> sec_questions sec |}.

Definition erase_images (quiz : QuizData) : QuizData :=
  {| source_file := source_file quiz; sections := erase_section <$> sections quiz |}.

(** Where an assigned image path comes from: an image of the question's
    page, or of the next page when the question's page has none. *)
Definition from_own_or_next_page (images_by_page : gmap N (list Image))
    (images_dir : str) (q : Question) (path : str) : Prop :=
  ∃ page imgs img,
    images_by_page !! page = Some imgs ∧ img ∈ imgs
    ∧ path = image_path images_dir img
    ∧ (page = q_page q
       ∨ (page = q_page q + 1 ∧ default [] (images_by_page !! q_page q) = [])).

(** * Further sample inputs *)

(** A question of page 1 that mentions no image. *)
Definition question_plain : Question :=
  {| q_id := 2; q_text := lit "Kdo byl prvni prezident?";
     q_options := [ new_option (lit "A") (lit "x") ];
     q_correct := lit "A"; q_image := None; q_date := None; q_page := 1 |}.

(** The question of [question_17_8] in section 1, where it is not excluded. *)
Definition quiz_mountain : QuizData :=
  {| source_file := lit "a.pdf";
     sections := [ {| sec_id := 1; sec_name := lit "ZEMEPIS";
                      sec_questions := [ question_17_8 ] |} ] |}.

(** What the serialized document keeps of a document: all but the page of
    a question, with an empty image or date taken for a missing one. *)
Definition kept_field (v : option str) : option str :=
  if is_filled v then v else None.

Definition kept_option (opt : Option) : Option :=
  {| opt_label := opt_label opt; opt_text := opt_text opt;
     opt_image := kept_field (opt_image opt) |}.

Definition kept_question (q : Question) : Question :=
  {| q_id := q_id q; q_text := q_text q; q_options := kept_option <$> q_options q;
     q_correct := q_correct q; q_image := kept_field (q_image q);
     q_date := kept_field (q_date q); q_page := 0 |}.

Definition kept_section (sec : Section) : Section :=
  {| sec_id := sec_id sec; sec_name := sec_name sec;
     sec_questions := kept_question <$> sec_questions sec |}.

Definition kept (quiz : QuizData) : QuizData :=
  {| source_file := source_file quiz; sections := kept_section <$> sections quiz |}.

(** ["/".join(segments)] *)
Fixpoint join_slash (segments : list str) : str :=
  match segments with
  | [] => []
  | seg :: rest =>
      match rest with
      | [] => seg
      | _ :: _ => seg ++ 47 :: join_slash rest
      end
  end.

(** A JSON object without the key [sections]. *)
Definition json_without_sections : json :=
  JObj [ (lit "source_file", JStr (lit "a.pdf")) ].

(** The digits of ASCII. *)
Definition ascii_digit (c : char) : Prop := 48 ≤ c ∧ c ≤ 57.

Definition is_decoded (e : embedded) : bool :=
  match e with Decoded _ _ => true | Undecodable => false end.

(** The extension of an image that is decoded holds no slash. *)
Definition plain_extension (e : embedded) : Prop :=
  match e with Decoded image_ext _ => 47 ∉ image_ext | Undecodable => True end.

(** A document of two pages: the first with a picture and a small
    artifact, the second with a picture whose extraction fails. *)
Definition doc_two_pages : list Page :=
  [ {| page_text := lit "1. Co je na obr" ++ [225] ++ lit "zku?" ++ [NEWLINE]
                    ++ lit "A) hrad" ++ [NEWLINE] ++ lit "B) most" ++ [NEWLINE]
                    ++ answer_key ": 1A";
       page_image_list := [ Decoded (lit "png") 5000; Decoded (lit "png") 150 ] |};
    {| page_text := lit "2";
       page_image_list := [ Undecodable ] |} ].

(** The files of a directory smaller than [min_size], and the others. *)
Definition tiny_files (min_size : N) (dir : gmap str N) : gmap str N :=
  filter (λ kv, kv.2 < min_size) dir.

Definition large_files (min_size : N) (dir : gmap str N) : gmap str N :=
  filter (λ kv, min_size ≤ kv.2) dir.

(** The images of a list that carry the page [page], in their order. *)
Definition on_page (page : N) (all_images : list Image) : list Image :=
  filter (λ img, img_page img = page) all_images.

(** The pages of a document hold no slash in the extension of an image. *)
Definition plain_extensions (doc : list Page) : Prop :=
  Forall (λ page, Forall plain_extension (page_image_list page)) doc.

(** The last segment of a path. *)
Definition file_of_path (path : str) : str := default [] (last (split_slash path)).

(** An image path of a document names a file of the directory of at
    least [min_size] bytes. *)
Definition names_large_file (images_dir_name : str) (dir : gmap str N) (min_size : N)
    (path : str) : Prop :=
  ∃ name size,
    path = images_dir_name ++ lit "/" ++ name
    ∧ dir !! name = Some size ∧ min_size ≤ size.

(** ["\n".join(lines)] *)
Fixpoint join_newline (lines : list str) : str :=
  match lines with
  | [] => []
  | line :: rest =>
      match rest with
      | [] => line
      | _ :: _ => line ++ NEWLINE :: join_newline rest
      end
  end.

(** The lines of [lines_with_pages] that carry the page [page_num]. *)
Definition lines_on_page (page_num : N) (lines_with_pages : list (str * N)) : list str :=
  fst <$> filter (λ lp, lp.2 = page_num) lines_with_pages.

(** The numbers of a list never decrease along it. *)
Definition never_decreases (l : list N) : Prop :=
  ∀ i j a b, (i ≤ j)%nat → l !! i = Some a → l !! j = Some b → a ≤ b.

(** A body in three chunks that the server announces with its length. *)
Definition answer_three_chunks : download.response :=
  download.Body (Some 5) [ [37; 80]; [68; 70]; [10] ] download.Exhausted.

(** The state of the loop of [cleanup_tiny_images] after the files [seen]. *)
Definition cleanup_state (images_dir : gmap str N) (min_size : N)
    (r : gmap str N * nat) (seen : gmap str N) : Prop :=
  (∀ name, r.1 !! name
           = match seen !! name with
             | Some size => if size <? min_size then None else images_dir !! name
             | None => images_dir !! name
             end)
  ∧ r.2 = size (tiny_files min_size seen).

(** * Properties *)

(** ** Text normalization *)

Section text_lemmas.

Lemma sub_spaces_single s : single_spaced (sub_spaces s).
Proof.
  induction s as [|c s IH]; [done|].
  simpl. destruct (isspace c) eqn:Hc.
  - destruct s as [|c' s']; [simpl; by intuition|].
    destruct (isspace c') eqn:Hc'; [done|].
    simpl. split; [|exact IH].
    intros _. split; [done|].
    simpl in *. by rewrite Hc'.
  - simpl. split; [|done]. intros ?; congruence.
Qed.

Lemma single_spaced_fix s : single_spaced s → sub_spaces s = s.
Proof.
  induction s as [|c s IH]; [done|].
  intros [Hc Hs]. simpl. destruct (isspace c) eqn:E.
  - destruct (Hc eq_refl) as [-> Hnext].
    destruct s as [|c' s']; [done|].
    rewrite Hnext. f_equal. by apply IH.
  - f_equal. by apply IH.
Qed.

Lemma single_spaced_app s t : single_spaced (s ++ t) → single_spaced s ∧ single_spaced t.
Proof.
  induction s as [|c s IH]; simpl; [done|].
  intros [Hc Hs]. destruct (IH Hs) as [H1 H2]. split; [|done].
  split; [|done]. intros E. destruct (Hc E) as [-> Hn]. split; [done|].
  destruct s; [done|]. exact Hn.
Qed.

Lemma lstrip_suffix s : ∃ p, s = p ++ lstrip s ∧ Forall (λ c, isspace c = true) p.
Proof.
  induction s as [|c s (p & Hp & Hall)]; [by exists []|].
  simpl. destruct (isspace c) eqn:E.
  - exists (c :: p). split; [by rewrite <- app_comm_cons, <- Hp|]. by constructor.
  - by exists [].
Qed.

Lemma rstrip_prefix s : ∃ p, s = rstrip s ++ p ∧ Forall (λ c, isspace c = true) p.
Proof.
  unfold rstrip. destruct (lstrip_suffix (reverse s)) as (p & Hp & Hall).
  exists (reverse p). split.
  - rewrite <- reverse_app, <- Hp. by rewrite reverse_involutive.
  - by apply Forall_reverse.
Qed.

Lemma lstrip_head s : no_leading_space (lstrip s).
Proof.
  induction s as [|c s IH]; [done|]. simpl.
  destruct (isspace c) eqn:E; [done|]. exact E.
Qed.

Lemma lstrip_id s : no_leading_space s → lstrip s = s.
Proof. destruct s as [|c s]; [done|]. simpl. by intros ->. Qed.

Lemma rstrip_tail s : no_trailing_space (rstrip s).
Proof.
  unfold no_trailing_space, rstrip. rewrite reverse_involutive. apply lstrip_head.
Qed.

Lemma rstrip_id s : no_trailing_space s → rstrip s = s.
Proof.
  unfold no_trailing_space, rstrip. intros H.
  rewrite lstrip_id by done. apply reverse_involutive.
Qed.

(** [rstrip] keeps the first character of a string that starts with a
    character other than whitespace. *)
Lemma rstrip_keeps_head s : no_leading_space s → no_leading_space (rstrip s).
Proof.
  destruct s as [|c s]; [done|]. simpl. intros Hc.
  destruct (rstrip_prefix (c :: s)) as (p & Hp & Hall).
  destruct (rstrip (c :: s)) as [|d r] eqn:E; [done|].
  simpl in Hp. by injection Hp as <- _.
Qed.

Lemma strip_normal_ends s : no_leading_space (strip s) ∧ no_trailing_space (strip s).
Proof.
  unfold strip. split; [|apply rstrip_tail].
  apply rstrip_keeps_head, lstrip_head.
Qed.

Lemma strip_id s : no_leading_space s → no_trailing_space s → strip s = s.
Proof. intros H1 H2. unfold strip. rewrite lstrip_id by done. by apply rstrip_id. Qed.

Lemma strip_single_spaced s : single_spaced s → single_spaced (strip s).
Proof.
  intros H. unfold strip.
  destruct (lstrip_suffix s) as (p & Hp & _).
  destruct (rstrip_prefix (lstrip s)) as (q & Hq & _).
  rewrite Hp in H. apply single_spaced_app in H as [_ H].
  rewrite Hq in H. by apply single_spaced_app in H as [H _].
Qed.

Lemma single_spaced_no_double s : single_spaced s → no_double_space s.
Proof.
  induction s as [|c s IH]; [done|].
  intros [Hc Hs]. split; [|by apply IH].
  destruct s as [|c' s']; [done|].
  intros [E1 E2]. destruct (Hc E1) as [_ Hn]. congruence.
Qed.

Lemma clean_text_single_spaced s : single_spaced (clean_text s).
Proof. apply strip_single_spaced, sub_spaces_single. Qed.

Lemma clean_text_normalized s : normalized (clean_text s).
Proof.
  destruct (strip_normal_ends (sub_spaces s)) as [H1 H2].
  repeat split; [exact H1|exact H2|].
  apply single_spaced_no_double, clean_text_single_spaced.
Qed.

Lemma clean_text_idempotent s : clean_text (clean_text s) = clean_text s.
Proof.
  unfold clean_text at 1.
  rewrite single_spaced_fix by apply clean_text_single_spaced.
  destruct (strip_normal_ends (sub_spaces s)) as [H1 H2].
  by apply strip_id.
Qed.

End text_lemmas.

(** ** Invariants of the line scan

    A property of the questions of a document is proved once for all
    paths of the loop: [committed] is to hold of the questions in a
    section's list, [opened] of the current question, [pending] of the
    pending answers. *)

Section scan_invariant.
Context {U : Unicode}.
Variable committed : Question → Prop.
Variable opened : Question → Prop.
Variable pending : gmap N str → Prop.

Hypothesis opened_new : ∀ id text page, opened (new_question id (clean_text text) page).
Hypothesis opened_option : ∀ q label text,
  opened q → opened (add_option q (new_option label (clean_text text))).
Hypothesis opened_date : ∀ q d, opened q → opened (set_date q d).
Hypothesis committed_opened : ∀ q,
  opened q → nonempty (q_options q) = true → committed q.
Hypothesis pending_empty : pending ∅.
Hypothesis pending_parsed : ∀ line, pending (parse_answers_line line).
Hypothesis committed_answer : ∀ answers q,
  pending answers → committed q → committed (apply_answer answers q).

Local Abbreviation section_ok := (questions_satisfy committed).
Local Abbreviation inv := (scan_invariant committed opened pending).

Lemma inv_initial : inv initial.
Proof. split; simpl; [constructor|done|done|exact pending_empty]. Qed.

Lemma add_question_ok sec q :
  section_ok sec → opened q → nonempty (q_options q) = true →
  section_ok (add_question sec q).
Proof.
  intros Hsec Hq Hne. unfold section_ok. simpl.
  apply Forall_app. split; [done|]. constructor; [|constructor].
  by apply committed_opened.
Qed.

Lemma apply_answers_ok answers sec :
  pending answers → section_ok sec → section_ok (apply_answers answers sec).
Proof.
  intros Ha Hsec. unfold section_ok. simpl.
  apply Forall_fmap. eapply Forall_impl; [exact Hsec|].
  intros q Hq. by apply committed_answer.
Qed.

Lemma commit_question_ok st sec b :
  inv st → commit_question st = (Some sec, b) → section_ok sec.
Proof.
  intros [_ Hsec Hq _]. unfold commit_question.
  destruct (current_section st) as [sec0|]; [|done].
  destruct (current_question st) as [q|].
  - destruct (nonempty (q_options q)) eqn:E; intros [= <- <-].
    + apply add_question_ok; auto.
    + auto.
  - intros [= <- <-]. auto.
Qed.

Lemma on_section_header_inv st line :
  inv st →
  match on_section_header st line with Continue st' _ | Fall st' => inv st' end.
Proof.
  intros Hinv. unfold on_section_header.
  destruct (match_section line) as [[num section_text]|]; [|done].
  destruct (forallb _ section_text); [|done].
  destruct (commit_question st) as [cs b] eqn:E.
  split; simpl; [|by intros sec [= <-]; constructor|done|exact pending_empty].
  destruct cs as [sec|]; [|apply Hinv].
  destruct (nonempty (sec_questions sec)); [|apply Hinv].
  apply Forall_app. split; [apply Hinv|].
  constructor; [|constructor].
  apply apply_answers_ok; [apply Hinv|]. by eapply commit_question_ok.
Qed.

Lemma on_answers_inv st line :
  inv st →
  match on_answers st line with Continue st' _ | Fall st' => inv st' end.
Proof.
  intros Hinv. unfold on_answers.
  destruct (_ || _); [|done].
  destruct (commit_question st) as [cs b] eqn:E.
  split; simpl; [apply Hinv| | |apply pending_parsed].
  - intros sec ->. by eapply commit_question_ok.
  - destruct b; [done|]. apply Hinv.
Qed.

Lemma on_question_inv st line page_num rest :
  inv st →
  match on_question st line page_num rest with
  | Continue st' _ | Fall st' => inv st'
  end.
Proof.
  intros Hinv. unfold on_question.
  destruct (match_question line) as [[num text]|]; [|done].
  assert (Hdef : section_ok (default (new_section 0 POKRACOVANI) (current_section st))).
  { destruct (current_section st) as [sec|] eqn:E; simpl; [by apply Hinv|constructor]. }
  destruct (_ && _).
  - destruct (collect_question text rest) as [q_text n].
    split; simpl; [apply Hinv| |by intros q [= <-]|apply Hinv].
    intros sec [= <-].
    destruct (current_question st) as [q|] eqn:Eq; [|done].
    destruct (nonempty (q_options q)) eqn:Ene; [|done].
    apply add_question_ok; [done| |done]. by apply Hinv.
  - split; simpl; [apply Hinv|by intros sec [= <-]|apply Hinv|apply Hinv].
Qed.

Lemma on_option_inv st line rest :
  inv st →
  match on_option st line rest with Continue st' _ | Fall st' => inv st' end.
Proof.
  intros Hinv. unfold on_option.
  destruct (match_option line) as [[label text]|]; [|done].
  destruct (current_question st) as [q|] eqn:Eq; [|done].
  destruct (collect_option text rest) as [opt_text n].
  split; simpl; [apply Hinv|apply Hinv| |apply Hinv].
  intros q' [= <-]. apply opened_option. by apply Hinv.
Qed.

Lemma on_date_inv st line :
  inv st →
  match on_date st line with Continue st' _ | Fall st' => inv st' end.
Proof.
  intros Hinv. unfold on_date.
  destruct (match_date line) as [d|]; [|done].
  destruct (current_question st) as [q|] eqn:Eq; [|done].
  split; simpl; [apply Hinv|apply Hinv| |apply Hinv].
  intros q' [= <-]. apply opened_date. by apply Hinv.
Qed.

Lemma step_inv st raw page_num rest :
  inv st → inv (step st raw page_num rest).1.
Proof.
  intros Hinv. unfold step.
  destruct (_ || _); [done|].
  destruct (_ || _); [done|].
  pose proof (on_section_header_inv st (strip raw) Hinv) as H1.
  destruct (on_section_header st (strip raw)) as [|st1]; [done|].
  pose proof (on_answers_inv st1 (strip raw) H1) as H2.
  destruct (on_answers st1 (strip raw)) as [|st2]; [done|].
  pose proof (on_question_inv st2 (strip raw) page_num rest H2) as H3.
  destruct (on_question st2 (strip raw) page_num rest) as [|st3]; [done|].
  pose proof (on_option_inv st3 (strip raw) rest H3) as H4.
  destruct (on_option st3 (strip raw) rest) as [|st4]; [done|].
  pose proof (on_date_inv st4 (strip raw) H4) as H5.
  by destruct (on_date st4 (strip raw)).
Qed.

Lemma scan_inv lines : ∀ skip st, inv st → inv (scan skip st lines).
Proof.
  induction lines as [|[raw page_num] rest IH]; intros skip st Hinv; [done|].
  simpl. destruct skip as [|k]; [|by apply IH].
  pose proof (step_inv st raw page_num rest Hinv) as Hstep.
  destruct (step st raw page_num rest) as [st' n]. by apply IH.
Qed.

Lemma finish_ok st : inv st → Forall section_ok (finish st).
Proof.
  intros Hinv. unfold finish.
  destruct (current_section st) as [sec|] eqn:Es; [|apply Hinv].
  destruct (nonempty (sec_questions sec)); [|apply Hinv].
  apply Forall_app. split; [apply Hinv|].
  constructor; [|constructor].
  apply apply_answers_ok; [apply Hinv|].
  destruct (current_question st) as [q|] eqn:Eq; [|by apply Hinv].
  destruct (nonempty (q_options q)) eqn:Ene; [|by apply Hinv].
  apply add_question_ok; [by apply Hinv|by apply Hinv|done].
Qed.

Lemma parse_lines_ok name lines :
  Forall section_ok (sections (parse_lines name lines)).
Proof. apply finish_ok, scan_inv, inv_initial. Qed.

End scan_invariant.

(** ** The binder changes images only *)

Section binder_frame.
Context {U : Unicode}.
Variable images_by_page : gmap N (list Image).
Variable images_dir : str.

Lemma assign_options_lookup opts imgs i :
  assign_options images_dir opts imgs !! i =
  (λ opt, match imgs !! i with
          | Some img => set_option_image opt (image_path images_dir img)
          | None => opt
          end) <$> opts !! i.
Proof. unfold assign_options. by rewrite list_lookup_imap. Qed.

Lemma assign_options_length opts imgs :
  length (assign_options images_dir opts imgs) = length opts.
Proof. unfold assign_options. by rewrite length_imap. Qed.

Lemma assign_options_texts opts imgs :
  opt_text <$> assign_options images_dir opts imgs = opt_text <$> opts.
Proof.
  apply list_eq. intros i. rewrite !list_lookup_fmap, assign_options_lookup.
  destruct (opts !! i) as [opt|]; [|done]. simpl. by destruct (imgs !! i).
Qed.

Lemma assign_options_labels opts imgs :
  opt_label <$> assign_options images_dir opts imgs = opt_label <$> opts.
Proof.
  apply list_eq. intros i. rewrite !list_lookup_fmap, assign_options_lookup.
  destruct (opts !! i) as [opt|]; [|done]. simpl. by destruct (imgs !! i).
Qed.

(** What [assign_question] does to a question is one of three things. *)
Lemma assign_question_cases section_id q :
  let q' := assign_question images_by_page images_dir section_id q in
  q' = q
  ∨ q' = set_options q (assign_options images_dir (q_options q) (page_images images_by_page q))
  ∨ ∃ img, q' = set_image q (image_path images_dir img).
Proof.
  simpl. unfold assign_question.
  destruct (bool_decide _); [by left|].
  destruct (negb _); [by left|].
  destruct (_ && _); [by right; left|].
  destruct (_ && _); [|by left].
  destruct (page_images images_by_page q) as [|img ?]; [by left|].
  right; right. by exists img.
Qed.

Lemma assign_question_id section_id q :
  q_id (assign_question images_by_page images_dir section_id q) = q_id q.
Proof.
  destruct (assign_question_cases section_id q) as [-> | [-> | [img ->]]]; done.
Qed.

Lemma assign_question_text section_id q :
  q_text (assign_question images_by_page images_dir section_id q) = q_text q.
Proof.
  destruct (assign_question_cases section_id q) as [-> | [-> | [img ->]]]; done.
Qed.

Lemma assign_question_correct section_id q :
  q_correct (assign_question images_by_page images_dir section_id q) = q_correct q.
Proof.
  destruct (assign_question_cases section_id q) as [-> | [-> | [img ->]]]; done.
Qed.

Lemma assign_question_option_texts section_id q :
  opt_text <$> q_options (assign_question images_by_page images_dir section_id q)
  = opt_text <$> q_options q.
Proof.
  destruct (assign_question_cases section_id q) as [-> | [-> | [img ->]]]; try done.
  simpl. apply assign_options_texts.
Qed.

Lemma assign_question_option_labels section_id q :
  opt_label <$> q_options (assign_question images_by_page images_dir section_id q)
  = opt_label <$> q_options q.
Proof.
  destruct (assign_question_cases section_id q) as [-> | [-> | [img ->]]]; try done.
  simpl. apply assign_options_labels.
Qed.

Lemma assign_question_options_length section_id q :
  length (q_options (assign_question images_by_page images_dir section_id q))
  = length (q_options q).
Proof.
  destruct (assign_question_cases section_id q) as [-> | [-> | [img ->]]]; try done.
  simpl. apply assign_options_length.
Qed.

(** A property the binder carries from each question to its image. *)
Lemma assign_images_all (P P' : Question → Prop) quiz :
  (∀ section_id q, P q → P' (assign_question images_by_page images_dir section_id q)) →
  all_questions P quiz →
  all_questions P' (assign_images_to_questions images_by_page images_dir quiz).
Proof.
  intros HP Hall. unfold all_questions, assign_images_to_questions. simpl.
  apply Forall_fmap. eapply Forall_impl; [exact Hall|].
  intros sec Hsec. unfold questions_satisfy, assign_section. simpl.
  apply Forall_fmap. eapply Forall_impl; [exact Hsec|].
  intros q Hq. by apply HP.
Qed.

End binder_frame.

(** ** What the parser stores *)

Section parser_facts.
Context {U : Unicode}.

Lemma parse_lines_text_normalized name lines :
  all_questions text_normalized (parse_lines name lines).
Proof.
  apply (parse_lines_ok text_normalized text_normalized (λ _, True)); try done.
  - intros id text page. split; [apply clean_text_normalized|constructor].
  - intros q label text [Hq Hopts]. split; [done|]. simpl.
    apply Forall_app. split; [done|].
    constructor; [apply clean_text_normalized|constructor].
  - intros answers q _ Hq. unfold apply_answer. by destruct (answers !! q_id q).
Qed.

Lemma parse_lines_has_options name lines :
  all_questions has_options (parse_lines name lines).
Proof.
  apply (parse_lines_ok has_options (λ _, True) (λ _, True)); try done.
  - intros q _ Hne. unfold has_options. by destruct (q_options q).
  - intros answers q _ Hq. unfold apply_answer. by destruct (answers !! q_id q).
Qed.

Lemma parse_lines_no_images name lines :
  all_questions no_images (parse_lines name lines).
Proof.
  apply (parse_lines_ok no_images no_images (λ _, True)); try done.
  - intros q label text [Hq Hopts]. split; [done|]. simpl.
    apply Forall_app. split; [done|]. by constructor.
  - intros answers q _ Hq. unfold apply_answer. by destruct (answers !! q_id q).
Qed.

End parser_facts.

(** C10: text normalization is idempotent, [clean_text (clean_text s) =
    clean_text s] for every string, and every question text and option
    text of a parsed document has no whitespace at either end and no two
    whitespace characters in a row. *)
Theorem clean_text_idempotent_and_stored :
  (∀ s, clean_text (clean_text s) = clean_text s)
  ∧ (∀ (U : Unicode) images_by_page images_dir name lines,
       all_questions text_normalized (parse_pdf images_by_page images_dir name lines)).
Proof.
  split; [exact clean_text_idempotent|].
  intros U images_by_page images_dir name lines.
  eapply assign_images_all; [|apply parse_lines_text_normalized].
  intros section_id q [Hq Hopts]. split.
  - by rewrite assign_question_text.
  - apply (Forall_fmap opt_text normalized).
    rewrite assign_question_option_texts. by apply Forall_fmap.
Qed.

(** C4: every question of every section of the produced document has a
    non-empty option list, and so has every question in a section's list
    when the line scan ends: no path of the scan appends a question before
    it has an option. *)
Theorem committed_questions_have_options :
  ∀ (U : Unicode) images_by_page images_dir name lines,
    all_questions has_options (parse_pdf images_by_page images_dir name lines)
    ∧ scan_invariant has_options (λ _, True) (λ _, True) (scan 0 initial lines).
Proof.
  intros U images_by_page images_dir name lines. split.
  - eapply assign_images_all; [|apply parse_lines_has_options].
    intros section_id q Hq. unfold has_options in *.
    intros E. apply Hq. apply length_zero_iff_nil.
    by rewrite <- (assign_question_options_length images_by_page images_dir section_id), E.
  - apply scan_inv; [done|done|done| |done|done| |by apply inv_initial].
    + intros q _ Hne. unfold has_options. by destruct (q_options q).
    + intros answers q _ Hq. unfold apply_answer. by destruct (answers !! q_id q).
Qed.

(** ** The answer key *)

Section answer_facts.
Context {U : Unicode}.

Lemma is_A_to_D_letter l : is_A_to_D l = true → [l] ∈ LETTERS.
Proof.
  unfold is_A_to_D. intros Hl.
  apply andb_true_iff in Hl as [H1%N.leb_le H2%N.leb_le].
  assert (l = 65 ∨ l = 66 ∨ l = 67 ∨ l = 68) as [-> | [-> | [-> | ->]]] by lia;
    unfold LETTERS; set_solver.
Qed.

Lemma answer_at_letter s num letter :
  answer_at s = Some (num, letter) → letter ∈ LETTERS.
Proof.
  unfold answer_at. destruct (span isdigit s) as [ds r].
  destruct ds as [|d ds]; [done|]. destruct r as [|l r]; [done|].
  destruct (is_A_to_D l) eqn:E; [|done].
  intros [= _ <-]. by apply is_A_to_D_letter.
Qed.

Lemma findall_answers_letters s :
  ∀ skip, Forall (λ t, t.2 ∈ LETTERS) (findall_answers skip s).
Proof.
  induction s as [|c s IH]; intros skip; [constructor|].
  simpl. destruct skip as [|k]; [|apply IH].
  destruct (answer_at (c :: s)) as [[num letter]|] eqn:E; [|apply IH].
  constructor; [|apply IH]. simpl. by eapply answer_at_letter.
Qed.

Lemma foldl_insert_letters (tokens : list (str * str)) :
  Forall (λ t, t.2 ∈ LETTERS) tokens →
  ∀ answers : gmap N str, letters_only answers →
  letters_only (foldl (λ answers '(num, letter), <[int num := letter]> answers)
                      answers tokens).
Proof.
  induction 1 as [|[num letter] tokens Ht _ IH]; intros answers Ha; [done|].
  simpl. apply IH. intros id l.
  destruct (decide (int num = id)) as [->|Hne].
  - rewrite lookup_insert_eq. by intros [= <-].
  - rewrite lookup_insert_ne by done. apply Ha.
Qed.

Lemma parse_answers_line_letters line : letters_only (parse_answers_line line).
Proof.
  unfold parse_answers_line. apply foldl_insert_letters.
  - apply findall_answers_letters.
  - intros id l. by rewrite lookup_empty.
Qed.



Lemma parse_lines_correct_letter name lines :
  all_questions correct_is_a_letter (parse_lines name lines).
Proof.
  apply (parse_lines_ok correct_is_a_letter correct_is_a_letter letters_only).
  - intros id text page. by left.
  - intros q label text Hq. exact Hq.
  - intros q d Hq. exact Hq.
  - done.
  - intros id l. by rewrite lookup_empty.
  - apply parse_answers_line_letters.
  - intros answers q Ha Hq. unfold apply_answer.
    destruct (answers !! q_id q) as [letter|] eqn:E; [|done].
    right. simpl. by eapply Ha.
Qed.

End answer_facts.

(** C2, as amended: in the produced document the [correct] field of every
    question is empty or one of the letters A, B, C, D, whether or not
    the question has an option with that label. *)
Theorem correct_is_empty_or_a_letter :
  ∀ (U : Unicode) images_by_page images_dir name lines,
    all_questions correct_is_a_letter (parse_pdf images_by_page images_dir name lines).
Proof.
  intros U images_by_page images_dir name lines.
  eapply assign_images_all; [|apply parse_lines_correct_letter].
  intros section_id q Hq. unfold correct_is_a_letter.
  by rewrite assign_question_correct.
Qed.

(** C2, the claim as stated fails: the question has the option A alone,
    the answer key says [1D], and the document stores D as the correct
    answer. *)
Lemma correct_outside_labels :
  sections (parse_pdf (U:=czech) ∅ (lit "a_images") (lit "a.pdf") lines_key_outside_options)
  = [ {| sec_id := 0; sec_name := POKRACOVANI;
         sec_questions :=
           [ {| q_id := 1; q_text := lit "Kdo?";
                q_options := [ new_option (lit "A") (lit "x") ];
                q_correct := lit "D"; q_image := None; q_date := None;
                q_page := 1 |} ] |} ]
  ∧ ¬ all_questions correct_is_a_label
        (parse_pdf (U:=czech) ∅ (lit "a_images") (lit "a.pdf") lines_key_outside_options).
Proof.
  assert (E : sections (parse_pdf (U:=czech) ∅ (lit "a_images") (lit "a.pdf")
                          lines_key_outside_options)
              = [ {| sec_id := 0; sec_name := POKRACOVANI;
                     sec_questions :=
                       [ {| q_id := 1; q_text := lit "Kdo?";
                            q_options := [ new_option (lit "A") (lit "x") ];
                            q_correct := lit "D"; q_image := None; q_date := None;
                            q_page := 1 |} ] |} ])
    by (vm_compute; reflexivity).
  split; [exact E|].
  unfold all_questions. rewrite E. intros Hall.
  apply Forall_cons in Hall as [Hsec _].
  apply Forall_cons in Hsec as [[Hq|Hq] _].
  - discriminate Hq.
  - simpl in Hq. apply list_elem_of_singleton in Hq. discriminate Hq.
Qed.

(** ** Answer-key lines in the scan *)

Section answer_key_lines.
Context {U : Unicode}.




End answer_key_lines.



Example two_answer_keys :
  sections (parse_lines (U:=czech) (lit "a.pdf")
              (lines_single_open_question
               ++ [(answer_key ": 1A", 1); (answer_key ": 2B", 1)]))
  = [ {| sec_id := 0; sec_name := POKRACOVANI;
         sec_questions :=
           [ add_option (new_question 1 (lit "Kdo?") 1) (new_option (lit "A") (lit "x")) ]
      |} ].
Proof. vm_compute. reflexivity. Qed.

(** The scenario of the specification: the key is read whatever stands
    before the marker. *)
Example answers_after_a_numbered_prefix :
  parse_answers_line (U:=czech) (lit "5. " ++ answer_key ": 1C, 2C, 3D")
  = {[ 1 := lit "C"; 2 := lit "C"; 3 := lit "D" ]}.
Proof. vm_compute. reflexivity. Qed.


(** ** The end of the scan *)

Section end_of_scan.
Context {U : Unicode}.

(** A trailing question is committed when the section has a question
    already. *)
Lemma finish_commits_trailing st sec q :
  current_section st = Some sec → current_question st = Some q →
  sec_questions sec ≠ [] → q_options q ≠ [] →
  finish st = quiz_sections st ++ [apply_answers (current_answers st) (add_question sec q)].
Proof.
  intros Hs Hq Hne Hopts. unfold finish. rewrite Hs, Hq.
  destruct (sec_questions sec); [done|]. by destruct (q_options q).
Qed.

(** It is not when it is the first one of the section. *)
Lemma finish_drops_only_question st sec :
  current_section st = Some sec → sec_questions sec = [] →
  finish st = quiz_sections st.
Proof. intros Hs Hnil. unfold finish. by rewrite Hs, Hnil. Qed.

End end_of_scan.

Example scan_single_open_question :
  scan (U:=czech) 0 initial lines_single_open_question = state_open_question.
Proof. vm_compute. reflexivity. Qed.

(** The same text before a section header: the header commits the open
    question and then the section. *)
Example section_header_commits_only_question :
  sections (parse_lines (U:=czech) (lit "a.pdf")
              (lines_single_open_question ++ [(lit "2. DALSI", 1)]))
  = [ {| sec_id := 0; sec_name := POKRACOVANI;
         sec_questions :=
           [ add_option (new_question 1 (lit "Kdo?") 1) (new_option (lit "A") (lit "x")) ]
      |} ].
Proof. vm_compute. reflexivity. Qed.

(** C1, on the code: the text ends in an open question with one option,
    the only question of its section; the scan leaves the section and the
    question open and the document has no section. *)
Theorem trailing_only_question_is_dropped :
  current_section (scan (U:=czech) 0 initial lines_single_open_question)
  = Some (new_section 0 POKRACOVANI)
  ∧ current_question (scan (U:=czech) 0 initial lines_single_open_question)
    = Some (add_option (new_question 1 (lit "Kdo?") 1) (new_option (lit "A") (lit "x")))
  ∧ sections (parse_lines (U:=czech) (lit "a.pdf") lines_single_open_question) = [].
Proof. vm_compute. auto. Qed.

(** ** The binder *)

Section binder_facts.
Context {U : Unicode}.
Variable images_by_page : gmap N (list Image).
Variable images_dir : str.

Lemma assign_question_excluded section_id q :
  (section_id, q_id q) ∈ EXCLUDE_IMAGE →
  assign_question images_by_page images_dir section_id q = q.
Proof. intros Hex. unfold assign_question. by rewrite bool_decide_eq_true_2. Qed.

(** The images of the options after the grid case, for options that had
    none before. *)
Lemma assign_options_images opts : ∀ imgs,
  Forall (λ opt, opt_image opt = None) opts →
  omap opt_image (assign_options images_dir opts imgs)
  = image_path images_dir <$> take (length opts) imgs.
Proof.
  unfold assign_options.
  induction opts as [|opt opts IH]; intros imgs Hnone; [done|].
  apply Forall_cons in Hnone as [Hopt Hopts].
  rewrite imap_cons. destruct imgs as [|img imgs]; csimpl.
  - rewrite Hopt.
    rewrite (imap_ext _ (λ idx opt, match @nil Image !! idx with
                                    | Some img => set_option_image opt (image_path images_dir img)
                                    | None => opt
                                    end)) by done.
    rewrite (IH [] Hopts). by rewrite take_nil.
  - f_equal.
    rewrite (imap_ext _ (λ idx opt, match imgs !! idx with
                                    | Some img => set_option_image opt (image_path images_dir img)
                                    | None => opt
                                    end)) by done.
    by apply IH.
Qed.





End binder_facts.




(** C7: the binder leaves a question whose (section id, question id) pair
    is in the exclusion set as it is, whatever its text and the images of
    its page and of the next page; in the produced document such a
    question and its options have no image. *)
Theorem excluded_question_gets_no_image :
  ∀ (U : Unicode) (images_by_page : gmap N (list Image)) (images_dir : str),
    (∀ section_id q,
       (section_id, q_id q) ∈ EXCLUDE_IMAGE →
       assign_question images_by_page images_dir section_id q = q)
    ∧ (∀ name lines,
         Forall (λ sec, Forall (λ q, (sec_id sec, q_id q) ∈ EXCLUDE_IMAGE → no_images q)
                               (sec_questions sec))
                (sections (parse_pdf images_by_page images_dir name lines))).
Proof.
  intros U images_by_page images_dir. split.
  - intros section_id q. apply assign_question_excluded.
  - intros name lines. unfold parse_pdf, assign_images_to_questions. simpl.
    apply Forall_fmap.
    eapply Forall_impl; [apply (parse_lines_no_images name lines)|].
    intros sec Hsec. simpl. apply Forall_fmap.
    eapply Forall_impl; [exact Hsec|].
    intros q Hq. simpl. rewrite assign_question_id. intros Hex.
    by rewrite assign_question_excluded.
Qed.

Lemma excluded_question_gets_no_image_witness :
  (17, q_id question_17_8) ∈ EXCLUDE_IMAGE
  ∧ mentions_image (U:=czech) question_17_8 = true
  ∧ page_images (U:=czech) images_one_on_page_1 question_17_8 ≠ []
  ∧ assign_question (U:=czech) images_one_on_page_1 (lit "a_images") 17 question_17_8
    = question_17_8.
Proof.
  split; [by apply elem_of_singleton|].
  split; [reflexivity|]. split; [by vm_compute|].
  apply (excluded_question_gets_no_image czech images_one_on_page_1 (lit "a_images")).
  by apply elem_of_singleton.
Defined.

(** C6: a question that is not excluded, has exactly 4 options with texts
    shorter than 50 characters and at least 4 candidate images, and whose
    lowercased text contains an image keyword, gets the first 4 candidate
    images on its 4 options, in the order of the candidate list: the
    image of the k-th option becomes the name of the images directory, a
    slash and the file name of the k-th candidate, its label and text
    stay; the question's own image is left as it was.  The candidates are
    the images of the question's page, or those of the next page when the
    question's page has none. *)
Theorem grid_question_gets_option_images :
  ∀ (U : Unicode) images_by_page images_dir quiz i j sec q,
    sections quiz !! i = Some sec →
    sec_questions sec !! j = Some q →
    (sec_id sec, q_id q) ∉ EXCLUDE_IMAGE →
    length (q_options q) = 4%nat →
    Forall (λ opt, (length (opt_text opt) < 50)%nat) (q_options q) →
    (4 ≤ length (page_images images_by_page q))%nat →
    mentions_image q = true →
    ∃ sec' q' o1 o2 o3 o4 i1 i2 i3 i4 more,
      sections (assign_images_to_questions images_by_page images_dir quiz) !! i = Some sec'
      ∧ sec_questions sec' !! j = Some q'
      ∧ q_options q = [o1; o2; o3; o4]
      ∧ page_images images_by_page q = i1 :: i2 :: i3 :: i4 :: more
      ∧ (default [] (images_by_page !! q_page q) = i1 :: i2 :: i3 :: i4 :: more
         ∨ (default [] (images_by_page !! q_page q) = []
            ∧ default [] (images_by_page !! (q_page q + 1))
              = i1 :: i2 :: i3 :: i4 :: more))
      ∧ q_options q'
        = [ {| opt_label := opt_label o1; opt_text := opt_text o1;
               opt_image := Some (images_dir ++ lit "/" ++ filename i1) |};
            {| opt_label := opt_label o2; opt_text := opt_text o2;
               opt_image := Some (images_dir ++ lit "/" ++ filename i2) |};
            {| opt_label := opt_label o3; opt_text := opt_text o3;
               opt_image := Some (images_dir ++ lit "/" ++ filename i3) |};
            {| opt_label := opt_label o4; opt_text := opt_text o4;
               opt_image := Some (images_dir ++ lit "/" ++ filename i4) |} ]
      ∧ q_image q' = q_image q.
Proof.
  intros U images_by_page images_dir quiz i j sec q Hsec Hq Hex Hlen Hshort Himgs Hment.
  destruct (q_options q) as [|o1 [|o2 [|o3 [|o4 [|]]]]] eqn:Eopts; try discriminate Hlen.
  destruct (page_images images_by_page q) as [|i1 [|i2 [|i3 [|i4 more]]]] eqn:Eimgs;
    simpl in Himgs; try lia.
  exists (assign_section images_by_page images_dir sec),
         (assign_question images_by_page images_dir (sec_id sec) q),
         o1, o2, o3, o4, i1, i2, i3, i4, more.
  split; [simpl; by rewrite list_lookup_fmap, Hsec|].
  split; [simpl; by rewrite list_lookup_fmap, Hq|].
  split; [done|]. split; [done|].
  split.
  { unfold page_images in Eimgs. rewrite Hment in Eimgs.
    destruct (default [] (images_by_page !! q_page q)) as [|own owns]; simpl in Eimgs.
    - by right.
    - by left. }
  unfold assign_question.
  rewrite bool_decide_eq_false_2 by done.
  rewrite Eimgs, Eopts, Hment. cbn [nonempty negb length].
  assert (Hall : forallb (λ opt, bool_decide (length (opt_text opt) < 50)%nat)
                   [o1; o2; o3; o4] = true).
  { apply forallb_forall. intros opt Hin%list_elem_of_In.
    apply bool_decide_eq_true_2.
    by apply (proj1 (Forall_forall _ _) Hshort). }
  rewrite Hall. rewrite !bool_decide_eq_true_2 by lia.
  by split.
Qed.

Lemma grid_question_gets_option_images_witness :
  ∃ sec' q' o1 o2 o3 o4 i1 i2 i3 i4 more,
    sections (assign_images_to_questions (U:=czech) images_four_on_page_2
                (lit "a_images") quiz_grid) !! 0%nat = Some sec'
    ∧ sec_questions sec' !! 0%nat = Some q'
    ∧ q_options question_grid = [o1; o2; o3; o4]
    ∧ page_images (U:=czech) images_four_on_page_2 question_grid
      = i1 :: i2 :: i3 :: i4 :: more
    ∧ (default [] (images_four_on_page_2 !! q_page question_grid)
       = i1 :: i2 :: i3 :: i4 :: more
       ∨ (default [] (images_four_on_page_2 !! q_page question_grid) = []
          ∧ default [] (images_four_on_page_2 !! (q_page question_grid + 1))
            = i1 :: i2 :: i3 :: i4 :: more))
    ∧ q_options q'
      = [ {| opt_label := opt_label o1; opt_text := opt_text o1;
             opt_image := Some (lit "a_images" ++ lit "/" ++ filename i1) |};
          {| opt_label := opt_label o2; opt_text := opt_text o2;
             opt_image := Some (lit "a_images" ++ lit "/" ++ filename i2) |};
          {| opt_label := opt_label o3; opt_text := opt_text o3;
             opt_image := Some (lit "a_images" ++ lit "/" ++ filename i3) |};
          {| opt_label := opt_label o4; opt_text := opt_text o4;
             opt_image := Some (lit "a_images" ++ lit "/" ++ filename i4) |} ]
    ∧ q_image q' = q_image question_grid.
Proof.
  apply (grid_question_gets_option_images czech images_four_on_page_2 (lit "a_images")
           quiz_grid 0 0 {| sec_id := 1; sec_name := lit "HISTORIE";
                            sec_questions := [ question_grid ] |} question_grid).
  - reflexivity.
  - reflexivity.
  - unfold EXCLUDE_IMAGE. intros Hin%elem_of_singleton. discriminate Hin.
  - reflexivity.
  - repeat constructor; vm_compute; lia.
  - vm_compute. lia.
  - reflexivity.
Defined.

(** ** The serializer *)

Section serializer_facts.

Lemma filled_is_filled v : filled v ↔ is_filled v = true.
Proof.
  unfold filled. destruct v as [[|c s]|]; simpl; split; try done.
  - by intros (s & [= <-] & Hne).
  - intros _. by exists (c :: s).
  - by intros (s & [=] & _).
Qed.

Lemma optional_entry_keys key v :
  (optional_entry key v).*1 = if is_filled v then [key] else [].
Proof. unfold optional_entry. by destruct v as [[|c s]|]. Qed.

Lemma question_to_dict_keys q :
  keys (question_to_dict q)
  = [lit "id"; lit "text"; lit "options"; lit "correct"]
    ++ (if is_filled (q_image q) then [lit "image"] else [])
    ++ (if is_filled (q_date q) then [lit "date"] else []).
Proof.
  unfold question_to_dict, keys.
  rewrite !fmap_app, !optional_entry_keys. done.
Qed.

Lemma option_to_dict_keys opt :
  keys (option_to_dict opt)
  = [lit "label"; lit "text"]
    ++ (if is_filled (opt_image opt) then [lit "image"] else []).
Proof.
  unfold option_to_dict, keys. rewrite fmap_app, optional_entry_keys. done.
Qed.

(** Membership of a key in a list of keys given in full is decided by
    evaluation. *)
Ltac decided :=
  lazymatch goal with |- ?P => apply (bool_decide_unpack P); vm_compute; exact I end.

Lemma optional_key_present (key : str) (pre post : list str) (b : bool) :
  key ∉ pre → key ∉ post →
  key ∈ pre ++ (if b then [key] else []) ++ post ↔ b = true.
Proof.
  intros Hpre Hpost. rewrite !elem_of_app. destruct b.
  - split; [done|]. intros _. right; left. by apply list_elem_of_singleton.
  - split; [|done]. intros [Hin|[Hin|Hin]]; [done| |done].
    by apply elem_of_nil in Hin.
Qed.

Lemma optional_key_among (key k : str) (b : bool) :
  key ∈ (if b then [k] else []) → key = k.
Proof.
  destruct b; [by intros ?%list_elem_of_singleton|by intros ?%elem_of_nil].
Qed.

Lemma question_keys_known q key :
  key ∈ keys (question_to_dict q) →
  key ∈ [lit "id"; lit "text"; lit "options"; lit "correct"; lit "image"; lit "date"].
Proof.
  rewrite question_to_dict_keys.
  intros [Hin|[Hin|Hin]%elem_of_app]%elem_of_app.
  - repeat (apply elem_of_cons in Hin as [->|Hin]; [decided|]).
    by apply elem_of_nil in Hin.
  - apply optional_key_among in Hin as ->. decided.
  - apply optional_key_among in Hin as ->. decided.
Qed.

Lemma option_keys_known opt key :
  key ∈ keys (option_to_dict opt) → key ∈ [lit "label"; lit "text"; lit "image"].
Proof.
  rewrite option_to_dict_keys. intros [Hin|Hin]%elem_of_app.
  - repeat (apply elem_of_cons in Hin as [->|Hin]; [decided|]).
    by apply elem_of_nil in Hin.
  - apply optional_key_among in Hin as ->. decided.
Qed.

Lemma question_image_key q :
  lit "image" ∈ keys (question_to_dict q) ↔ filled (q_image q).
Proof.
  rewrite question_to_dict_keys, filled_is_filled.
  apply optional_key_present; [decided|].
  destruct (is_filled (q_date q)); decided.
Qed.

Lemma question_date_key q :
  lit "date" ∈ keys (question_to_dict q) ↔ filled (q_date q).
Proof.
  rewrite question_to_dict_keys, filled_is_filled.
  rewrite (app_assoc _ _ (if is_filled (q_date q) then _ else _)).
  rewrite <- (app_nil_r (if is_filled (q_date q) then _ else _)).
  apply optional_key_present; [|decided].
  destruct (is_filled (q_image q)); decided.
Qed.

Lemma option_image_key opt :
  lit "image" ∈ keys (option_to_dict opt) ↔ filled (opt_image opt).
Proof.
  rewrite option_to_dict_keys, filled_is_filled.
  rewrite <- (app_nil_r (if is_filled (opt_image opt) then _ else _)).
  apply optional_key_present; decided.
Qed.

Lemma question_at_convert quiz i j sec q :
  sections quiz !! i = Some sec → sec_questions sec !! j = Some q →
  question_at i j (convert_to_dict quiz) = Some (question_to_dict q).
Proof.
  intros Hsec Hq. unfold question_at, convert_to_dict.
  change (entry (lit "sections") _) with (Some (JList (section_to_dict <$> sections quiz))).
  simpl. rewrite list_lookup_fmap, Hsec. simpl.
  change (entry (lit "questions") _)
    with (Some (JList (question_to_dict <$> sec_questions sec))).
  simpl. by rewrite list_lookup_fmap, Hq.
Qed.

Lemma option_at_question q k opt :
  q_options q !! k = Some opt →
  option_at k (question_to_dict q) = Some (option_to_dict opt).
Proof.
  intros Hopt. unfold option_at, question_to_dict.
  change (entry (lit "options") _) with (Some (JList (option_to_dict <$> q_options q))).
  simpl. by rewrite list_lookup_fmap, Hopt.
Qed.

End serializer_facts.

(** C8: the serialized document is a function of the document in memory.
    The mapping of every question has the keys [id], [text], [options]
    and [correct] with the values of the fields ([correct] may be the
    empty string), has the key [image] exactly when the image is a
    string other than the empty one, and the key [date] likewise; the
    mapping of every option has [label] and [text], and [image] exactly
    when the image is a string other than the empty one. *)
Theorem serialized_keys :
  ∀ quiz i j sec q,
    sections quiz !! i = Some sec →
    sec_questions sec !! j = Some q →
    ∃ qd,
      question_at i j (convert_to_dict quiz) = Some qd
      ∧ entry (lit "id") qd = Some (JInt (Z.of_N (q_id q)))
      ∧ entry (lit "text") qd = Some (JStr (q_text q))
      ∧ entry (lit "options") qd = Some (JList (option_to_dict <$> q_options q))
      ∧ entry (lit "correct") qd = Some (JStr (q_correct q))
      ∧ (lit "image" ∈ keys qd ↔ filled (q_image q))
      ∧ (lit "date" ∈ keys qd ↔ filled (q_date q))
      ∧ (∀ key, key ∈ keys qd →
           key ∈ [lit "id"; lit "text"; lit "options"; lit "correct"; lit "image"; lit "date"])
      ∧ ∀ k opt,
          q_options q !! k = Some opt →
          ∃ od,
            option_at k qd = Some od
            ∧ entry (lit "label") od = Some (JStr (opt_label opt))
            ∧ entry (lit "text") od = Some (JStr (opt_text opt))
            ∧ (lit "image" ∈ keys od ↔ filled (opt_image opt))
            ∧ (∀ key, key ∈ keys od → key ∈ [lit "label"; lit "text"; lit "image"]).
Proof.
  intros quiz i j sec q Hsec Hq.
  exists (question_to_dict q).
  split; [by eapply question_at_convert|].
  repeat (split; [reflexivity|]).
  split; [apply question_image_key|].
  split; [apply question_date_key|].
  split.
  - apply question_keys_known.
  - intros k opt Hopt. exists (option_to_dict opt).
    split; [by apply option_at_question|].
    repeat (split; [reflexivity|]).
    split; [apply option_image_key|].
    apply option_keys_known.
Qed.

Lemma serialized_keys_witness :
  ∃ qd,
    question_at 0 0 (convert_to_dict quiz_with_image) = Some qd
    ∧ entry (lit "id") qd = Some (JInt (Z.of_N (q_id question_with_image)))
    ∧ entry (lit "text") qd = Some (JStr (q_text question_with_image))
    ∧ entry (lit "options") qd
      = Some (JList (option_to_dict <$> q_options question_with_image))
    ∧ entry (lit "correct") qd = Some (JStr (q_correct question_with_image))
    ∧ (lit "image" ∈ keys qd ↔ filled (q_image question_with_image))
    ∧ (lit "date" ∈ keys qd ↔ filled (q_date question_with_image))
    ∧ (∀ key, key ∈ keys qd →
         key ∈ [lit "id"; lit "text"; lit "options"; lit "correct"; lit "image"; lit "date"])
    ∧ ∀ k opt,
        q_options question_with_image !! k = Some opt →
        ∃ od,
          option_at k qd = Some od
          ∧ entry (lit "label") od = Some (JStr (opt_label opt))
          ∧ entry (lit "text") od = Some (JStr (opt_text opt))
          ∧ (lit "image" ∈ keys od ↔ filled (opt_image opt))
          ∧ (∀ key, key ∈ keys od → key ∈ [lit "label"; lit "text"; lit "image"]).
Proof.
  apply (serialized_keys quiz_with_image 0 0
           {| sec_id := 2; sec_name := lit "PAMATKY";
              sec_questions := [ question_with_image ] |} question_with_image);
    reflexivity.
Defined.

Example keys_of_question_with_image :
  keys (question_to_dict question_with_image)
  = [lit "id"; lit "text"; lit "options"; lit "correct"; lit "image"].
Proof. reflexivity. Qed.

(** ** The validator on a serialized document *)

Section validator_facts.

Lemma mapM_fmap_Some {A B C} (f : B → option C) (g : A → B) (h : A → C) (l : list A) :
  (∀ x, x ∈ l → f (g x) = Some (h x)) → mapM f (g <$> l) = Some (h <$> l).
Proof.
  intros Hf. apply mapM_Some. apply Forall2_fmap.
  apply Forall_Forall2_diag. by apply Forall_forall.
Qed.

Lemma split_slash_last s : ∃ name, last (split_slash s) = Some name.
Proof.
  induction s as [|c s [name IH]]; [by exists []|].
  simpl. destruct (c =? 47).
  - exists name. destruct (split_slash s); [done|]. exact IH.
  - destruct (split_slash s) as [|seg segs]; [done|].
    destruct segs as [|seg' segs]; [by eexists|].
    exists name. exact IH.
Qed.

Lemma assoc_image_optional v :
  assoc (lit "image") (optional_entry (lit "image") v)
  = match v with
    | Some s => if nonempty s then Some (JStr s) else None
    | None => None
    end.
Proof. by destruct v as [[|c s]|]. Qed.

(** The entry [image] of a serialized question and of a serialized option. *)
Lemma question_image_entry q :
  entry (lit "image") (question_to_dict q)
  = match q_image q with
    | Some s => if nonempty s then Some (JStr s) else None
    | None => None
    end.
Proof.
  unfold question_to_dict, entry.
  change (assoc (lit "image") (?fixed ++ ?a ++ ?b))
    with (assoc (lit "image") (a ++ b)).
  destruct (q_image q) as [[|c s]|]; simpl; try done.
  all: by destruct (q_date q) as [[|d t]|].
Qed.

Lemma option_image_entry opt :
  entry (lit "image") (option_to_dict opt)
  = match opt_image opt with
    | Some s => if nonempty s then Some (JStr s) else None
    | None => None
    end.
Proof.
  unfold option_to_dict, entry.
  change (assoc (lit "image") (?fixed ++ ?a)) with (assoc (lit "image") a).
  apply assoc_image_optional.
Qed.

Lemma referenced_image_serialized entries v :
  assoc (lit "image") entries
  = match v with
    | Some s => if nonempty s then Some (JStr s) else None
    | None => None
    end →
  referenced_image (JObj entries) = Some (image_name v).
Proof.
  intros Hentry. unfold referenced_image, dict_get, subscript. rewrite Hentry.
  destruct v as [[|c s]|]; simpl; try done.
  destruct (split_slash_last (c :: s)) as [name Hname].
  simpl in Hname. by rewrite Hname.
Qed.

Lemma referenced_of_question_serialized q :
  referenced_of_question (question_to_dict q) = Some (names_of_question q).
Proof.
  unfold referenced_of_question.
  pose proof (question_image_entry q) as Himg.
  unfold question_to_dict in *. simpl in Himg.
  rewrite (referenced_image_serialized _ (q_image q)) by exact Himg.
  simpl.
  rewrite (mapM_fmap_Some referenced_image option_to_dict
             (λ opt, image_name (opt_image opt))); [done|].
  intros opt _. apply referenced_image_serialized.
  apply (option_image_entry opt).
Qed.

Lemma referenced_of_section_serialized sec :
  referenced_of_section (section_to_dict sec) = Some (names_of_section sec).
Proof.
  unfold referenced_of_section, section_to_dict. simpl.
  rewrite (mapM_fmap_Some referenced_of_question question_to_dict names_of_question);
    [done|].
  intros q _. apply referenced_of_question_serialized.
Qed.

Lemma get_referenced_images_serialized quiz :
  get_referenced_images (convert_to_dict quiz) = Some (names_of_quiz quiz).
Proof.
  unfold get_referenced_images, convert_to_dict. simpl.
  rewrite (mapM_fmap_Some referenced_of_section section_to_dict names_of_section);
    [done|].
  intros sec _. apply referenced_of_section_serialized.
Qed.

(** [get_questions_with_images] and the listing of its result do not
    raise on a serialized document. *)
Lemma mapM_Some_Forall {A B} (f : A → option B) (P : B → Prop) (l : list A) :
  (∀ x, x ∈ l → ∃ y, f x = Some y ∧ P y) →
  ∃ k, mapM f l = Some k ∧ Forall P k.
Proof.
  induction l as [|x l IH]; intros Hf; [by exists []|].
  destruct (Hf x) as (y & Hy & HP); [apply list_elem_of_here|].
  destruct IH as (k & Hk & Hall); [intros z Hz; apply Hf; by apply list_elem_of_further|].
  exists (y :: k). split; [|by constructor].
  apply mapM_Some. constructor; [done|]. by apply mapM_Some.
Qed.

Lemma labels_with_image_cons opt rest :
  labels_with_image (option_to_dict opt :: rest)
  = if is_filled (opt_image opt)
    then ls ← labels_with_image rest; Some (JStr (opt_label opt) :: ls)
    else labels_with_image rest.
Proof. unfold option_to_dict. by destruct (opt_image opt) as [[|c s]|]. Qed.

Lemma labels_with_image_serialized opts :
  ∃ ls, labels_with_image (option_to_dict <$> opts) = Some ls
        ∧ forallb is_string ls = true.
Proof.
  induction opts as [|opt opts (ls & Hls & Hstr)]; [by exists []|].
  rewrite fmap_cons, labels_with_image_cons.
  destruct (is_filled (opt_image opt)); [|by exists ls].
  rewrite Hls. exists (JStr (opt_label opt) :: ls). by split.
Qed.

Lemma summary_of_question_serialized sec q :
  ∃ l, summary_of_question (section_to_dict sec) (question_to_dict q) = Some l
       ∧ Forall (λ s, printable s = true) l.
Proof.
  destruct (labels_with_image_serialized (q_options q)) as (ls & Hls & Hstr).
  unfold summary_of_question, question_to_dict, section_to_dict.
  set (ods := option_to_dict <$> q_options q) in *.
  destruct (q_image q) as [[|c s]|]; destruct (q_date q) as [[|d t]|];
    simpl; rewrite Hls; simpl.
  all: try (destruct ls as [|l ls]; simpl; [by exists []|];
            eexists; split; [reflexivity|]; constructor; [|constructor];
            unfold printable; simpl; exact Hstr).
  all: destruct (split_slash_last (c :: s)) as [name Hname]; simpl in Hname;
    rewrite Hname; simpl; eexists; split; [reflexivity|];
    constructor; [|constructor]; unfold printable; simpl;
    rewrite Hstr; apply orb_true_r.
Qed.

Lemma summaries_of_section_serialized sec :
  ∃ l, summaries_of_section (section_to_dict sec) = Some l
       ∧ Forall (λ s, printable s = true) l.
Proof.
  unfold summaries_of_section.
  destruct (mapM_Some_Forall (summary_of_question (section_to_dict sec))
              (Forall (λ s, printable s = true))
              (question_to_dict <$> sec_questions sec)) as (ss & Hss & Hall).
  { intros qd (q & -> & _)%list_elem_of_fmap. apply summary_of_question_serialized. }
  set (f := summary_of_question (section_to_dict sec)) in *.
  set (qds := question_to_dict <$> sec_questions sec) in *.
  change (dict_get (section_to_dict sec) (lit "questions") (JList []) ≫= iterate)
    with (Some qds).
  simpl. rewrite Hss. simpl.
  exists (concat ss). split; [done|]. by apply Forall_concat.
Qed.

Lemma get_questions_with_images_serialized quiz :
  ∃ l, get_questions_with_images (convert_to_dict quiz) = Some l
       ∧ forallb printable l = true.
Proof.
  unfold get_questions_with_images.
  destruct (mapM_Some_Forall summaries_of_section
              (Forall (λ s, printable s = true))
              (section_to_dict <$> sections quiz)) as (ss & Hss & Hall).
  { intros sd (sec & -> & _)%list_elem_of_fmap. apply summaries_of_section_serialized. }
  set (sds := section_to_dict <$> sections quiz) in *.
  change (dict_get (convert_to_dict quiz) (lit "sections") (JList []) ≫= iterate)
    with (Some sds).
  simpl. rewrite Hss. simpl.
  exists (concat ss). split; [done|].
  apply forallb_forall. intros s Hin%list_elem_of_In.
  apply Forall_concat in Hall.
  by apply (proj1 (Forall_forall _ _) Hall).
Qed.

End validator_facts.

Section missing_and_orphaned.
Implicit Types dir_images json_images : gset str.

Lemma missing_nonempty dir_images json_images :
  missing dir_images json_images ≠ ∅
  ↔ ∃ name, name ∈ json_images ∧ name ∉ dir_images.
Proof.
  unfold missing. split.
  - intros [name Hin%elem_of_difference]%set_choose_L. by exists name.
  - intros (name & Hin & Hnotin) Hempty.
    assert (Hdiff : name ∈ json_images ∖ dir_images) by (by apply elem_of_difference).
    rewrite Hempty in Hdiff. by apply elem_of_empty in Hdiff.
Qed.

Lemma missing_empty dir_images json_images :
  missing dir_images json_images = ∅ ↔ json_images ⊆ dir_images.
Proof.
  split.
  - intros Hempty. apply elem_of_subseteq. intros name Hin.
    destruct (decide (name ∈ dir_images)) as [|Hnotin]; [done|].
    destruct (proj2 (missing_nonempty dir_images json_images)); [by exists name|done].
  - intros Hsub. unfold missing. by apply subseteq_empty_difference_L.
Qed.

Lemma orphaned_difference dir_images json_images :
  orphaned dir_images json_images = dir_images ∖ json_images.
Proof. done. Qed.

(** The end of [main] on a run that reaches the status block. *)
Lemma main_status data dir_images json_images questions :
  get_referenced_images data = Some json_images →
  get_questions_with_images data = Some questions →
  forallb printable questions = true →
  main (Some data) (Some dir_images)
  = if bool_decide (∃ name, name ∈ json_images ∧ name ∉ dir_images)
    then {| exit_code := 1; final_status := FAILED |}
    else if bool_decide (5 < size (dir_images ∖ json_images))%nat
         then {| exit_code := 0; final_status := WARNING (size (dir_images ∖ json_images)) |}
         else {| exit_code := 0; final_status := OK |}.
Proof.
  intros Hrefs Hqs Hprint. unfold main. rewrite Hrefs, Hqs, Hprint.
  rewrite orphaned_difference.
  destruct (decide (missing dir_images json_images = ∅)) as [Hnone|Hsome].
  - rewrite bool_decide_eq_false_2 by (by intros ?).
    rewrite (bool_decide_eq_false_2 (∃ name, _)); [done|].
    intros Hex%missing_nonempty. done.
  - rewrite bool_decide_eq_true_2 by done.
    by rewrite (bool_decide_eq_true_2 (∃ name, _)) by (by apply missing_nonempty).
Qed.

(** A referenced image that is not in the directory ends [main] with the
    exit code 1, whether or not the listing of the questions raises. *)
Lemma main_missing data dir_images json_images name :
  get_referenced_images data = Some json_images →
  name ∈ json_images → name ∉ dir_images →
  exit_code (main (Some data) (Some dir_images)) = 1%Z.
Proof.
  intros Hrefs Hin Hnotin. unfold main. rewrite Hrefs.
  destruct (get_questions_with_images data) as [questions|]; [|done].
  destruct (forallb printable questions); [|done].
  rewrite bool_decide_eq_true_2; [done|].
  apply missing_nonempty. by exists name.
Qed.

End missing_and_orphaned.

(** C9, as amended: the validator ends with an exit code other than zero
    whenever an image file name the JSON refers to is not among the
    files of the directory, but not only then: a run that an exception
    ends has the exit code 1 with no image missing.  On a run that
    reaches the status block (the JSON file is loaded, the images
    directory found and the listing of the questions with images has
    gone through), which every document the serializer has written does,
    the exit code is other than zero exactly when some referenced file
    name is not in the directory; when none is missing and more than 5
    files of the directory are not referred to, the validator reports a
    warning and ends with the exit code zero. *)
Theorem validator_exit_code :
  (∀ data dir_images json_images name,
     get_referenced_images data = Some json_images →
     name ∈ json_images → name ∉ dir_images →
     exit_code (main (Some data) (Some dir_images)) = 1%Z)
  ∧ (∀ data dir_images json_images questions,
       get_referenced_images data = Some json_images →
       get_questions_with_images data = Some questions →
       forallb printable questions = true →
       let result := main (Some data) (Some dir_images) in
       (exit_code result ≠ 0%Z ↔ ∃ name, name ∈ json_images ∧ name ∉ dir_images)
       ∧ (json_images ⊆ dir_images →
          (5 < size (dir_images ∖ json_images))%nat →
          result = {| exit_code := 0;
                      final_status := WARNING (size (dir_images ∖ json_images)) |}))
  ∧ (∀ quiz dir_images,
       let result := main (Some (convert_to_dict quiz)) (Some dir_images) in
       get_referenced_images (convert_to_dict quiz) = Some (names_of_quiz quiz)
       ∧ (exit_code result ≠ 0%Z
          ↔ ∃ name, name ∈ names_of_quiz quiz ∧ name ∉ dir_images)
       ∧ (names_of_quiz quiz ⊆ dir_images →
          (5 < size (dir_images ∖ names_of_quiz quiz))%nat →
          result = {| exit_code := 0;
                      final_status :=
                        WARNING (size (dir_images ∖ names_of_quiz quiz)) |})).
Proof.
  assert (Hgen : ∀ data dir_images json_images questions,
     get_referenced_images data = Some json_images →
     get_questions_with_images data = Some questions →
     forallb printable questions = true →
     let result := main (Some data) (Some dir_images) in
     (exit_code result ≠ 0%Z ↔ ∃ name, name ∈ json_images ∧ name ∉ dir_images)
     ∧ (json_images ⊆ dir_images →
        (5 < size (dir_images ∖ json_images))%nat →
        result = {| exit_code := 0;
                    final_status := WARNING (size (dir_images ∖ json_images)) |})).
  { intros data dir_images json_images questions Hrefs Hqs Hprint. cbv zeta.
    rewrite (main_status data dir_images json_images questions Hrefs Hqs Hprint).
    destruct (decide (∃ name, name ∈ json_images ∧ name ∉ dir_images))
      as [Hsome|Hnone].
    - rewrite bool_decide_eq_true_2 by done. simpl. split; [done|].
      intros Hsub. destruct Hsome as (name & Hin & Hnotin).
      destruct Hnotin. by apply (proj1 (elem_of_subseteq _ _) Hsub).
    - rewrite bool_decide_eq_false_2 by done. split.
      + split; [|done]. by destruct (bool_decide _).
      + intros _ Hmany. by rewrite bool_decide_eq_true_2. }
  split; [exact main_missing|]. split; [exact Hgen|].
  intros quiz dir_images.
  destruct (get_questions_with_images_serialized quiz) as (questions & Hqs & Hprint).
  split; [apply get_referenced_images_serialized|].
  exact (Hgen (convert_to_dict quiz) dir_images (names_of_quiz quiz) questions
           (get_referenced_images_serialized quiz) Hqs Hprint).
Qed.

Lemma validator_exit_code_witness :
  (exit_code (main (Some (convert_to_dict quiz_with_image))
                (Some dir_without_question_image)) ≠ 0%Z
   ↔ ∃ name, name ∈ ({[ lit "page03_img01.png"; lit "page03_img02.png" ]} : gset str)
             ∧ name ∉ dir_without_question_image)
  ∧ (({[ lit "page03_img01.png"; lit "page03_img02.png" ]} : gset str)
       ⊆ dir_without_question_image →
     (5 < size (dir_without_question_image
                  ∖ {[ lit "page03_img01.png"; lit "page03_img02.png" ]}))%nat →
     main (Some (convert_to_dict quiz_with_image)) (Some dir_without_question_image)
     = {| exit_code := 0;
          final_status :=
            WARNING (size (dir_without_question_image
                             ∖ {[ lit "page03_img01.png"; lit "page03_img02.png" ]})) |}).
Proof.
  apply (proj1 (proj2 validator_exit_code) (convert_to_dict quiz_with_image)
           dir_without_question_image
           {[ lit "page03_img01.png"; lit "page03_img02.png" ]}
           [ {| sum_section := JInt 2; sum_question := JInt 5;
                sum_text := lit "Co je na obr" ++ [225] ++ lit "zku?...";
                sum_q_image := Some (lit "page03_img01.png");
                sum_opt_images := [ JStr (lit "B") ] |} ]).
  - vm_compute. reflexivity.
  - vm_compute. reflexivity.
  - reflexivity.
Defined.

Example validator_fails_on_missing_image :
  main (Some (convert_to_dict quiz_with_image)) (Some dir_without_question_image)
  = {| exit_code := 1; final_status := FAILED |}.
Proof. vm_compute. reflexivity. Qed.

(** C9, the claim as stated fails: the document [json_number_label]
    refers to one image, which is in the directory, and the listing of
    its question raises at the label that is not a string; the validator
    ends with the exit code 1 although no referenced image is missing. *)
Lemma nonzero_exit_with_no_image_missing :
  get_referenced_images json_number_label = Some {[ lit "page03_img02.png" ]}
  ∧ ({[ lit "page03_img02.png" ]} : gset str) ⊆ dir_without_question_image
  ∧ main (Some json_number_label) (Some dir_without_question_image)
    = {| exit_code := 1; final_status := ABORTED |}
  ∧ ¬ (exit_code (main (Some json_number_label) (Some dir_without_question_image)) ≠ 0%Z
       ↔ ∃ name, name ∈ ({[ lit "page03_img02.png" ]} : gset str)
                 ∧ name ∉ dir_without_question_image).
Proof.
  assert (Hsub : ({[ lit "page03_img02.png" ]} : gset str) ⊆ dir_without_question_image).
  { apply elem_of_subseteq. intros name ->%elem_of_singleton.
    unfold dir_without_question_image. apply elem_of_union. left.
    by apply elem_of_singleton. }
  assert (Hmain : main (Some json_number_label) (Some dir_without_question_image)
                  = {| exit_code := 1; final_status := ABORTED |})
    by (vm_compute; reflexivity).
  split; [vm_compute; reflexivity|]. split; [exact Hsub|]. split; [exact Hmain|].
  rewrite Hmain. simpl. intros [Hmissing _].
  destruct Hmissing as (name & Hin & Hnotin); [done|].
  by apply Hnotin, (proj1 (elem_of_subseteq _ _) Hsub).
Qed.

(** * Further properties of the code *)

(** ** Text normalization keeps what is visible *)

Section visible_text.

Lemma visible_spaces p : Forall (λ c, isspace c = true) p → visible p = [].
Proof.
  unfold visible. induction 1 as [|c p Hc _ IH]; [done|].
  rewrite filter_cons_False by congruence. exact IH.
Qed.

Lemma sub_spaces_visible s : visible (sub_spaces s) = visible s.
Proof.
  unfold visible. induction s as [|c s IH]; [done|].
  simpl. destruct (isspace c) eqn:Hc.
  - rewrite (filter_cons_False _ c) by congruence.
    destruct s as [|c' s']; [done|].
    destruct (isspace c') eqn:Hc'; [exact IH|].
    rewrite (filter_cons_False _ SPACE) by done. exact IH.
  - rewrite !filter_cons_True by done. by rewrite IH.
Qed.

Lemma strip_visible s : visible (strip s) = visible s.
Proof.
  unfold strip.
  destruct (lstrip_suffix s) as (p & Hp & Hall).
  destruct (rstrip_prefix (lstrip s)) as (q & Hq & Hallq).
  rewrite Hp at 2. rewrite Hq at 2.
  unfold visible. rewrite !filter_app.
  fold (visible p) (visible q).
  rewrite (visible_spaces p), (visible_spaces q) by done.
  by rewrite app_nil_r.
Qed.

End visible_text.

(** X1: [clean_text] neither drops nor reorders a character other than
    whitespace: the visible characters of the result are those of the
    argument, in the same order. *)
Theorem clean_text_keeps_visible :
  ∀ s, visible (clean_text s) = visible s.
Proof. intros s. unfold clean_text. by rewrite strip_visible, sub_spaces_visible. Qed.

(** X2: [clean_text] returns its argument unchanged exactly when every
    whitespace character of it is a single space between two other
    characters and it neither starts nor ends with whitespace. *)
Theorem clean_text_fixed_points :
  ∀ s, clean_text s = s ↔ single_spaced s ∧ no_leading_space s ∧ no_trailing_space s.
Proof.
  intros s. split.
  - intros E. rewrite <- E. split; [apply clean_text_single_spaced|].
    apply strip_normal_ends.
  - intros (Hs & Hl & Ht). unfold clean_text.
    rewrite single_spaced_fix by done. by apply strip_id.
Qed.

(** ** Facts of the line scan, with the line that gives rise to them *)

Section scan_facts_proof.
Context {U : Unicode}.
Variables (titled saved : Section → Prop) (committed opened : Question → Prop).

Hypothesis titled_placeholder : titled (new_section 0 POKRACOVANI).
Hypothesis titled_header : ∀ line num section_text,
  match_section line = Some (num, section_text) →
  titled (new_section (int num) (strip section_text)).
Hypothesis titled_add : ∀ sec q, titled sec → titled (add_question sec q).
Hypothesis saved_section : ∀ answers sec,
  titled sec → Forall committed (sec_questions sec) →
  nonempty (sec_questions sec) = true → saved (apply_answers answers sec).
Hypothesis opened_question : ∀ line num text rest page_num,
  match_question line = Some (num, text) →
  negb (str_isupper line) && ((int num <=? 10) || contains (lit "?") line) = true →
  opened (new_question (int num) (clean_text (collect_question text rest).1) page_num).
Hypothesis opened_add_option : ∀ line label text rest q,
  match_option line = Some (label, text) → opened q →
  opened (add_option q (new_option label (clean_text (collect_option text rest).1))).
Hypothesis opened_set_date : ∀ line d q,
  no_trailing_space line → match_date line = Some d → opened q →
  opened (set_date q (strip d)).
Hypothesis committed_of_opened : ∀ q,
  opened q → nonempty (q_options q) = true → committed q.

Local Abbreviation facts := (scan_facts titled saved committed opened).

Lemma facts_initial : facts initial.
Proof. split; simpl; [constructor|done|done]. Qed.

Lemma facts_add_question sec q :
  titled sec ∧ Forall committed (sec_questions sec) →
  opened q → nonempty (q_options q) = true →
  titled (add_question sec q) ∧ Forall committed (sec_questions (add_question sec q)).
Proof.
  intros [Ht Hqs] Hq Hne. split; [by apply titled_add|].
  simpl. apply Forall_app. split; [done|].
  constructor; [|constructor]. by apply committed_of_opened.
Qed.

Lemma facts_commit_question st sec b :
  facts st → commit_question st = (Some sec, b) →
  titled sec ∧ Forall committed (sec_questions sec).
Proof.
  intros [_ Hsec Hq]. unfold commit_question.
  destruct (current_section st) as [sec0|]; [|done].
  destruct (current_question st) as [q|].
  - destruct (nonempty (q_options q)) eqn:E; intros [= <- <-].
    + apply facts_add_question; auto.
    + auto.
  - intros [= <- <-]. auto.
Qed.

Lemma facts_on_section_header st line :
  facts st →
  match on_section_header st line with Continue st' _ | Fall st' => facts st' end.
Proof.
  intros Hf. unfold on_section_header.
  destruct (match_section line) as [[num section_text]|] eqn:Em; [|done].
  destruct (forallb _ section_text); [|done].
  destruct (commit_question st) as [cs b] eqn:E.
  split; simpl; [| |done].
  - destruct cs as [sec|]; [|apply Hf].
    destruct (nonempty (sec_questions sec)) eqn:Ene; [|apply Hf].
    apply Forall_app. split; [apply Hf|].
    constructor; [|constructor].
    destruct (facts_commit_question st sec b Hf E) as [Ht Hqs].
    by apply saved_section.
  - intros sec [= <-]. split; [by eapply titled_header|constructor].
Qed.

Lemma facts_on_answers st line :
  facts st →
  match on_answers st line with Continue st' _ | Fall st' => facts st' end.
Proof.
  intros Hf. unfold on_answers.
  destruct (_ || _); [|done].
  destruct (commit_question st) as [cs b] eqn:E.
  split; simpl; [apply Hf| |].
  - intros sec ->. by eapply facts_commit_question.
  - destruct b; [done|]. apply Hf.
Qed.

Lemma facts_on_question st line page_num rest :
  facts st →
  match on_question st line page_num rest with
  | Continue st' _ | Fall st' => facts st'
  end.
Proof.
  intros Hf. unfold on_question.
  destruct (match_question line) as [[num text]|] eqn:Em; [|done].
  assert (Hdef : let sec := default (new_section 0 POKRACOVANI) (current_section st) in
                 titled sec ∧ Forall committed (sec_questions sec)).
  { destruct (current_section st) as [sec|] eqn:E; simpl; [by apply Hf|].
    split; [exact titled_placeholder|constructor]. }
  simpl in Hdef.
  destruct (_ && _) eqn:Eacc.
  - pose proof (opened_question line num text rest page_num Em Eacc) as Hnew.
    destruct (collect_question text rest) as [q_text n].
    split; simpl; [apply Hf| |by intros q [= <-]].
    intros sec [= <-].
    destruct (current_question st) as [q|] eqn:Eq; [|done].
    destruct (nonempty (q_options q)) eqn:Ene; [|done].
    apply facts_add_question; [done| |done]. by apply Hf.
  - split; simpl; [apply Hf|by intros sec [= <-]|apply Hf].
Qed.

Lemma facts_on_option st line rest :
  facts st →
  match on_option st line rest with Continue st' _ | Fall st' => facts st' end.
Proof.
  intros Hf. unfold on_option.
  destruct (match_option line) as [[label text]|] eqn:Em; [|done].
  destruct (current_question st) as [q|] eqn:Eq; [|done].
  assert (Hq : opened q) by (by apply Hf).
  pose proof (opened_add_option line label text rest q Em Hq) as Hnew.
  destruct (collect_option text rest) as [opt_text n].
  split; simpl; [apply Hf|apply Hf|]. by intros q' [= <-].
Qed.

Lemma facts_on_date st line :
  no_trailing_space line →
  facts st →
  match on_date st line with Continue st' _ | Fall st' => facts st' end.
Proof.
  intros Hline Hf. unfold on_date.
  destruct (match_date line) as [d|] eqn:Em; [|done].
  destruct (current_question st) as [q|] eqn:Eq; [|done].
  split; simpl; [apply Hf|apply Hf|].
  intros q' [= <-]. eapply opened_set_date; [done|done|]. by apply Hf.
Qed.

Lemma facts_step st raw page_num rest :
  facts st → facts (step st raw page_num rest).1.
Proof.
  intros Hf. unfold step.
  destruct (_ || _); [done|].
  destruct (_ || _); [done|].
  pose proof (facts_on_section_header st (strip raw) Hf) as H1.
  destruct (on_section_header st (strip raw)) as [|st1]; [done|].
  pose proof (facts_on_answers st1 (strip raw) H1) as H2.
  destruct (on_answers st1 (strip raw)) as [|st2]; [done|].
  pose proof (facts_on_question st2 (strip raw) page_num rest H2) as H3.
  destruct (on_question st2 (strip raw) page_num rest) as [|st3]; [done|].
  pose proof (facts_on_option st3 (strip raw) rest H3) as H4.
  destruct (on_option st3 (strip raw) rest) as [|st4]; [done|].
  assert (Hline : no_trailing_space (strip raw)) by apply strip_normal_ends.
  pose proof (facts_on_date st4 (strip raw) Hline H4) as H5.
  by destruct (on_date st4 (strip raw)).
Qed.

Lemma facts_scan lines : ∀ skip st, facts st → facts (scan skip st lines).
Proof.
  induction lines as [|[raw page_num] rest IH]; intros skip st Hf; [done|].
  simpl. destruct skip as [|k]; [|by apply IH].
  pose proof (facts_step st raw page_num rest Hf) as Hstep.
  destruct (step st raw page_num rest) as [st' n]. by apply IH.
Qed.

Lemma facts_finish st : facts st → Forall saved (finish st).
Proof.
  intros Hf. unfold finish.
  destruct (current_section st) as [sec|] eqn:Es; [|apply Hf].
  destruct (nonempty (sec_questions sec)) eqn:Ene; [|apply Hf].
  apply Forall_app. split; [apply Hf|].
  constructor; [|constructor].
  destruct (facts_section _ _ _ _ _ Hf sec Es) as [Ht Hqs].
  destruct (current_question st) as [q|] eqn:Eq; [|by apply saved_section].
  destruct (nonempty (q_options q)) eqn:Eo; [|by apply saved_section].
  destruct (facts_add_question sec q) as [Ht' Hqs']; [done|by apply Hf|done|].
  apply saved_section; [done|done|].
  simpl. by destruct (sec_questions sec).
Qed.

Lemma facts_parse_lines name lines :
  Forall saved (sections (parse_lines name lines)).
Proof. apply facts_finish, facts_scan, facts_initial. Qed.

End scan_facts_proof.

(** ** Sections, labels and dates of a parsed document *)

Section parsed_shape.
Context {U : Unicode}.

Lemma title_first_visible u : title_first u = true → isspace u = false.
Proof.
  unfold title_first, elem, czech_upper. simpl. intros Hu.
  destruct (isspace u) eqn:E; [exfalso|done].
  unfold isspace in E.
  repeat rewrite ?orb_true_iff, ?andb_true_iff, ?N.leb_le, ?N.eqb_eq in Hu.
  repeat rewrite ?orb_true_iff, ?andb_true_iff, ?N.leb_le, ?N.eqb_eq in E.
  lia.
Qed.

Lemma match_section_title line num section_text :
  match_section line = Some (num, section_text) →
  ∃ u rest, section_text = u :: rest ∧ title_first u = true
            ∧ Forall (λ c, title_rest c = true) rest.
Proof.
  unfold match_section. destruct (span isdigit line) as [ds r].
  destruct ds as [|d ds]; [done|]. destruct r as [|dot r1]; [done|].
  destruct (dot =? 46); [|done].
  destruct (span isspace r1) as [ws r2].
  destruct ws as [|w ws]; [done|]. destruct r2 as [|u r3]; [done|].
  destruct (title_first u && nonempty r3 && forallb title_rest r3) eqn:E; [|done].
  intros [= _ <-].
  apply andb_true_iff in E as [[Hu _]%andb_true_iff Hrest].
  exists u, r3. split; [done|]. split; [done|].
  apply Forall_forall. intros c Hc%list_elem_of_In.
  by apply (proj1 (forallb_forall _ _) Hrest).
Qed.

Lemma strip_title u rest :
  isspace u = false →
  ∃ rest' p, strip (u :: rest) = u :: rest' ∧ rest = rest' ++ p.
Proof.
  intros Hu. unfold strip. rewrite (lstrip_id (u :: rest)) by exact Hu.
  destruct (rstrip_prefix (u :: rest)) as (p & Hp & _).
  pose proof (rstrip_keeps_head (u :: rest) Hu) as Hhead.
  destruct (rstrip (u :: rest)) as [|v rest'] eqn:E.
  - destruct p as [|c p]; [done|]. simpl in Hp. injection Hp as <- _.
    pose proof (rstrip_prefix (u :: rest)) as (p' & Hp' & Hall).
    rewrite E in Hp'. simpl in Hp'. rewrite <- Hp' in Hall.
    apply Forall_cons in Hall as [Hc _]. congruence.
  - simpl in Hp. injection Hp as <- Hrest. by exists rest', p.
Qed.

Lemma match_option_label line label text :
  match_option line = Some (label, text) → label ∈ LETTERS.
Proof.
  unfold match_option. destruct line as [|l [|p r]]; [done|done|].
  destruct (is_A_to_D l && (p =? 41)) eqn:E; [|done].
  intros [= <- _]. apply is_A_to_D_letter.
  by apply andb_true_iff in E as [? _].
Qed.

Lemma strip_prefix_app p s r : strip_prefix p s = Some r → s = p ++ r.
Proof.
  revert s. induction p as [|a p IH]; intros s; [by intros [= ->]|].
  destruct s as [|b s]; [done|]. simpl.
  destruct (a =? b) eqn:E; [|done]. apply N.eqb_eq in E as ->.
  intros Hr. by rewrite (IH s Hr).
Qed.

(** What the date regex captures starts with a visible character, unless
    the text after the prefix is whitespace throughout. *)
Lemma spaces_dot_plus_visible r d :
  spaces_dot_plus r = Some d →
  (∃ c rest, d = c :: rest ∧ isspace c = false)
  ∨ (r ≠ [] ∧ Forall (λ c, isspace c = true) r).
Proof.
  revert d. induction r as [|c r IH]; intros d; [done|].
  simpl. destruct (isspace c) eqn:Hc.
  - destruct (spaces_dot_plus r) as [g|] eqn:Eg.
    + intros [= <-]. destruct (IH g eq_refl) as [Hvis|[_ Hall]]; [by left|].
      right. split; [done|]. by constructor.
    + unfold dot_plus. simpl. destruct (c =? NEWLINE) eqn:En; [done|].
      intros _. destruct r as [|c' r']; [right; split; [done|by constructor]|].
      right. split; [done|]. constructor; [done|].
      clear IH. revert Eg. generalize (c' :: r'). intros t.
      induction t as [|x t IHt]; [constructor|].
      simpl. destruct (isspace x) eqn:Hx.
      * destruct (spaces_dot_plus t); [done|]. intros _. constructor; [done|].
        by apply IHt.
      * unfold dot_plus. simpl. destruct (x =? NEWLINE) eqn:Ex; [|done].
        apply N.eqb_eq in Ex. subst x. discriminate Hx.
  - unfold dot_plus. simpl. destruct (c =? NEWLINE) eqn:En.
    + apply N.eqb_eq in En. subst c. discriminate Hc.
    + intros [= <-]. left. by eexists _, _.
Qed.

Lemma match_date_visible line d :
  no_trailing_space line → match_date line = Some d →
  ∃ c rest, d = c :: rest ∧ isspace c = false.
Proof.
  unfold match_date. intros Hline.
  destruct (strip_prefix DATUM_AKTUALIZACE_ULOHY line) as [r|] eqn:Ep; [|done].
  simpl. intros Hd.
  destruct (spaces_dot_plus_visible r d Hd) as [Hvis|[Hne Hall]]; [done|].
  exfalso. apply strip_prefix_app in Ep. subst line.
  unfold no_trailing_space in Hline. rewrite reverse_app in Hline.
  apply Forall_reverse in Hall.
  destruct (reverse r) as [|c t] eqn:Er.
  - apply (f_equal reverse) in Er. rewrite reverse_involutive in Er. by subst r.
  - simpl in Hline. apply Forall_cons in Hall as [Hc _]. congruence.
Qed.

Lemma parse_lines_sections_have_questions name lines :
  Forall (λ sec, sec_questions sec ≠ []) (sections (parse_lines name lines)).
Proof.
  apply (facts_parse_lines (λ _, True) (λ sec, sec_questions sec ≠ [])
           (λ _, True) (λ _, True)); try done.
  intros answers sec _ _ Hne. simpl. by destruct (sec_questions sec).
Qed.

Lemma parse_lines_sections_titled name lines :
  Forall section_titled (sections (parse_lines name lines)).
Proof.
  apply (facts_parse_lines section_titled section_titled (λ _, True) (λ _, True)).
  - by left.
  - intros line num section_text Hm. right.
    destruct (match_section_title line num section_text Hm) as (u & rest & -> & Hu & Hrest).
    destruct (strip_title u rest (title_first_visible u Hu)) as (rest' & p & Hs & ->).
    exists u, rest'. simpl. split; [done|]. split; [done|].
    split; [by apply Forall_app in Hrest as [? _]|].
    apply strip_normal_ends.
  - intros sec q Hsec. exact Hsec.
  - intros answers sec Hsec _ _. exact Hsec.
  - done.
  - done.
  - done.
  - done.
Qed.

Lemma parse_lines_labels name lines :
  all_questions labels_are_letters (parse_lines name lines).
Proof.
  apply (facts_parse_lines (λ _, True) (questions_satisfy labels_are_letters)
           labels_are_letters labels_are_letters).
  - done.
  - done.
  - done.
  - intros answers sec _ Hqs _. unfold questions_satisfy. simpl.
    apply Forall_fmap. eapply Forall_impl; [exact Hqs|].
    intros q Hq. unfold compose, apply_answer. by destruct (answers !! q_id q).
  - intros. constructor.
  - intros line label text rest q Hm Hq. unfold labels_are_letters. simpl.
    apply Forall_app. split; [done|]. constructor; [|constructor].
    by eapply match_option_label.
  - intros line d q _ _ Hq. exact Hq.
  - done.
Qed.

Lemma parse_lines_dates name lines :
  all_questions date_is_trimmed (parse_lines name lines).
Proof.
  apply (facts_parse_lines (λ _, True) (questions_satisfy date_is_trimmed)
           date_is_trimmed date_is_trimmed).
  - done.
  - done.
  - done.
  - intros answers sec _ Hqs _. unfold questions_satisfy. simpl.
    apply Forall_fmap. eapply Forall_impl; [exact Hqs|].
    intros q Hq. unfold compose, apply_answer. by destruct (answers !! q_id q).
  - done.
  - intros line label text rest q _ Hq. exact Hq.
  - intros line d q Hline Hm _. unfold date_is_trimmed. simpl.
    destruct (match_date_visible line d Hline Hm) as (c & rest & -> & Hc).
    destruct (strip_title c rest Hc) as (rest' & p & Hs & _).
    split; [by rewrite Hs|]. apply strip_normal_ends.
  - done.
Qed.

End parsed_shape.

Section binder_keeps_shape.
Context {U : Unicode}.
Variable images_by_page : gmap N (list Image).
Variable images_dir : str.

Lemma assign_question_date section_id q :
  q_date (assign_question images_by_page images_dir section_id q) = q_date q.
Proof.
  destruct (assign_question_cases images_by_page images_dir section_id q)
    as [-> | [-> | [img ->]]]; done.
Qed.

Lemma assign_question_page section_id q :
  q_page (assign_question images_by_page images_dir section_id q) = q_page q.
Proof.
  destruct (assign_question_cases images_by_page images_dir section_id q)
    as [-> | [-> | [img ->]]]; done.
Qed.

(** A property of sections the binder carries over. *)
Lemma assign_images_sections (P P' : Section → Prop) quiz :
  (∀ sec, P sec → P' (assign_section images_by_page images_dir sec)) →
  Forall P (sections quiz) →
  Forall P' (sections (assign_images_to_questions images_by_page images_dir quiz)).
Proof.
  intros HP Hall. simpl. apply Forall_fmap. eapply Forall_impl; [exact Hall|].
  intros sec Hsec. by apply HP.
Qed.

End binder_keeps_shape.

(** X3: every section of the produced document has at least one question;
    a section without a committed question is never appended. *)
Theorem sections_have_questions :
  ∀ (U : Unicode) images_by_page images_dir name lines,
    Forall (λ sec, sec_questions sec ≠ [])
           (sections (parse_pdf images_by_page images_dir name lines)).
Proof.
  intros U images_by_page images_dir name lines.
  eapply assign_images_sections; [|apply parse_lines_sections_have_questions].
  intros sec Hsec. simpl. intros E. apply Hsec. by apply fmap_nil_inv in E.
Qed.

(** X4: the label of every option of the produced document is one of the
    letters A, B, C, D. *)
Theorem option_labels_are_letters :
  ∀ (U : Unicode) images_by_page images_dir name lines,
    all_questions labels_are_letters (parse_pdf images_by_page images_dir name lines).
Proof.
  intros U images_by_page images_dir name lines.
  eapply assign_images_all; [|apply parse_lines_labels].
  intros section_id q Hq. unfold labels_are_letters in *.
  apply (Forall_fmap opt_label (λ l, l ∈ LETTERS)).
  rewrite assign_question_option_labels. by apply Forall_fmap.
Qed.

(** X5: a date stored in the produced document is not empty and has no
    whitespace at either end, so that the serializer writes it. *)
Theorem stored_dates_are_trimmed :
  ∀ (U : Unicode) images_by_page images_dir name lines,
    all_questions (λ q, date_is_trimmed q ∧ (q_date q = None ∨ filled (q_date q)))
                  (parse_pdf images_by_page images_dir name lines).
Proof.
  intros U images_by_page images_dir name lines.
  eapply assign_images_all; [|apply parse_lines_dates].
  intros section_id q Hq. unfold date_is_trimmed in *.
  rewrite assign_question_date.
  split; [done|]. destruct (q_date q) as [d|]; [|by left].
  right. exists d. split; [done|]. apply Hq.
Qed.

(** X6: every section of the produced document is the placeholder, with
    the id 0, or has a title that starts with a capital letter of the
    header alphabet, goes on with capitals, whitespace, commas, digits
    and dots only, and does not end with whitespace. *)
Theorem sections_are_titled :
  ∀ (U : Unicode) images_by_page images_dir name lines,
    Forall section_titled (sections (parse_pdf images_by_page images_dir name lines)).
Proof.
  intros U images_by_page images_dir name lines.
  eapply assign_images_sections; [|apply parse_lines_sections_titled].
  intros sec Hsec. exact Hsec.
Qed.

(** ** More on the binder *)

Section binder_more.
Context {U : Unicode}.
Variable images_by_page : gmap N (list Image).
Variable images_dir : str.

Local Abbreviation assign := (assign_question images_by_page images_dir).

Lemma assign_question_plain section_id q :
  mentions_image q = false → assign section_id q = q.
Proof.
  intros Hm. unfold assign_question.
  destruct (bool_decide _); [done|].
  destruct (negb _); [done|].
  rewrite Hm, !andb_false_r. done.
Qed.

Lemma assign_question_mentions section_id q :
  mentions_image (assign section_id q) = mentions_image q.
Proof. unfold mentions_image. by rewrite assign_question_text. Qed.

Lemma assign_question_page_images section_id q :
  page_images images_by_page (assign section_id q) = page_images images_by_page q.
Proof.
  unfold page_images. by rewrite assign_question_mentions, assign_question_page.
Qed.

Lemma page_images_source q img :
  img ∈ page_images images_by_page q →
  ∃ page imgs,
    images_by_page !! page = Some imgs ∧ img ∈ imgs
    ∧ (page = q_page q
       ∨ (page = q_page q + 1 ∧ default [] (images_by_page !! q_page q) = [])).
Proof.
  unfold page_images.
  destruct (default [] (images_by_page !! q_page q)) as [|own owns] eqn:Eown; simpl.
  - destruct (mentions_image q); simpl.
    + destruct (images_by_page !! (q_page q + 1)) as [imgs|] eqn:E; simpl;
        [|by intros ?%elem_of_nil].
      intros Hin. exists (q_page q + 1), imgs. by auto.
    + by intros ?%elem_of_nil.
  - destruct (images_by_page !! q_page q) as [imgs|] eqn:E; [|done].
    simpl in Eown. subst imgs. intros Hin. exists (q_page q), (own :: owns). by auto.
Qed.

Lemma no_option_images q :
  Forall (λ opt, opt_image opt = None) (q_options q) → omap opt_image (q_options q) = [].
Proof. induction 1 as [|opt opts Hopt _ IH]; csimpl; [done|]. by rewrite Hopt. Qed.

Lemma no_images_assigned q : no_images q → assigned_of_question q = [].
Proof.
  intros [Hq Hopts]. unfold assigned_of_question. by rewrite Hq, no_option_images.
Qed.

(** The paths a question holds after the binder, when it held none. *)
Lemma assign_question_assigned section_id q path :
  no_images q →
  path ∈ assigned_of_question (assign section_id q) →
  mentions_image q = true
  ∧ ∃ img, img ∈ page_images images_by_page q ∧ path = image_path images_dir img.
Proof.
  intros Hno Hin.
  assert (Hempty : path ∈ assigned_of_question q → False).
  { rewrite no_images_assigned by done. by intros ?%elem_of_nil. }
  destruct Hno as [Hq Hopts].
  unfold assign_question in Hin.
  destruct (bool_decide _); [done|].
  destruct (page_images images_by_page q) as [|img imgs] eqn:Eimgs; simpl in Hin; [done|].
  destruct (mentions_image q); [|by rewrite !andb_false_r in Hin].
  split; [done|]. rewrite !andb_true_r in Hin.
  destruct (forallb _ _ && bool_decide _ && bool_decide _).
  - unfold assigned_of_question in Hin. simpl in Hin. rewrite Hq in Hin. simpl in Hin.
    rewrite assign_options_images in Hin by done.
    apply list_elem_of_fmap in Hin as (img' & -> & Hin).
    exists img'. split; [|done]. by eapply subseteq_take.
  - unfold assigned_of_question in Hin. simpl in Hin.
    rewrite no_option_images in Hin by done.
    apply list_elem_of_singleton in Hin as ->.
    exists img. split; [apply list_elem_of_here|done].
Qed.

Lemma set_option_image_twice opt path :
  set_option_image (set_option_image opt path) path = set_option_image opt path.
Proof. done. Qed.

Lemma assign_options_twice opts imgs :
  assign_options images_dir (assign_options images_dir opts imgs) imgs
  = assign_options images_dir opts imgs.
Proof.
  apply list_eq. intros i. rewrite !assign_options_lookup.
  destruct (opts !! i) as [opt|]; [|done]. simpl. by destruct (imgs !! i).
Qed.

Lemma forallb_short_texts (opts : list Option) :
  forallb (λ opt, bool_decide (length (opt_text opt) < 50)%nat) opts
  = forallb (λ t, bool_decide (length t < 50)%nat) (opt_text <$> opts).
Proof. induction opts as [|opt opts IH]; [done|]. simpl. by rewrite IH. Qed.

(** A second pass of the binder over a question changes nothing. *)
Lemma assign_question_twice section_id q :
  assign section_id (assign section_id q) = assign section_id q.
Proof.
  set (q' := assign section_id q).
  assert (Hid : q_id q' = q_id q) by apply assign_question_id.
  assert (Hpi : page_images images_by_page q' = page_images images_by_page q)
    by apply assign_question_page_images.
  assert (Hm : mentions_image q' = mentions_image q) by apply assign_question_mentions.
  assert (Ht : opt_text <$> q_options q' = opt_text <$> q_options q)
    by apply assign_question_option_texts.
  assert (Hlen : length (q_options q') = length (q_options q))
    by apply assign_question_options_length.
  unfold assign_question at 1.
  rewrite forallb_short_texts, Hid, Hpi, Hm, Ht, Hlen, <- forallb_short_texts.
  destruct (bool_decide _) eqn:E1; [done|].
  destruct (negb _) eqn:E2; [done|].
  destruct (_ && _) eqn:E3.
  - subst q'. unfold assign_question. rewrite E1, E2, E3. simpl.
    unfold set_options. simpl. by rewrite assign_options_twice.
  - destruct (bool_decide (1 ≤ _)%nat && mentions_image q) eqn:E4; [|done].
    subst q'. unfold assign_question. rewrite E1, E2, E3, E4.
    by destruct (page_images images_by_page q).
Qed.

Lemma erase_assign_options opts imgs :
  erase_option <$> assign_options images_dir opts imgs = erase_option <$> opts.
Proof.
  apply list_eq. intros i. rewrite !list_lookup_fmap, assign_options_lookup.
  destruct (opts !! i) as [opt|]; [|done]. simpl. by destruct (imgs !! i).
Qed.

Lemma erase_assign_question section_id q :
  erase_question (assign section_id q) = erase_question q.
Proof.
  destruct (assign_question_cases images_by_page images_dir section_id q)
    as [-> | [-> | [img ->]]]; [done| |done].
  unfold erase_question. simpl. by rewrite erase_assign_options.
Qed.

End binder_more.

(** X7: a question whose lowercased text contains no image keyword is
    left as it is by the binder, whatever images its page and the next
    page hold; in the produced document it and its options have no
    image. *)
Theorem no_keyword_no_image :
  ∀ (U : Unicode) (images_by_page : gmap N (list Image)) (images_dir : str),
    (∀ section_id q,
       mentions_image q = false →
       assign_question images_by_page images_dir section_id q = q)
    ∧ (∀ name lines,
         all_questions (λ q, mentions_image q = false → no_images q)
                       (parse_pdf images_by_page images_dir name lines)).
Proof.
  intros U images_by_page images_dir. split.
  - intros section_id q. apply assign_question_plain.
  - intros name lines.
    eapply assign_images_all; [|apply parse_lines_no_images].
    intros section_id q Hq. rewrite assign_question_mentions. intros Hm.
    by rewrite assign_question_plain.
Qed.

Lemma no_keyword_no_image_witness :
  mentions_image (U:=czech) question_plain = false
  ∧ page_images (U:=czech) images_one_on_page_1 question_plain ≠ []
  ∧ assign_question (U:=czech) images_one_on_page_1 (lit "a_images") 1 question_plain
    = question_plain.
Proof.
  split; [reflexivity|]. split; [by vm_compute|].
  apply (no_keyword_no_image czech images_one_on_page_1 (lit "a_images")).
  reflexivity.
Defined.

(** X8: every image path the produced document holds was composed from
    the images directory and the file name of an image of the question's
    own page, or of the next page when the question's own page has no
    image; and the text of a question that holds one mentions an image. *)
Theorem assigned_images_come_from_the_page :
  ∀ (U : Unicode) images_by_page images_dir name lines,
    all_questions
      (λ q, ∀ path, path ∈ assigned_of_question q →
                    mentions_image q = true
                    ∧ from_own_or_next_page images_by_page images_dir q path)
      (parse_pdf images_by_page images_dir name lines).
Proof.
  intros U images_by_page images_dir name lines.
  eapply assign_images_all; [|apply parse_lines_no_images].
  intros section_id q Hq path Hin.
  rewrite assign_question_mentions.
  destruct (assign_question_assigned images_by_page images_dir section_id q path Hq Hin)
    as (Hm & img & Himg & ->).
  split; [done|].
  destruct (page_images_source images_by_page q img Himg) as (page & imgs & Hl & Hi & Hp).
  exists page, imgs, img. rewrite assign_question_page. by auto.
Qed.

Lemma assigned_images_come_from_the_page_witness :
  all_questions
    (λ q, ∀ path, path ∈ assigned_of_question q →
                  mentions_image (U:=czech) q = true
                  ∧ from_own_or_next_page images_one_on_page_1 (lit "a_images") q path)
    (parse_pdf (U:=czech) images_one_on_page_1 (lit "a_images") (lit "a.pdf")
       lines_two_pictures).
Proof.
  apply (assigned_images_come_from_the_page czech).
Defined.

(** X9: a question that is not excluded, mentions an image and has a
    candidate image, but is not a grid question (4 options, all shorter
    than 50 characters, 4 candidate images or more), gets the first
    candidate image as its own image; its options are left as they were. *)
Theorem single_image_goes_to_the_question :
  ∀ (U : Unicode) images_by_page images_dir quiz i j sec q img more,
    sections quiz !! i = Some sec →
    sec_questions sec !! j = Some q →
    (sec_id sec, q_id q) ∉ EXCLUDE_IMAGE →
    mentions_image q = true →
    page_images images_by_page q = img :: more →
    ¬ (length (q_options q) = 4%nat
       ∧ Forall (λ opt, (length (opt_text opt) < 50)%nat) (q_options q)
       ∧ (4 ≤ length (img :: more))%nat) →
    ∃ sec' q',
      sections (assign_images_to_questions images_by_page images_dir quiz) !! i = Some sec'
      ∧ sec_questions sec' !! j = Some q'
      ∧ q_image q' = Some (image_path images_dir img)
      ∧ q_options q' = q_options q.
Proof.
  intros U images_by_page images_dir quiz i j sec q img more Hsec Hq Hex Hm Himgs Hgrid.
  exists (assign_section images_by_page images_dir sec),
         (assign_question images_by_page images_dir (sec_id sec) q).
  split; [simpl; by rewrite list_lookup_fmap, Hsec|].
  split; [simpl; by rewrite list_lookup_fmap, Hq|].
  unfold assign_question.
  rewrite bool_decide_eq_false_2 by done.
  rewrite Himgs, Hm. cbn [nonempty negb]. rewrite !andb_true_r.
  destruct (forallb _ _ && bool_decide _ && bool_decide _) eqn:E.
  - exfalso. apply Hgrid.
    apply andb_true_iff in E as [[Hshort Hfour%bool_decide_eq_true]%andb_true_iff
                                   Hplus%bool_decide_eq_true].
    split; [done|]. split; [|done].
    apply Forall_forall. intros opt Hopt%list_elem_of_In.
    apply (proj1 (forallb_forall _ _) Hshort) in Hopt.
    by apply bool_decide_eq_true in Hopt.
  - rewrite bool_decide_eq_true_2 by (simpl; lia). done.
Qed.

Lemma single_image_goes_to_the_question_witness :
  ∃ sec' q',
    sections (assign_images_to_questions (U:=czech) images_one_on_page_1
                (lit "a_images") quiz_mountain) !! 0%nat = Some sec'
    ∧ sec_questions sec' !! 0%nat = Some q'
    ∧ q_image q' = Some (image_path (lit "a_images")
                           {| filename := lit "page01_img01.png"; img_page := 1 |})
    ∧ q_options q' = q_options question_17_8.
Proof.
  apply (single_image_goes_to_the_question czech images_one_on_page_1 (lit "a_images")
           quiz_mountain 0 0 {| sec_id := 1; sec_name := lit "ZEMEPIS";
                                sec_questions := [ question_17_8 ] |} question_17_8
           {| filename := lit "page01_img01.png"; img_page := 1 |} []).
  - reflexivity.
  - reflexivity.
  - unfold EXCLUDE_IMAGE. intros Hin%elem_of_singleton. discriminate Hin.
  - reflexivity.
  - reflexivity.
  - intros (Hlen & _). discriminate Hlen.
Defined.

(** X10: a second pass of the binder over a document changes nothing. *)
Theorem binder_is_idempotent :
  ∀ (U : Unicode) images_by_page images_dir quiz,
    assign_images_to_questions images_by_page images_dir
      (assign_images_to_questions images_by_page images_dir quiz)
    = assign_images_to_questions images_by_page images_dir quiz.
Proof.
  intros U images_by_page images_dir quiz.
  unfold assign_images_to_questions. cbn [sections source_file]. f_equal.
  rewrite <- list_fmap_compose. apply list_fmap_ext. intros ? sec _.
  unfold compose, assign_section. cbn [sec_id sec_name sec_questions]. f_equal.
  rewrite <- list_fmap_compose. apply list_fmap_ext. intros ? q _.
  apply assign_question_twice.
Qed.

(** X11: the binder changes image fields only: with the images taken
    away, the document after the binder is the document before it
    (sections, questions and options in the same number and order, with
    the same ids, names, texts, labels, answers, dates and pages). *)
Theorem binder_changes_images_only :
  ∀ (U : Unicode) images_by_page images_dir quiz,
    erase_images (assign_images_to_questions images_by_page images_dir quiz)
    = erase_images quiz.
Proof.
  intros U images_by_page images_dir quiz.
  unfold erase_images, assign_images_to_questions. cbn [sections source_file]. f_equal.
  rewrite <- list_fmap_compose. apply list_fmap_ext. intros ? sec _.
  unfold compose, erase_section, assign_section.
  cbn [sec_id sec_name sec_questions]. f_equal.
  rewrite <- list_fmap_compose. apply list_fmap_ext. intros ? q _.
  apply erase_assign_question.
Qed.

(** ** What the serialized document keeps *)

Section serializer_kept.

Lemma fmap_eq_iff {A B C} (f : A → B) (g : A → C) (l1 l2 : list A) :
  (∀ x y, f x = f y ↔ g x = g y) →
  f <$> l1 = f <$> l2 ↔ g <$> l1 = g <$> l2.
Proof.
  intros Hfg. revert l2. induction l1 as [|x l1 IH]; intros [|y l2]; csimpl; try done.
  split; intros [= Hx Hl]; f_equal; try (by apply Hfg); by apply IH.
Qed.

Lemma optional_entry_eq key v1 v2 :
  optional_entry key v1 = optional_entry key v2 ↔ kept_field v1 = kept_field v2.
Proof.
  destruct v1 as [[|c1 s1]|], v2 as [[|c2 s2]|]; simpl; split; intros [=]; by subst.
Qed.

Lemma optional_entries_eq v1 d1 v2 d2 :
  optional_entry (lit "image") v1 ++ optional_entry (lit "date") d1
  = optional_entry (lit "image") v2 ++ optional_entry (lit "date") d2
  ↔ kept_field v1 = kept_field v2 ∧ kept_field d1 = kept_field d2.
Proof.
  destruct v1 as [[|c1 s1]|], v2 as [[|c2 s2]|], d1 as [[|e1 t1]|], d2 as [[|e2 t2]|];
    simpl; split; try (intros [[=] [=]]); try (intros [=]); by subst.
Qed.

Lemma option_to_dict_eq o1 o2 :
  option_to_dict o1 = option_to_dict o2 ↔ kept_option o1 = kept_option o2.
Proof.
  destruct o1 as [l1 t1 i1], o2 as [l2 t2 i2].
  unfold option_to_dict, kept_option. simpl. split.
  - intros [= -> -> Hi]. f_equal. by apply (optional_entry_eq (lit "image")).
  - intros [= -> -> Hi]. do 3 f_equal. by apply optional_entry_eq.
Qed.

Lemma question_to_dict_eq q1 q2 :
  question_to_dict q1 = question_to_dict q2 ↔ kept_question q1 = kept_question q2.
Proof.
  destruct q1 as [id1 t1 o1 c1 i1 d1 p1], q2 as [id2 t2 o2 c2 i2 d2 p2].
  unfold question_to_dict, kept_question. simpl. split.
  - intros [= Hid -> Ho -> Hrest].
    apply N2Z.inj in Hid as ->.
    apply optional_entries_eq in Hrest as [-> ->].
    f_equal.
    exact (proj1 (fmap_eq_iff option_to_dict kept_option o1 o2 option_to_dict_eq) Ho).
  - intros [= -> -> Ho -> Hi Hd].
    rewrite (proj2 (fmap_eq_iff option_to_dict kept_option o1 o2 option_to_dict_eq) Ho).
    by rewrite (proj2 (optional_entries_eq i1 d1 i2 d2) (conj Hi Hd)).
Qed.

Lemma section_to_dict_eq s1 s2 :
  section_to_dict s1 = section_to_dict s2 ↔ kept_section s1 = kept_section s2.
Proof.
  destruct s1 as [id1 n1 q1], s2 as [id2 n2 q2].
  unfold section_to_dict, kept_section. simpl. split.
  - intros [= Hid -> Hq]. apply N2Z.inj in Hid as ->. f_equal.
    exact (proj1 (fmap_eq_iff question_to_dict kept_question q1 q2 question_to_dict_eq) Hq).
  - intros [= -> -> Hq].
    by rewrite (proj2 (fmap_eq_iff question_to_dict kept_question q1 q2
                         question_to_dict_eq) Hq).
Qed.

End serializer_kept.

(** X12: two documents are serialized to the same JSON value exactly when
    they agree in all but the pages of their questions and the difference
    between an empty and a missing image or date: the serializer loses
    nothing else. *)
Theorem serializer_loses_pages_only :
  ∀ quiz1 quiz2,
    convert_to_dict quiz1 = convert_to_dict quiz2 ↔ kept quiz1 = kept quiz2.
Proof.
  intros [f1 s1] [f2 s2]. unfold convert_to_dict, kept. simpl. split.
  - intros [= -> Hs]. f_equal.
    exact (proj1 (fmap_eq_iff section_to_dict kept_section s1 s2 section_to_dict_eq) Hs).
  - intros [= -> Hs].
    by rewrite (proj2 (fmap_eq_iff section_to_dict kept_section s1 s2
                         section_to_dict_eq) Hs).
Qed.

(** ** Paths and file names in the validator *)

Section path_segments.

Lemma split_slash_nonempty s : split_slash s ≠ [].
Proof.
  destruct s as [|c s]; [done|]. simpl.
  destruct (c =? 47); [done|]. by destruct (split_slash s).
Qed.

Lemma split_slash_app a b :
  split_slash (a ++ 47 :: b) = split_slash a ++ split_slash b.
Proof.
  induction a as [|c a IH]; [done|].
  simpl. rewrite IH. destruct (c =? 47); [done|].
  pose proof (split_slash_nonempty a) as Hne.
  by destruct (split_slash a).
Qed.

Lemma split_slash_plain name : 47 ∉ name → split_slash name = [name].
Proof.
  induction name as [|c name IH]; [done|].
  intros [Hc Hname]%not_elem_of_cons. simpl.
  destruct (c =? 47) eqn:E; [apply N.eqb_eq in E; congruence|].
  by rewrite IH.
Qed.

Lemma split_slash_segments s : Forall (λ seg, 47 ∉ seg) (split_slash s).
Proof.
  induction s as [|c s IH]; [repeat constructor; by intros ?%elem_of_nil|].
  simpl. destruct (c =? 47) eqn:E.
  - constructor; [by intros ?%elem_of_nil|done].
  - destruct (split_slash s) as [|seg segs]; [repeat constructor|].
    + intros [Heq|?%elem_of_nil]%elem_of_cons; [|done].
      subst c. by rewrite N.eqb_refl in E.
    + apply Forall_cons in IH as [Hseg Hsegs]. constructor; [|done].
      intros [Heq|?]%elem_of_cons; [|done]. subst c. by rewrite N.eqb_refl in E.
Qed.

Lemma join_split_slash s : join_slash (split_slash s) = s.
Proof.
  induction s as [|c s IH]; [done|].
  simpl. destruct (c =? 47) eqn:E.
  - apply N.eqb_eq in E as ->.
    pose proof (split_slash_nonempty s) as Hne.
    simpl. destruct (split_slash s) as [|seg segs]; [done|]. by rewrite IH.
  - destruct (split_slash s) as [|seg segs]; [by rewrite <- IH|].
    rewrite <- IH. simpl. by destruct segs.
Qed.

End path_segments.

(** X13: splitting a path at its slashes gives at least one segment, no
    segment holds a slash, and joining the segments with slashes gives
    the path back. *)
Theorem split_then_join :
  ∀ s, split_slash s ≠ []
       ∧ Forall (λ seg, 47 ∉ seg) (split_slash s)
       ∧ join_slash (split_slash s) = s.
Proof.
  intros s. split; [apply split_slash_nonempty|].
  split; [apply split_slash_segments|apply join_split_slash].
Qed.

(** X14: from the path the binder composes for an image, the validator
    gets the file name of the image back, whatever the name of the images
    directory, when the file name holds no slash. *)
Theorem validator_reads_the_filename :
  ∀ images_dir img,
    47 ∉ filename img →
    last_segment (JStr (image_path images_dir img)) = Some (filename img).
Proof.
  intros images_dir img Hname. unfold last_segment, image_path.
  change (lit "/" ++ filename img) with (47 :: filename img).
  rewrite split_slash_app, (split_slash_plain (filename img)) by done.
  apply last_snoc.
Qed.

Lemma validator_reads_the_filename_witness :
  last_segment (JStr (image_path (lit "out/a_images")
                        {| filename := lit "page01_img01.png"; img_page := 1 |}))
  = Some (lit "page01_img01.png").
Proof.
  apply (validator_reads_the_filename (lit "out/a_images")
           {| filename := lit "page01_img01.png"; img_page := 1 |}).
  vm_compute. intros Hin. by repeat (apply elem_of_cons in Hin as [Hin|Hin]; [done|]);
    apply elem_of_nil in Hin.
Defined.

(** X15: a JSON value that is not an object makes the validator end with
    the exit code 1 before any status; an object without the key
    [sections] refers to no image, and the validator ends with the exit
    code 0 whatever the directory holds. *)
Theorem validator_on_odd_json :
  (∀ data images_dir,
     (∀ entries, data ≠ JObj entries) →
     main (Some data) images_dir = {| exit_code := 1; final_status := ABORTED |})
  ∧ (∀ entries dir_images,
       assoc (lit "sections") entries = None →
       get_referenced_images (JObj entries) = Some ∅
       ∧ exit_code (main (Some (JObj entries)) (Some dir_images)) = 0%Z).
Proof.
  split.
  - intros data images_dir Hdata. unfold main.
    destruct images_dir as [dir_images|]; [|done].
    destruct data; try done. by destruct (Hdata entries).
  - intros entries dir_images Hnone.
    assert (Hrefs : get_referenced_images (JObj entries) = Some ∅).
    { unfold get_referenced_images, dict_get. by rewrite Hnone. }
    split; [exact Hrefs|].
    assert (Hqs : get_questions_with_images (JObj entries) = Some []).
    { unfold get_questions_with_images, dict_get. by rewrite Hnone. }
    unfold main. rewrite Hrefs, Hqs. cbn [forallb].
    rewrite bool_decide_eq_false_2; [by destruct (bool_decide _)|].
    intros Hmiss. apply Hmiss. unfold missing. apply empty_difference_L.
Qed.

Lemma validator_on_odd_json_witness :
  main (Some (JList [])) (Some dir_without_question_image)
  = {| exit_code := 1; final_status := ABORTED |}
  ∧ get_referenced_images json_without_sections = Some ∅
  ∧ exit_code (main (Some json_without_sections) (Some dir_without_question_image)) = 0%Z.
Proof.
  split.
  - apply (proj1 validator_on_odd_json (JList []) (Some dir_without_question_image)).
    intros entries. discriminate.
  - apply (proj2 validator_on_odd_json
             [ (lit "source_file", JStr (lit "a.pdf")) ] dir_without_question_image).
    reflexivity.
Defined.

(** X16: on a document the serializer has written the validator always
    reaches a status.  The file names it takes from the JSON document are
    the last path segments of the images of the questions and options;
    the status is FAILED exactly when one of them is not among the files
    of the directory, OK exactly when all are and at most 5 files of the
    directory are not referred to, and a warning with the number of
    those files otherwise. *)
Theorem validator_status_of_serialized :
  ∀ quiz dir_images,
    let result := main (Some (convert_to_dict quiz)) (Some dir_images) in
    get_referenced_images (convert_to_dict quiz) = Some (names_of_quiz quiz)
    ∧ final_status result ≠ ABORTED
    ∧ (final_status result = FAILED
       ↔ ∃ name, name ∈ names_of_quiz quiz ∧ name ∉ dir_images)
    ∧ (final_status result = OK
       ↔ names_of_quiz quiz ⊆ dir_images
         ∧ (size (dir_images ∖ names_of_quiz quiz) ≤ 5)%nat)
    ∧ (∀ n, final_status result = WARNING n
            ↔ names_of_quiz quiz ⊆ dir_images
              ∧ n = size (dir_images ∖ names_of_quiz quiz) ∧ (5 < n)%nat).
Proof.
  intros quiz dir_images. cbv zeta.
  split; [apply get_referenced_images_serialized|].
  destruct (get_questions_with_images_serialized quiz) as (questions & Hqs & Hprint).
  rewrite (main_status (convert_to_dict quiz) dir_images (names_of_quiz quiz) questions
             (get_referenced_images_serialized quiz) Hqs Hprint).
  destruct (decide (∃ name, name ∈ names_of_quiz quiz ∧ name ∉ dir_images))
    as [Hsome|Hnone].
  - rewrite bool_decide_eq_true_2 by done. simpl.
    assert (Hnot : ¬ names_of_quiz quiz ⊆ dir_images).
    { intros Hsub. destruct Hsome as (name & Hin & Hnotin).
      by apply Hnotin, (proj1 (elem_of_subseteq _ _) Hsub). }
    split; [done|]. split; [by split|]. split.
    + split; [done|]. by intros [? _].
    + intros n. split; [done|]. by intros [? _].
  - rewrite bool_decide_eq_false_2 by done.
    assert (Hsub : names_of_quiz quiz ⊆ dir_images).
    { apply elem_of_subseteq. intros name Hin.
      destruct (decide (name ∈ dir_images)) as [|Hnotin]; [done|].
      destruct Hnone. by exists name. }
    destruct (decide (5 < size (dir_images ∖ names_of_quiz quiz))%nat) as [Hmany|Hfew].
    + rewrite bool_decide_eq_true_2 by done. simpl.
      split; [done|]. split; [by split|]. split.
      * split; [done|]. intros [_ ?]. lia.
      * intros n. split; [by intros [= <-]|by intros (_ & -> & _)].
    + rewrite bool_decide_eq_false_2 by done. simpl.
      split; [done|]. split; [by split|]. split.
      * split; [|done]. intros _. split; [done|lia].
      * intros n. split; [done|]. intros (_ & -> & ?). lia.
Qed.

(** ** File names of the extracted images *)

Section file_names.

Lemma lit_inj s1 s2 : lit s1 = lit s2 → s1 = s2.
Proof.
  unfold lit. intros E.
  rewrite <- (string_of_list_ascii_of_string s1), <- (string_of_list_ascii_of_string s2).
  f_equal. revert E.
  generalize (list_ascii_of_string s1) (list_ascii_of_string s2).
  intros l1. induction l1 as [|a l1 IH]; intros [|b l2]; csimpl; try done.
  intros [= Hab Hl]. f_equal; [|by apply IH].
  by rewrite <- (ascii_N_embedding a), <- (ascii_N_embedding b), Hab.
Qed.

Lemma decimal_str_inj a b : decimal_str a = decimal_str b → a = b.
Proof.
  unfold decimal_str. intros E%lit_inj.
  apply Unsigned.to_uint_inj.
  assert (Some (N.to_uint a) = Some (N.to_uint b)) as [= ->]; [|done].
  by rewrite <- !NilEmpty.usu, E.
Qed.

Lemma string_of_uint_digits d :
  Forall ascii_digit (lit (NilEmpty.string_of_uint d)).
Proof.
  induction d; simpl; constructor; try done; unfold ascii_digit; simpl; lia.
Qed.

Lemma decimal_str_digits n : Forall ascii_digit (decimal_str n).
Proof. apply string_of_uint_digits. Qed.

Lemma decimal_str_small a : a < 10 → decimal_str a = [48 + a].
Proof.
  intros Ha.
  assert (a = 0 ∨ a = 1 ∨ a = 2 ∨ a = 3 ∨ a = 4 ∨ a = 5 ∨ a = 6 ∨ a = 7 ∨ a = 8 ∨ a = 9)
    as Hcases by lia.
  repeat (destruct Hcases as [->|Hcases]; [reflexivity|]). by subst a.
Qed.

Lemma decimal_str_large a : 10 ≤ a → (2 ≤ length (decimal_str a))%nat.
Proof.
  intros Ha. unfold decimal_str.
  pose proof (Unsigned.of_to a) as Hof.
  destruct (N.to_uint a) as [|d|d|d|d|d|d|d|d|d|d];
    try (vm_compute in Hof; lia);
    destruct d; try (vm_compute in Hof; lia); simpl; lia.
Qed.

Lemma format_02d_cases a :
  (a < 10 ∧ format_02d a = [48; 48 + a])
  ∨ (10 ≤ a ∧ format_02d a = decimal_str a).
Proof.
  unfold format_02d. destruct (decide (a < 10)) as [Hlt|Hge].
  - left. split; [done|]. by rewrite decimal_str_small.
  - right. split; [lia|].
    pose proof (decimal_str_large a) as Hlen.
    replace (2 - length (decimal_str a))%nat with 0%nat by lia. done.
Qed.

Lemma format_02d_digits n : Forall ascii_digit (format_02d n).
Proof.
  unfold format_02d. apply Forall_app. split; [|apply decimal_str_digits].
  apply Forall_replicate. unfold ascii_digit. lia.
Qed.

(** The decimal numeral of a number from 10 on does not start with a
    zero that is followed by one digit. *)
Lemma decimal_str_not_padded b x : 10 ≤ b → decimal_str b ≠ [48; x].
Proof.
  intros Hb E. unfold decimal_str in E.
  pose proof (Unsigned.of_to b) as Hof.
  destruct (N.to_uint b) as [|d|d|d|d|d|d|d|d|d|d]; try discriminate E.
  destruct d as [|d|d|d|d|d|d|d|d|d|d]; try discriminate E;
    destruct d; try discriminate E; vm_compute in Hof; lia.
Qed.

Lemma format_02d_inj a b : format_02d a = format_02d b → a = b.
Proof.
  destruct (format_02d_cases a) as [[Ha ->]|[Ha ->]],
           (format_02d_cases b) as [[Hb ->]|[Hb ->]].
  - intros [= E]. lia.
  - intros E. symmetry in E. by apply decimal_str_not_padded in E.
  - intros E. by apply decimal_str_not_padded in E.
  - apply decimal_str_inj.
Qed.

(** Two strings that start with digits and go on with another character
    agree in the digits and in the rest. *)
Lemma digits_then_inj ds1 x r1 ds2 y r2 :
  Forall ascii_digit ds1 → Forall ascii_digit ds2 →
  ¬ ascii_digit x → ¬ ascii_digit y →
  ds1 ++ x :: r1 = ds2 ++ y :: r2 → ds1 = ds2 ∧ r1 = r2.
Proof.
  intros H1. revert ds2. induction H1 as [|d ds1 Hd _ IH]; intros ds2 H2 Hx Hy.
  - destruct H2 as [|e ds2 He _]; simpl; [by intros [= _ ->]|].
    intros [= -> _]. done.
  - destruct H2 as [|e ds2 He H2]; simpl; [intros [= -> _]; done|].
    intros [= -> E]. destruct (IH ds2 H2 Hx Hy E) as [-> ->]. done.
Qed.

Lemma image_filename_digits_inj page1 idx1 ext1 page2 idx2 ext2 :
  image_filename page1 idx1 ext1 = image_filename page2 idx2 ext2 →
  page1 = page2 ∧ idx1 = idx2 ∧ ext1 = ext2.
Proof.
  unfold image_filename. intros E%app_inv_head.
  change (lit "_img" ++ ?r) with (95 :: (lit "img" ++ r)) in E.
  apply digits_then_inj in E as [Hp E];
    [|apply format_02d_digits|apply format_02d_digits
     |unfold ascii_digit; lia|unfold ascii_digit; lia].
  apply app_inv_head in E.
  change (lit "." ++ ?r) with (46 :: r) in E.
  apply digits_then_inj in E as [Hi E];
    [|apply format_02d_digits|apply format_02d_digits
     |unfold ascii_digit; lia|unfold ascii_digit; lia].
  split; [by apply format_02d_inj|]. split; [by apply format_02d_inj|done].
Qed.

Lemma image_filename_named_apart page1 idx1 ext1 page2 idx2 ext2 :
  image_filename page1 idx1 ext1 = image_filename page2 idx2 ext2 →
  page1 = page2 ∧ idx1 = idx2.
Proof. intros (? & ? & _)%image_filename_digits_inj. done. Qed.

End file_names.

(** X17: the file name of an extracted image tells its page, its index in
    the page and its extension: two images get the same name only if they
    agree in all three. *)
Theorem image_filename_inj :
  ∀ page1 idx1 ext1 page2 idx2 ext2,
    image_filename page1 idx1 ext1 = image_filename page2 idx2 ext2 →
    page1 = page2 ∧ idx1 = idx2 ∧ ext1 = ext2.
Proof. exact image_filename_digits_inj. Qed.

Lemma image_filename_inj_witness :
  1 = 1 ∧ 2 = 2 ∧ lit "png" = lit "png".
Proof.
  apply (image_filename_inj 1 2 (lit "png") 1 2 (lit "png")). reflexivity.
Defined.

(** ** The images of a page and of the document *)

Section extraction.

(** The images [extract_images] returns are those of the page, named by
    the indices from [img_idx] on. *)
Lemma extract_images_named image_list : ∀ page_num img_idx output_dir,
  Forall (λ img, img_page img = page_num
                 ∧ ∃ k image_ext, img_idx ≤ k
                                  ∧ filename img = image_filename page_num k image_ext)
         (extract_images page_num img_idx image_list output_dir).1.
Proof.
  induction image_list as [|[image_ext size|] rest IH]; intros page_num img_idx output_dir;
    simpl; [constructor| |].
  - specialize (IH page_num (img_idx + 1)
                  (<[image_filename page_num img_idx image_ext := size]> output_dir)).
    destruct (extract_images page_num (img_idx + 1) rest _) as [images dir]. simpl in *.
    constructor; [split; [done|]; exists img_idx, image_ext; split; [lia|done]|].
    eapply Forall_impl; [exact IH|].
    intros img (Hp & k & e & Hk & Hn). split; [done|]. exists k, e. split; [lia|done].
  - eapply Forall_impl; [apply IH|].
    intros img (Hp & k & e & Hk & Hn). split; [done|]. exists k, e. split; [lia|done].
Qed.

Lemma extract_images_NoDup image_list : ∀ page_num img_idx output_dir,
  NoDup (filename <$> (extract_images page_num img_idx image_list output_dir).1).
Proof.
  induction image_list as [|[image_ext size|] rest IH]; intros page_num img_idx output_dir;
    simpl; [constructor| |apply IH].
  pose proof (extract_images_named rest page_num (img_idx + 1)
                (<[image_filename page_num img_idx image_ext := size]> output_dir)) as Hn.
  specialize (IH page_num (img_idx + 1)
                (<[image_filename page_num img_idx image_ext := size]> output_dir)).
  destruct (extract_images page_num (img_idx + 1) rest _) as [images dir]. simpl in *.
  apply NoDup_cons. split; [|done].
  intros (img & E & Hin)%list_elem_of_fmap.
  apply (proj1 (Forall_forall _ _) Hn) in Hin as (_ & k & e & Hk & Hname).
  rewrite Hname in E. apply image_filename_named_apart in E. lia.
Qed.

Lemma extract_images_length image_list : ∀ page_num img_idx output_dir,
  length (extract_images page_num img_idx image_list output_dir).1
  = length (filter (λ e, is_decoded e = true) image_list).
Proof.
  induction image_list as [|[image_ext size|] rest IH]; intros page_num img_idx output_dir;
    [done| |].
  - rewrite filter_cons_True by done. cbn [extract_images].
    specialize (IH page_num (img_idx + 1)
                  (<[image_filename page_num img_idx image_ext := size]> output_dir)).
    destruct (extract_images page_num (img_idx + 1) rest _) as [images dir].
    cbn [fst length] in *. by rewrite IH.
  - rewrite filter_cons_False by done. apply IH.
Qed.

(** No file leaves the directory, and the file of every image returned is
    in it. *)
Lemma extract_images_files image_list : ∀ page_num img_idx output_dir,
  let result := extract_images page_num img_idx image_list output_dir in
  (∀ name, is_Some (output_dir !! name) → is_Some (result.2 !! name))
  ∧ Forall (λ img, is_Some (result.2 !! filename img)) result.1.
Proof.
  induction image_list as [|[image_ext size|] rest IH]; intros page_num img_idx output_dir;
    simpl; [by split|  |apply IH].
  specialize (IH page_num (img_idx + 1)
                (<[image_filename page_num img_idx image_ext := size]> output_dir)).
  destruct (extract_images page_num (img_idx + 1) rest _) as [images dir]. simpl in *.
  destruct IH as [Hkeep Hfiles]. split.
  - intros name Hname. apply Hkeep.
    destruct (decide (image_filename page_num img_idx image_ext = name)) as [->|Hne].
    + rewrite lookup_insert_eq. by eexists.
    + by rewrite lookup_insert_ne.
  - constructor; [|done]. simpl. apply Hkeep. rewrite lookup_insert_eq. by eexists.
Qed.

(** The same for the images of all pages. *)
Lemma extract_pages_named doc : ∀ page_num images_dir,
  Forall (λ img, page_num ≤ img_page img
                 ∧ ∃ k image_ext, filename img = image_filename (img_page img) k image_ext)
         (extract_pages page_num doc images_dir).1.
Proof.
  induction doc as [|page rest IH]; intros page_num images_dir; simpl; [constructor|].
  pose proof (extract_images_named (page_image_list page) page_num 1 images_dir) as Hpage.
  unfold extract_images_from_page.
  destruct (extract_images page_num 1 (page_image_list page) images_dir)
    as [page_images dir1]. simpl in Hpage.
  specialize (IH (page_num + 1) dir1).
  destruct (extract_pages (page_num + 1) rest dir1) as [more dir2]. simpl in *.
  apply Forall_app. split.
  - eapply Forall_impl; [exact Hpage|].
    intros img (-> & k & e & _ & Hn). split; [lia|]. by exists k, e.
  - eapply Forall_impl; [exact IH|].
    intros img (Hp & k & e & Hn). split; [lia|]. by exists k, e.
Qed.

Lemma extract_pages_NoDup doc : ∀ page_num images_dir,
  NoDup (filename <$> (extract_pages page_num doc images_dir).1).
Proof.
  induction doc as [|page rest IH]; intros page_num images_dir; simpl; [constructor|].
  pose proof (extract_images_named (page_image_list page) page_num 1 images_dir) as Hpage.
  pose proof (extract_images_NoDup (page_image_list page) page_num 1 images_dir) as Hnodup.
  unfold extract_images_from_page.
  destruct (extract_images page_num 1 (page_image_list page) images_dir)
    as [page_images dir1]. simpl in Hpage, Hnodup.
  pose proof (extract_pages_named rest (page_num + 1) dir1) as Hmore.
  specialize (IH (page_num + 1) dir1).
  destruct (extract_pages (page_num + 1) rest dir1) as [more dir2]. simpl in *.
  rewrite fmap_app. apply NoDup_app. split; [done|]. split; [|done].
  intros name (img1 & -> & Hin1)%list_elem_of_fmap (img2 & E & Hin2)%list_elem_of_fmap.
  apply (proj1 (Forall_forall _ _) Hpage) in Hin1 as (Hp1 & k1 & e1 & _ & Hn1).
  apply (proj1 (Forall_forall _ _) Hmore) in Hin2 as (Hp2 & k2 & e2 & Hn2).
  rewrite Hn1, Hn2 in E. apply image_filename_named_apart in E. lia.
Qed.

Lemma extract_pages_files doc : ∀ page_num images_dir,
  let result := extract_pages page_num doc images_dir in
  (∀ name, is_Some (images_dir !! name) → is_Some (result.2 !! name))
  ∧ Forall (λ img, is_Some (result.2 !! filename img)) result.1.
Proof.
  induction doc as [|page rest IH]; intros page_num images_dir; simpl; [by split|].
  pose proof (extract_images_files (page_image_list page) page_num 1 images_dir) as Hpage.
  unfold extract_images_from_page.
  destruct (extract_images page_num 1 (page_image_list page) images_dir)
    as [page_images dir1]. simpl in Hpage.
  specialize (IH (page_num + 1) dir1).
  destruct (extract_pages (page_num + 1) rest dir1) as [more dir2]. simpl in *.
  destruct Hpage as [Hkeep1 Hfiles1], IH as [Hkeep2 Hfiles2]. split.
  - intros name Hname. by apply Hkeep2, Hkeep1.
  - apply Forall_app. split; [|done].
    eapply Forall_impl; [exact Hfiles1|]. intros img Himg. by apply Hkeep2.
Qed.

End extraction.

(** X18: the images [extract_images_from_page] returns carry the number
    of the page and pairwise different file names; there is one for every
    embedded image whose extraction does not raise; the file of each is
    in the directory afterwards, and no file has left the directory. *)
Theorem extracted_images_of_a_page :
  ∀ page output_dir page_num,
    let result := extract_images_from_page page output_dir page_num in
    Forall (λ img, img_page img = page_num) result.1
    ∧ NoDup (filename <$> result.1)
    ∧ length result.1 = length (filter (λ e, is_decoded e = true) (page_image_list page))
    ∧ Forall (λ img, is_Some (result.2 !! filename img)) result.1
    ∧ ∀ name, is_Some (output_dir !! name) → is_Some (result.2 !! name).
Proof.
  intros page output_dir page_num. simpl. unfold extract_images_from_page.
  split; [|split; [|split; [|split]]].
  - eapply Forall_impl; [apply extract_images_named|]. by intros img [? _].
  - apply extract_images_NoDup.
  - apply extract_images_length.
  - apply extract_images_files.
  - apply extract_images_files.
Qed.

(** X19: over the whole document the extracted images have pairwise
    different file names, each composed from the page of the image, an
    index and an extension. *)
Theorem extracted_images_of_the_document :
  ∀ doc images_dir,
    let all_images := (extract_pages 1 doc images_dir).1 in
    NoDup (filename <$> all_images)
    ∧ Forall (λ img, 1 ≤ img_page img
                     ∧ ∃ k image_ext,
                         filename img = image_filename (img_page img) k image_ext)
             all_images.
Proof.
  intros doc images_dir. simpl.
  split; [apply extract_pages_NoDup|apply extract_pages_named].
Qed.

(** ** Small files *)

Section cleanup.
Variable images_dir : gmap str N.
Variable min_size : N.

Lemma cleanup_loop :
  cleanup_state images_dir min_size (cleanup_tiny_images images_dir min_size) images_dir.
Proof.
  unfold cleanup_tiny_images.
  apply (map_fold_weak_ind (cleanup_state images_dir min_size)).
  - split; [intros name; by rewrite lookup_empty|].
    unfold tiny_files. by rewrite map_filter_empty, map_size_empty.
  - intros name size seen [dir deleted] Hfresh [Hdir Hcount]. simpl in *.
    destruct (size <? min_size) eqn:E.
    + apply N.ltb_lt in E. split; simpl.
      * intros name'. destruct (decide (name = name')) as [<-|Hne].
        -- rewrite lookup_delete_eq, lookup_insert_eq.
           by rewrite (proj2 (N.ltb_lt _ _) E).
        -- by rewrite lookup_delete_ne, lookup_insert_ne, Hdir.
      * unfold tiny_files in *. rewrite map_filter_insert_True by done.
        rewrite map_size_insert_None; [by rewrite Hcount|].
        apply map_lookup_filter_None. by left.
    + apply N.ltb_ge in E. split; simpl.
      * intros name'. destruct (decide (name = name')) as [<-|Hne].
        -- rewrite lookup_insert_eq, Hdir, Hfresh.
           by rewrite (proj2 (N.ltb_ge _ _) E).
        -- by rewrite lookup_insert_ne, Hdir.
      * unfold tiny_files in *.
        rewrite map_filter_insert_False by (simpl; lia).
        by rewrite delete_id.
Qed.

Lemma cleanup_result :
  (cleanup_tiny_images images_dir min_size).1 = large_files min_size images_dir.
Proof.
  destruct cleanup_loop as [Hdir _]. apply map_eq. intros name. rewrite Hdir.
  unfold large_files. destruct (images_dir !! name) as [size|] eqn:E.
  - destruct (size <? min_size) eqn:Es.
    + apply N.ltb_lt in Es. symmetry. apply map_lookup_filter_None. right.
      intros size' Hs. simpl. rewrite E in Hs. injection Hs as <-. lia.
    + apply N.ltb_ge in Es. symmetry. by apply map_lookup_filter_Some.
  - symmetry. apply map_lookup_filter_None. by left.
Qed.

Lemma cleanup_count :
  (cleanup_tiny_images images_dir min_size).2 = size (tiny_files min_size images_dir).
Proof. by destruct cleanup_loop as [_ Hcount]. Qed.

Lemma cleanup_nothing :
  (cleanup_tiny_images images_dir min_size).2 = 0%nat →
  (cleanup_tiny_images images_dir min_size).1 = images_dir.
Proof.
  rewrite cleanup_count, cleanup_result. intros Hzero%map_size_empty_iff.
  apply map_eq. intros name. unfold large_files.
  destruct (images_dir !! name) as [size|] eqn:E.
  - apply map_lookup_filter_Some. split; [done|]. simpl.
    destruct (decide (size < min_size)) as [Hlt|]; [|lia].
    assert (tiny_files min_size images_dir !! name = Some size) as Hin
      by (by apply map_lookup_filter_Some).
    rewrite Hzero, lookup_empty in Hin. done.
  - apply map_lookup_filter_None. by left.
Qed.

End cleanup.

(** X20: [cleanup_tiny_images] leaves in the directory exactly the files
    of at least [min_size] bytes, with their sizes, and returns the
    number of the files below [min_size] it has deleted; the sizes of
    the directory before and after differ by that number. *)
Theorem cleanup_deletes_the_small_files :
  ∀ images_dir min_size,
    let result := cleanup_tiny_images images_dir min_size in
    result.1 = large_files min_size images_dir
    ∧ result.2 = size (tiny_files min_size images_dir)
    ∧ size images_dir = (size result.1 + result.2)%nat
    ∧ ∀ name size, result.1 !! name = Some size
                   ↔ images_dir !! name = Some size ∧ min_size ≤ size.
Proof.
  intros images_dir min_size. simpl.
  rewrite cleanup_result, cleanup_count.
  split; [done|]. split; [done|]. split.
  - unfold large_files, tiny_files.
    rewrite <- (map_size_disj_union (filter _ images_dir) (filter _ images_dir)).
    + f_equal. apply map_eq. intros name.
      destruct (images_dir !! name) as [size|] eqn:E.
      * symmetry. apply lookup_union_Some_raw.
        destruct (decide (min_size ≤ size)) as [Hge|Hlt].
        -- left. by apply map_lookup_filter_Some.
        -- right. split; [|apply map_lookup_filter_Some; split; [done|simpl; lia]].
           apply map_lookup_filter_None. right. intros size' Hs. simpl.
           rewrite E in Hs. injection Hs as <-. done.
      * symmetry. apply lookup_union_None. split; apply map_lookup_filter_None; by left.
    + apply map_disjoint_spec. intros name s1 s2
        [H1 Hge]%map_lookup_filter_Some [H2 Hlt]%map_lookup_filter_Some.
      simpl in *. rewrite H1 in H2. injection H2 as <-. lia.
  - intros name size. unfold large_files. apply map_lookup_filter_Some.
Qed.

(** ** Images by page *)

Section grouping.

Lemma group_by_page_snoc all_images img :
  group_by_page (all_images ++ [img])
  = <[img_page img := default [] (group_by_page all_images !! img_page img) ++ [img]]>
      (group_by_page all_images).
Proof. unfold group_by_page. by rewrite foldl_app. Qed.

Lemma group_by_page_lookup all_images page :
  group_by_page all_images !! page
  = if nonempty (on_page page all_images) then Some (on_page page all_images) else None.
Proof.
  induction all_images as [|img all_images IH] using rev_ind; [done|].
  rewrite group_by_page_snoc. unfold on_page in *. rewrite filter_app.
  destruct (decide (img_page img = page)) as [<-|Hne].
  - rewrite lookup_insert_eq, IH, (filter_cons_True _ img) by done.
    rewrite filter_nil.
    destruct (filter _ all_images) as [|img' imgs]; by simpl.
  - rewrite lookup_insert_ne, IH, (filter_cons_False _ img) by done.
    by rewrite filter_nil, app_nil_r.
Qed.

Lemma group_by_page_Some all_images page imgs :
  group_by_page all_images !! page = Some imgs
  ↔ imgs ≠ [] ∧ imgs = on_page page all_images.
Proof.
  rewrite group_by_page_lookup.
  destruct (on_page page all_images) as [|img rest]; simpl.
  - split; [done|]. by intros [? ->].
  - split; [by intros [= <-]|by intros [_ ->]].
Qed.

End grouping.

(** X21: the loop that groups the images by page gives every page that
    carries an image the list of the images of that page, in the order
    of [all_images], and gives no other page an entry; no entry is the
    empty list. *)
Theorem images_by_page_are_those_of_the_page :
  ∀ all_images page imgs,
    group_by_page all_images !! page = Some imgs
    ↔ imgs ≠ [] ∧ imgs = on_page page all_images.
Proof. intros all_images page imgs. apply group_by_page_Some. Qed.

(** ** The whole of [parse_pdf] *)

Section plain_names.

Lemma image_filename_plain page_num img_idx image_ext :
  47 ∉ image_ext → 47 ∉ image_filename page_num img_idx image_ext.
Proof.
  intros Hext. unfold image_filename.
  assert (Hdigits : ∀ n, 47 ∉ format_02d n).
  { intros n Hin.
    pose proof (proj1 (Forall_forall _ _) (format_02d_digits n) 47 Hin) as [? ?]. lia. }
  assert (Hlit : ∀ s : str, Forall (λ c, c ≠ 47) s → 47 ∉ s).
  { intros s Hs Hin. by apply (proj1 (Forall_forall _ _) Hs 47 Hin). }
  rewrite !not_elem_of_app. repeat split; try done; try apply Hdigits;
    apply Hlit; by repeat constructor.
Qed.

Lemma extract_images_plain image_list : ∀ page_num img_idx output_dir,
  Forall plain_extension image_list →
  Forall (λ img, 47 ∉ filename img)
         (extract_images page_num img_idx image_list output_dir).1.
Proof.
  induction image_list as [|[image_ext size|] rest IH];
    intros page_num img_idx output_dir Hplain; cbn [extract_images]; [constructor|..].
  - apply Forall_cons in Hplain as [Hext Hrest].
    specialize (IH page_num (img_idx + 1)
                   (<[image_filename page_num img_idx image_ext := size]> output_dir) Hrest).
    destruct (extract_images page_num (img_idx + 1) rest _) as [images dir].
    simpl in *. constructor; [by apply image_filename_plain|done].
  - apply Forall_cons in Hplain as [_ Hrest]. by apply IH.
Qed.

Lemma extract_pages_plain doc : ∀ page_num images_dir,
  plain_extensions doc →
  Forall (λ img, 47 ∉ filename img) (extract_pages page_num doc images_dir).1.
Proof.
  induction doc as [|page rest IH]; intros page_num images_dir Hplain; simpl;
    [constructor|].
  apply Forall_cons in Hplain as [Hpage Hrest].
  pose proof (extract_images_plain (page_image_list page) page_num 1 images_dir Hpage)
    as Hfirst.
  unfold extract_images_from_page.
  destruct (extract_images page_num 1 (page_image_list page) images_dir)
    as [page_images dir1]. simpl in Hfirst.
  specialize (IH (page_num + 1) dir1 Hrest).
  destruct (extract_pages (page_num + 1) rest dir1) as [more dir2]. simpl in *.
  by apply Forall_app.
Qed.

Lemma file_of_image_path images_dir_name name :
  47 ∉ name → file_of_path (images_dir_name ++ lit "/" ++ name) = name.
Proof.
  intros Hname. unfold file_of_path.
  change (lit "/" ++ name) with (47 :: name).
  rewrite split_slash_app, (split_slash_plain name) by done.
  by rewrite last_snoc.
Qed.

Lemma image_name_assigned v name :
  name ∈ image_name v → ∃ path, v = Some path ∧ name = file_of_path path.
Proof.
  unfold image_name. destruct v as [s|]; [|by intros ?%elem_of_empty].
  destruct (nonempty s); [|by intros ?%elem_of_empty].
  intros ->%elem_of_singleton. by exists s.
Qed.

Lemma names_of_question_assigned q name :
  name ∈ names_of_question q →
  ∃ path, path ∈ assigned_of_question q ∧ name = file_of_path path.
Proof.
  unfold names_of_question, assigned_of_question.
  intros [Hq|Hopts]%elem_of_union.
  - apply image_name_assigned in Hq as (path & E & ->). exists path. split; [|done].
    apply elem_of_app. left. rewrite E. apply list_elem_of_here.
  - apply elem_of_union_list in Hopts as (X & HX & Hin).
    apply list_elem_of_fmap in HX as (opt & -> & Hopt).
    apply image_name_assigned in Hin as (path & E & ->). exists path. split; [|done].
    apply elem_of_app. right. apply list_elem_of_omap. by exists opt.
Qed.

Lemma names_of_quiz_questions (P : str → Prop) quiz :
  all_questions (λ q, ∀ name, name ∈ names_of_question q → P name) quiz →
  ∀ name, name ∈ names_of_quiz quiz → P name.
Proof.
  intros Hall name. unfold names_of_quiz.
  intros (X & HX & Hin)%elem_of_union_list.
  apply list_elem_of_fmap in HX as (sec & -> & Hsec).
  unfold names_of_section in Hin.
  apply elem_of_union_list in Hin as (X & HX & Hin).
  apply list_elem_of_fmap in HX as (q & -> & Hq).
  pose proof (proj1 (Forall_forall _ _) Hall sec Hsec) as Hqs.
  by apply (proj1 (Forall_forall _ _) Hqs q Hq).
Qed.

Lemma filter_all {A} (P : A → Prop) `{∀ x, Decision (P x)} (l : list A) :
  Forall P l → filter P l = l.
Proof.
  induction 1 as [|x l Hx _ IH]; [done|]. by rewrite filter_cons_True, IH.
Qed.

End plain_names.

Section pipeline.
Context {U : Unicode}.
Variable sort_page : list Image → list Image.
Hypothesis sort_page_permutes : ∀ imgs, sort_page imgs ≡ₚ imgs.
Variables (name images_dir_name : str) (doc : list Page) (images_dir : gmap str N).

Local Abbreviation all_images := (extract_pages 1 doc images_dir).1.
Local Abbreviation written := (extract_pages 1 doc images_dir).2.
Local Abbreviation remaining := (large_files 200 written).
Local Abbreviation tracked :=
  (filter (λ img, is_Some (remaining !! filename img)) all_images).
Local Abbreviation images_by_page := (sort_page <$> group_by_page tracked).

(** [parse_pdf] is the line scan and the binder over the images whose
    files the cleanup has left. *)
Lemma parse_pdf_pages_tracked :
  parse_pdf_pages sort_page name images_dir_name doc images_dir
  = (parse_pdf images_by_page images_dir_name name (lines_of_pages 1 doc), remaining).
Proof.
  unfold parse_pdf_pages.
  pose proof (extract_pages_files doc 1 images_dir) as [_ Hfiles].
  destruct (extract_pages 1 doc images_dir) as [images dir1]. simpl in *.
  pose proof (cleanup_result dir1 200) as Hresult.
  pose proof (cleanup_nothing dir1 200) as Hnothing.
  destruct (cleanup_tiny_images dir1 200) as [dir2 deleted]. simpl in *. subst dir2.
  destruct (decide (deleted = 0%nat)) as [Hzero|Hdeleted].
  - rewrite bool_decide_eq_false_2 by (by intros ?).
    rewrite (Hnothing Hzero), filter_all; done.
  - by rewrite bool_decide_eq_true_2.
Qed.

Lemma images_by_page_lookup page imgs :
  images_by_page !! page = Some imgs → imgs ≡ₚ on_page page tracked.
Proof.
  rewrite lookup_fmap. intros (grouped & Hgroup & ->)%fmap_Some.
  apply group_by_page_Some in Hgroup as [_ ->]. apply sort_page_permutes.
Qed.


Lemma images_by_page_files page imgs img :
  images_by_page !! page = Some imgs → img ∈ imgs →
  img_page img = page ∧ img ∈ all_images
  ∧ ∃ size, written !! filename img = Some size ∧ 200 ≤ size.
Proof.
  intros Hperm%images_by_page_lookup Hin. rewrite Hperm in Hin.
  apply list_elem_of_filter in Hin as [Hpage Hin].
  apply list_elem_of_filter in Hin as [[size Hfile] Hin].
  split; [done|]. split; [done|]. exists size.
  by apply map_lookup_filter_Some in Hfile.
Qed.

Lemma assigned_path_is_a_file section_id q path :
  no_images q →
  path ∈ assigned_of_question
           (assign_question images_by_page images_dir_name section_id q) →
  ∃ img, img ∈ all_images ∧ path = image_path images_dir_name img
         ∧ ∃ size, remaining !! filename img = Some size ∧ 200 ≤ size.
Proof.
  intros Hno Hin.
  destruct (assign_question_assigned images_by_page images_dir_name section_id q path
              Hno Hin) as (_ & img & Himg & ->).
  destruct (page_images_source images_by_page q img Himg)
    as (page & imgs & Hlook & Hi & _).
  destruct (images_by_page_files page imgs img Hlook Hi) as (_ & Hall & size & Hfile & Hsize).
  exists img. split; [done|]. split; [done|]. exists size. split; [|done].
  by apply map_lookup_filter_Some.
Qed.

End pipeline.



(** X23: every image path in the document [parse_pdf] returns is the
    name of the images directory, a slash and the name of a file that is
    in the images directory when [parse_pdf] returns, with at least 200
    bytes: no question refers to an image the cleanup has deleted. *)
Theorem parsed_document_refers_to_kept_files :
  ∀ (U : Unicode) sort_page name images_dir_name doc images_dir,
    (∀ imgs, sort_page imgs ≡ₚ imgs) →
    let result := parse_pdf_pages sort_page name images_dir_name doc images_dir in
    all_questions
      (λ q, Forall (names_large_file images_dir_name result.2 200)
                   (assigned_of_question q))
      result.1.
Proof.
  intros U sort_page name images_dir_name doc images_dir Hsort. simpl.
  rewrite parse_pdf_pages_tracked by done. simpl.
  eapply assign_images_all; [|apply parse_lines_no_images].
  intros section_id q Hq. apply Forall_forall. intros path Hin.
  destruct (assigned_path_is_a_file sort_page Hsort images_dir_name doc images_dir
              section_id q path Hq Hin) as (img & _ & -> & size & Hfile & Hsize).
  by exists (filename img), size.
Qed.

Lemma parsed_document_refers_to_kept_files_witness :
  all_questions
    (λ q, Forall (names_large_file (lit "a_images")
                    (parse_pdf_pages (U:=czech) id (lit "a.pdf") (lit "a_images")
                       doc_two_pages ∅).2 200)
                 (assigned_of_question q))
    (parse_pdf_pages (U:=czech) id (lit "a.pdf") (lit "a_images") doc_two_pages ∅).1.
Proof.
  apply (parsed_document_refers_to_kept_files czech id).
  intros imgs. reflexivity.
Defined.

(** X24: the validator accepts what [process_pdf] writes.  When the
    extension of no extracted image holds a slash, every file name the
    written JSON document refers to is in the images directory
    [process_pdf] leaves, and the validator run on the two ends with the
    exit code 0 and never with the status FAILED. *)
Theorem written_document_passes_validation :
  ∀ (U : Unicode) sort_page name images_dir_name doc images_dir,
    (∀ imgs, sort_page imgs ≡ₚ imgs) →
    plain_extensions doc →
    let result := process_pdf sort_page name images_dir_name doc images_dir in
    let outcome := main (Some result.1) (Some (dom result.2)) in
    get_referenced_images result.1
    = Some (names_of_quiz
              (parse_pdf_pages sort_page name images_dir_name doc images_dir).1)
    ∧ names_of_quiz (parse_pdf_pages sort_page name images_dir_name doc images_dir).1
      ⊆ dom result.2
    ∧ exit_code outcome = 0%Z
    ∧ final_status outcome ≠ FAILED
    ∧ final_status outcome ≠ ABORTED.
Proof.
  intros U sort_page name images_dir_name doc images_dir Hsort Hplain. simpl.
  unfold process_pdf.
  pose proof (extract_pages_plain doc 1 images_dir Hplain) as Hnames.
  rewrite parse_pdf_pages_tracked by done. simpl.
  set (quiz := parse_pdf _ _ _ _).
  set (dir := large_files 200 _).
  assert (Hsub : names_of_quiz quiz ⊆ dom dir).
  { apply elem_of_subseteq. apply names_of_quiz_questions.
    eapply assign_images_all; [|apply parse_lines_no_images].
    intros section_id q Hq file Hfile.
    apply names_of_question_assigned in Hfile as (path & Hin & ->).
    destruct (assigned_path_is_a_file sort_page Hsort images_dir_name doc images_dir
                section_id q path Hq Hin) as (img & Himg & -> & size & Hfile & _).
    unfold image_path. rewrite file_of_image_path.
    - by apply elem_of_dom_2 in Hfile.
    - by apply (proj1 (Forall_forall _ _) Hnames img Himg). }
  split; [apply get_referenced_images_serialized|]. split; [done|].
  unfold main. rewrite get_referenced_images_serialized.
  destruct (get_questions_with_images_serialized quiz) as (questions & -> & ->).
  rewrite bool_decide_eq_false_2.
  - by destruct (bool_decide _).
  - intros Hmiss. apply Hmiss. unfold missing. by apply subseteq_empty_difference_L.
Qed.

Lemma written_document_passes_validation_witness :
  plain_extensions doc_two_pages
  ∧ let result := process_pdf (U:=czech) id (lit "a.pdf") (lit "a_images")
                    doc_two_pages ∅ in
    exit_code (main (Some result.1) (Some (dom result.2))) = 0%Z.
Proof.
  assert (Hplain : plain_extensions doc_two_pages).
  { repeat constructor; simpl; intros Hin;
      repeat (apply elem_of_cons in Hin as [Hin|Hin]; [done|]);
      by apply elem_of_nil in Hin. }
  split; [exact Hplain|].
  apply (written_document_passes_validation czech id (lit "a.pdf") (lit "a_images")
           doc_two_pages ∅); [|exact Hplain].
  intros imgs. reflexivity.
Defined.

(** ** The lines of the pages *)

Section page_lines.

Lemma split_newline_nonempty s : split_newline s ≠ [].
Proof.
  destruct s as [|c s]; [done|]. simpl.
  destruct (c =? NEWLINE); [done|]. by destruct (split_newline s).
Qed.

Lemma split_newline_lines s : Forall (λ line, NEWLINE ∉ line) (split_newline s).
Proof.
  induction s as [|c s IH]; [repeat constructor; by intros ?%elem_of_nil|].
  simpl. destruct (c =? NEWLINE) eqn:E.
  - constructor; [by intros ?%elem_of_nil|done].
  - apply N.eqb_neq in E.
    destruct (split_newline s) as [|line lines]; [repeat constructor|].
    + intros [Heq|?%elem_of_nil]%elem_of_cons; [|done]. by subst c.
    + apply Forall_cons in IH as [Hline Hlines]. constructor; [|done].
      intros [Heq|?]%elem_of_cons; [|done]. by subst c.
Qed.

Lemma join_split_newline s : join_newline (split_newline s) = s.
Proof.
  induction s as [|c s IH]; [done|].
  simpl. destruct (c =? NEWLINE) eqn:E.
  - apply N.eqb_eq in E as ->.
    pose proof (split_newline_nonempty s) as Hne.
    simpl. destruct (split_newline s) as [|line lines]; [done|]. by rewrite IH.
  - destruct (split_newline s) as [|line lines]; [by rewrite <- IH|].
    rewrite <- IH. simpl. by destruct lines.
Qed.

Lemma lines_of_pages_range doc : ∀ page_num,
  Forall (λ lp, (NEWLINE ∉ lp.1) ∧ page_num ≤ lp.2 < page_num + N.of_nat (length doc))
         (lines_of_pages page_num doc).
Proof.
  induction doc as [|page rest IH]; intros page_num; simpl; [constructor|].
  apply Forall_app. split.
  - apply Forall_fmap.
    eapply Forall_impl; [apply split_newline_lines|].
    intros line Hline. simpl. split; [done|lia].
  - eapply Forall_impl; [apply IH|].
    intros [line p] [Hline Hp]. simpl in *. split; [done|lia].
Qed.

Lemma lines_on_page_later doc : ∀ page_num p,
  p < page_num → lines_on_page p (lines_of_pages page_num doc) = [].
Proof.
  intros page_num p Hp. unfold lines_on_page.
  pose proof (lines_of_pages_range doc page_num) as Hrange.
  induction Hrange as [|[line q] lines [_ Hq] _ IH]; [done|].
  simpl in Hq. rewrite filter_cons_False by (simpl; lia). exact IH.
Qed.

Lemma lines_on_page_own page_num (lines : list str) :
  lines_on_page page_num ((λ line, (line, page_num)) <$> lines) = lines.
Proof.
  unfold lines_on_page. induction lines as [|line lines IH]; [done|].
  csimpl. rewrite filter_cons_True by done. csimpl. by rewrite IH.
Qed.

Lemma lines_on_page_other page_num p (lines : list str) :
  p ≠ page_num → lines_on_page p ((λ line, (line, page_num)) <$> lines) = [].
Proof.
  intros Hp. unfold lines_on_page. induction lines as [|line lines IH]; [done|].
  csimpl. by rewrite filter_cons_False by (simpl; congruence).
Qed.

Lemma lines_on_page_app p l1 l2 :
  lines_on_page p (l1 ++ l2) = lines_on_page p l1 ++ lines_on_page p l2.
Proof. unfold lines_on_page. by rewrite filter_app, fmap_app. Qed.

Lemma lines_on_page_lookup doc : ∀ page_num i page,
  doc !! i = Some page →
  lines_on_page (page_num + N.of_nat i) (lines_of_pages page_num doc)
  = split_newline (page_text page).
Proof.
  induction doc as [|first rest IH]; intros page_num i page Hlook; [done|].
  simpl. rewrite lines_on_page_app. destruct i as [|i]; simpl in Hlook.
  - injection Hlook as ->. rewrite N.add_0_r, lines_on_page_own.
    rewrite lines_on_page_later by lia. by rewrite app_nil_r.
  - rewrite lines_on_page_other by lia. simpl.
    replace (page_num + N.of_nat (S i)) with (page_num + 1 + N.of_nat i) by lia.
    by apply IH.
Qed.

Lemma lines_of_pages_ordered doc : ∀ page_num i j a b,
  (i ≤ j)%nat →
  lines_of_pages page_num doc !! i = Some a →
  lines_of_pages page_num doc !! j = Some b →
  a.2 ≤ b.2.
Proof.
  induction doc as [|page rest IH]; intros page_num i j a b Hij Ha Hb; [done|].
  simpl in Ha, Hb.
  set (own := (λ line, (line, page_num)) <$> split_newline (page_text page)) in *.
  assert (Hown : ∀ k lp, own !! k = Some lp → lp.2 = page_num).
  { intros k lp Hk. unfold own in Hk. rewrite list_lookup_fmap in Hk.
    destruct (split_newline (page_text page) !! k); [|done]. by injection Hk as <-. }
  assert (Hrest : ∀ k lp, lines_of_pages (page_num + 1) rest !! k = Some lp →
                          page_num + 1 ≤ lp.2).
  { intros k lp Hk. apply list_elem_of_lookup_2 in Hk.
    by apply (proj1 (Forall_forall _ _) (lines_of_pages_range rest (page_num + 1))) in Hk
      as [_ [? _]]. }
  apply lookup_app_Some in Ha as [Ha|[Hia Ha]];
    apply lookup_app_Some in Hb as [Hb|[Hjb Hb]].
  - rewrite (Hown _ _ Ha), (Hown _ _ Hb). lia.
  - rewrite (Hown _ _ Ha). apply Hrest in Hb. lia.
  - apply lookup_lt_Some in Hb. lia.
  - eapply (IH (page_num + 1)); [|exact Ha|exact Hb]. lia.
Qed.

End page_lines.

(** X25: [lines_with_pages] holds, page after page, the lines of the text
    of each page: the lines that carry the number of a page are the
    pieces of the text of that page between its newlines, and joined by
    newlines they give the text back; no line holds a newline; the page
    numbers run from 1 to the number of pages and never decrease along
    the list. *)
Theorem lines_with_pages_of_the_document :
  ∀ doc,
    let lines_with_pages := lines_of_pages 1 doc in
    Forall (λ lp, (NEWLINE ∉ lp.1) ∧ 1 ≤ lp.2 ≤ N.of_nat (length doc)) lines_with_pages
    ∧ (∀ i page, doc !! i = Some page →
         lines_on_page (N.of_nat i + 1) lines_with_pages = split_newline (page_text page)
         ∧ join_newline (lines_on_page (N.of_nat i + 1) lines_with_pages)
           = page_text page)
    ∧ (∀ i j a b, (i ≤ j)%nat →
         lines_with_pages !! i = Some a → lines_with_pages !! j = Some b → a.2 ≤ b.2).
Proof.
  intros doc. simpl. split; [|split].
  - eapply Forall_impl; [apply lines_of_pages_range|].
    intros [line p] [Hline Hp]. simpl in *. split; [done|lia].
  - intros i page Hlook.
    replace (N.of_nat i + 1) with (1 + N.of_nat i) by lia.
    rewrite (lines_on_page_lookup doc 1 i page Hlook).
    split; [done|apply join_split_newline].
  - apply lines_of_pages_ordered.
Qed.

(** ** The download *)

Section download_loop.
Import download.

Lemma write_chunks_file total chunks : ∀ downloaded file,
  (write_chunks total downloaded file chunks).1.1 = file ++ concat chunks.
Proof.
  induction chunks as [|chunk rest IH]; intros downloaded file; simpl;
    [by rewrite app_nil_r|].
  specialize (IH (downloaded + N.of_nat (length chunk)) (file ++ chunk)).
  destruct (write_chunks total _ _ rest) as [[file' downloaded'] printed].
  simpl in *. by rewrite IH, app_assoc.
Qed.

Lemma write_chunks_silent chunks : ∀ downloaded file,
  (write_chunks 0 downloaded file chunks).2 = [].
Proof.
  induction chunks as [|chunk rest IH]; intros downloaded file; simpl; [done|].
  specialize (IH (downloaded + N.of_nat (length chunk)) (file ++ chunk)).
  by destruct (write_chunks 0 _ _ rest) as [[file' downloaded'] printed].
Qed.

Lemma never_decreases_cons p printed :
  Forall (λ q, p ≤ q) printed → never_decreases printed →
  never_decreases (p :: printed).
Proof.
  intros Hle Hsorted [|i] [|j] a b Hij Ha Hb; simpl in *.
  - injection Ha as <-. injection Hb as <-. lia.
  - injection Ha as <-. apply list_elem_of_lookup_2 in Hb.
    by apply (proj1 (Forall_forall _ _) Hle).
  - lia.
  - eapply (Hsorted i j); [lia|done|done].
Qed.

Lemma write_chunks_progress total chunks : total ≠ 0 → ∀ downloaded file,
  let printed := (write_chunks total downloaded file chunks).2 in
  let final := downloaded + N.of_nat (length (concat chunks)) in
  length printed = length chunks
  ∧ Forall (λ p, N.div (downloaded * 100) total ≤ p ≤ N.div (final * 100) total) printed
  ∧ never_decreases printed
  ∧ (chunks ≠ [] → last printed = Some (N.div (final * 100) total)).
Proof.
  intros Htotal. induction chunks as [|chunk rest IH]; intros downloaded file; simpl.
  { split; [done|]. split; [constructor|]. split; [|done]. by intros i j a b _ ?. }
  specialize (IH (downloaded + N.of_nat (length chunk)) (file ++ chunk)).
  destruct (write_chunks total _ _ rest) as [[file' downloaded'] printed].
  simpl in *. destruct IH as (Hlen & Hbounds & Hsorted & Hlast).
  rewrite (proj2 (N.eqb_neq total 0) Htotal). simpl.
  rewrite length_app, Nat2N.inj_add, N.add_assoc.
  set (d1 := downloaded + N.of_nat (length chunk)) in *.
  set (final := d1 + N.of_nat (length (concat rest))) in *.
  assert (Hd1 : N.div (downloaded * 100) total ≤ N.div (d1 * 100) total)
    by (apply N.Div0.div_le_mono; unfold d1; lia).
  assert (Hfinal : N.div (d1 * 100) total ≤ N.div (final * 100) total)
    by (apply N.Div0.div_le_mono; unfold final; lia).
  split; [by rewrite Hlen|]. split; [|split].
  - constructor; [lia|]. eapply Forall_impl; [exact Hbounds|].
    intros p [? ?]. simpl. lia.
  - apply never_decreases_cons; [|done].
    eapply Forall_impl; [exact Hbounds|]. by intros p [? ?].
  - intros _. destruct rest as [|chunk' rest'].
    + destruct printed; [|done]. simpl. unfold final. simpl. by rewrite N.add_0_r.
    + destruct printed as [|p printed]; [done|].
      rewrite last_cons_cons. by apply Hlast.
Qed.

End download_loop.

(** X26: when the body arrives, [download_pdf] leaves at the output path
    the chunks of the body one after the other, whatever was there; the
    percentages it prints never decrease; with a content length other
    than 0 there is one for every chunk, none is above 100 when the body
    is not longer than announced, and the last is 100 when the body has
    the announced length; without a content length, or with 0, it prints
    none. *)
Theorem download_writes_the_chunks :
  ∀ content_length chunks ending output_path,
    let result :=
      download.download_pdf (download.Body content_length chunks ending) output_path in
    download.output_file result = Some (concat chunks)
    ∧ never_decreases (download.progress result)
    ∧ (default 0 content_length = 0 → download.progress result = [])
    ∧ (∀ total, content_length = Some total → total ≠ 0 →
         length (download.progress result) = length chunks
         ∧ (N.of_nat (length (concat chunks)) ≤ total →
            Forall (λ p, p ≤ 100) (download.progress result))
         ∧ (N.of_nat (length (concat chunks)) = total →
            last (download.progress result) = Some 100)).
Proof.
  intros content_length chunks ending output_path. simpl.
  unfold download.download_pdf.
  set (total := default 0 content_length).
  pose proof (write_chunks_file total chunks 0 []) as Hfile.
  pose proof (write_chunks_silent chunks 0 []) as Hsilent.
  pose proof (λ H, write_chunks_progress total chunks H 0 []) as Hprogress.
  destruct (decide (total = 0)) as [Hzero|Hpos].
  - rewrite Hzero in *.
    destruct (download.write_chunks 0 0 [] chunks) as [[file downloaded] printed].
    simpl in *. subst printed. split; [by rewrite Hfile|].
    split; [by intros i j a b _ ?|]. split; [done|].
    intros total' -> Hne. by simpl in Hzero.
  - specialize (Hprogress Hpos).
    destruct (download.write_chunks total 0 [] chunks) as [[file downloaded] printed].
    simpl in *. destruct Hprogress as (Hlen & Hbounds & Hsorted & Hlast).
    split; [by rewrite Hfile|]. split; [done|]. split; [done|].
    intros total' -> _. subst total. simpl in *. rewrite N.add_0_l in Hlast.
    split; [done|]. split.
    + intros Hshort. eapply Forall_impl; [exact Hbounds|].
      intros p [_ Hp]. simpl in Hp. rewrite N.add_0_l in Hp.
      assert (N.div (N.of_nat (length (concat chunks)) * 100) total' ≤ 100); [|lia].
      etrans; [apply N.Div0.div_le_mono, (N.mul_le_mono_r _ total' 100), Hshort|].
      rewrite N.mul_comm, N.div_mul by done. lia.
    + intros Hexact. rewrite Hlast.
      * by rewrite Hexact, N.mul_comm, N.div_mul.
      * intros ->. simpl in Hexact. by subst total'.
Qed.

Lemma download_writes_the_chunks_witness :
  let result := download.download_pdf answer_three_chunks None in
  download.output_file result = Some [37; 80; 68; 70; 10]
  ∧ last (download.progress result) = Some 100.
Proof.
  pose proof (download_writes_the_chunks (Some 5) [ [37; 80]; [68; 70]; [10] ]
                download.Exhausted None) as (Hfile & _ & _ & Hprogress).
  split; [exact Hfile|].
  apply (Hprogress 5); [reflexivity|lia|reflexivity].
Defined.

(** X27: [main] of the download script never touches a file that is at
    the output path and then ends with the exit code 0.  With no file
    there, a refused request leaves none and gives the exit code 1; once
    the body has begun to arrive the chunks received are at the output
    path, with the exit code 0 exactly when the stream has ended without
    an error, and every later run keeps that file and ends with the exit
    code 0: a download that was cut short is not repeated. *)
Theorem download_main_runs :
  (∀ file answer, download.main (Some file) answer = (Some file, 0%Z))
  ∧ download.main None download.Refused = (None, 1%Z)
  ∧ ∀ content_length chunks ending later,
      let first := download.main None (download.Body content_length chunks ending) in
      first.1 = Some (concat chunks)
      ∧ (first.2 = 0%Z ↔ ending = download.Exhausted)
      ∧ (first.2 = 1%Z ↔ ending = download.Broken)
      ∧ download.main first.1 later = (Some (concat chunks), 0%Z).
Proof.
  split; [done|]. split; [done|].
  intros content_length chunks ending later. simpl.
  unfold download.main, download.download_pdf.
  pose proof (write_chunks_file (default 0 content_length) chunks 0 []) as Hfile.
  destruct (download.write_chunks _ 0 [] chunks) as [[file downloaded] printed].
  simpl in *. subst file.
  split; [done|]. split; [by destruct ending|]. split; [by destruct ending|done].
Qed.
